(** * A shallow embedding of the PyPet script interpreters

    The repository ships two indentation-sensitive interpreters:
    - [scriptParser.js]: [Lexer], [Parser], [Executor] (keywords [repeat], [if]);
    - the loop mini-game: [MiniLexer], [MiniParser], [MiniExecutor]
      (keywords [for], [in], [range], [while], [if], [elif], [else]) and the
      [SnakePuzzle] grid the mini-game drives.

    Every definition below is a transcription of the JavaScript method of the
    same name.  JavaScript strings are modelled as lists of 8-bit characters
    (the lexers only ever compare against ASCII characters), numbers as exact
    rationals ([Q]) or integers ([Z]); IEEE rounding is not modelled. *)

From Stdlib Require Import List String Ascii Arith ZArith QArith Qround Lia Bool.
Import ListNotations.

Set Warnings "-register-all".
Local Open Scope nat_scope.

(** ** Characters *)

Module Chars.

Definition nl : ascii := "010"%char.
Definition tab : ascii := "009"%char.
Definition space : ascii := " "%char.
Definition hash : ascii := "#"%char.
Definition dquote : ascii := "034"%char.
Definition squote : ascii := "'"%char.
Definition backslash : ascii := "\"%char.
Definition minus : ascii := "-"%char.
Definition dot : ascii := "."%char.
Definition underscore : ascii := "_"%char.

Definition ch_eq (a b : ascii) : bool := Ascii.eqb a b.

(** [isDigit(ch)]: [ch >= '0' && ch <= '9']. *)
Definition isDigit (ch : ascii) : bool :=
  let n := nat_of_ascii ch in (48 <=? n) && (n <=? 57).

(** [isAlpha(ch)]: [(ch >= 'a' && ch <= 'z') || (ch >= 'A' && ch <= 'Z')]. *)
Definition isAlpha (ch : ascii) : bool :=
  let n := nat_of_ascii ch in
  ((97 <=? n) && (n <=? 122)) || ((65 <=? n) && (n <=? 90)).

(** [isAlphaNumeric(ch)]. *)
Definition isAlphaNumeric (ch : ascii) : bool :=
  isAlpha ch || isDigit ch || ch_eq ch underscore.

(** [String.prototype.toLowerCase] on one ASCII character. *)
Definition lower (ch : ascii) : ascii :=
  let n := nat_of_ascii ch in
  if (65 <=? n) && (n <=? 90) then ascii_of_nat (n + 32) else ch.

Definition toLowerCase (s : list ascii) : list ascii := map lower s.

Definition text (s : string) : list ascii := list_ascii_of_string s.

End Chars.
Import Chars.

(** ** Tokens *)

(** The two [TokenType] tables of the source are tables of strings; the
    enumeration is their union.  [PROTO] stands for the non-string value that
    [keywords[value.toLowerCase()]] yields for the identifiers [constructor]
    and [__proto__], which the keyword object inherits from
    [Object.prototype]. *)
Inductive TokenType : Set :=
  | IDENTIFIER | NUMBER | STRING | LPAREN | RPAREN | COLON | COMMA
  | NEWLINE | INDENT | DEDENT | EOF
  | REPEAT | IF
  | FOR | IN | RANGE | WHILE | ELIF | ELSE
  | PROTO.

Definition TokenType_eqb (a b : TokenType) : bool :=
  match a, b with
  | IDENTIFIER, IDENTIFIER | NUMBER, NUMBER | STRING, STRING
  | LPAREN, LPAREN | RPAREN, RPAREN | COLON, COLON | COMMA, COMMA
  | NEWLINE, NEWLINE | INDENT, INDENT | DEDENT, DEDENT | EOF, EOF
  | REPEAT, REPEAT | IF, IF | FOR, FOR | IN, IN | RANGE, RANGE
  | WHILE, WHILE | ELIF, ELIF | ELSE, ELSE | PROTO, PROTO => true
  | _, _ => false
  end.

(** The [value] field of a token: absent on punctuation and structural
    tokens, a number on NUMBER, text on STRING, IDENTIFIER and keywords. *)
Inductive TokenValue : Set :=
  | NoValue
  | NumValue (q : Q)
  | TextValue (s : string).

Record Token : Set := mkToken {
  type : TokenType;
  value : TokenValue;
  line : nat;
  col : nat
}.

Definition punct (t : TokenType) (ln cl : nat) : Token := mkToken t NoValue ln cl.

(** ** The lexer cursor: [source] from [pos] on, [line] and [col] *)

Record Cursor : Set := mkCursor {
  rest : list ascii;
  cline : nat;
  ccol : nat
}.

Definition lineAfter (ch : ascii) (ln : nat) : nat :=
  if ch_eq ch nl then S ln else ln.

Definition colAfter (ch : ascii) (cl : nat) : nat :=
  if ch_eq ch nl then 1 else S cl.

(** [peek(offset)]: [None] is the empty string returned past the end. *)
Definition peek (c : Cursor) : option ascii := hd_error (rest c).
Definition peek1 (c : Cursor) : option ascii := nth_error (rest c) 1.

Definition peekIs (c : Cursor) (ch : ascii) : bool :=
  match peek c with Some x => ch_eq x ch | None => false end.

(** [advance()].  Past the end [source[pos++]] is [undefined] and only [col]
    moves. *)
Definition advance (c : Cursor) : Cursor :=
  match rest c with
  | [] => mkCursor [] (cline c) (S (ccol c))
  | ch :: r => mkCursor r (lineAfter ch (cline c)) (colAfter ch (ccol c))
  end.

(** The loops [while (p(this.peek())) { ... this.advance() }] of the lexer:
    returns the characters consumed and the cursor after them. *)
Fixpoint advanceWhile (p : ascii -> bool) (s : list ascii) (ln cl : nat)
  : list ascii * Cursor :=
  match s with
  | [] => ([], mkCursor [] ln cl)
  | ch :: r =>
      if p ch then
        let '(taken, c') := advanceWhile p r (lineAfter ch ln) (colAfter ch cl) in
        (ch :: taken, c')
      else ([], mkCursor s ln cl)
  end.

Definition takeWhile (p : ascii -> bool) (c : Cursor) : list ascii * Cursor :=
  advanceWhile p (rest c) (cline c) (ccol c).

Definition isBlank (ch : ascii) : bool := ch_eq ch space || ch_eq ch tab.

(** [skipWhitespaceOnLine()]. *)
Definition skipWhitespaceOnLine (c : Cursor) : Cursor := snd (takeWhile isBlank c).

(** [while (this.peek() && this.peek() !== '\n') this.advance()]. *)
Definition skipComment (c : Cursor) : Cursor :=
  snd (takeWhile (fun ch => negb (ch_eq ch nl)) c).

(** [measureIndent()]: a space counts 1, a tab 4. *)
Definition indentUnits (ch : ascii) : nat := if ch_eq ch space then 1 else 4.

Definition measureIndent (c : Cursor) : nat * Cursor :=
  let '(blanks, c') := takeWhile isBlank c in
  (list_sum (map indentUnits blanks), c').

(** ** Number lexemes *)

Definition digitVal (ch : ascii) : Z := Z.of_nat (nat_of_ascii ch) - 48.

Definition digitsToZ (ds : list ascii) : Z :=
  fold_left (fun acc d => 10 * acc + digitVal d)%Z ds 0%Z.

Fixpoint spanDigits (s : list ascii) : list ascii * list ascii :=
  match s with
  | ch :: r => if isDigit ch then let '(a, b) := spanDigits r in (ch :: a, b)
               else ([], s)
  | [] => ([], [])
  end.

Definition splitSign (lexeme : list ascii) : bool * list ascii :=
  match lexeme with
  | ch :: r => if ch_eq ch minus then (true, r) else (false, lexeme)
  | [] => (false, [])
  end.

(** [parseFloat] on the lexemes [readNumber] builds: an optional [-], digits,
    and optionally [.] followed by digits.  The value is the exact decimal;
    the source's is the double nearest to it, which is another number only
    for literals of more digits than a double holds. *)
Definition parseFloat (lexeme : list ascii) : Q :=
  let '(neg, body) := splitSign lexeme in
  let '(ip, after) := spanDigits body in
  let fp := match after with
            | ch :: f => if ch_eq ch dot then fst (spanDigits f) else []
            | [] => []
            end in
  let m := digitsToZ (ip ++ fp) in
  Qmake (if neg then - m else m)%Z (Z.to_pos (10 ^ Z.of_nat (List.length fp))).

(** [parseInt(value, 10)] on the lexemes [MiniLexer.readNumber] builds. *)
Definition parseInt (lexeme : list ascii) : Z :=
  let '(neg, body) := splitSign lexeme in
  let m := digitsToZ (fst (spanDigits body)) in
  if neg then (- m)%Z else m.

(** ** The [tokenize] loop

    [Lexer.tokenize] and [MiniLexer.tokenize] are the same loop text except
    for (a) the check after a run of DEDENTs, present only in [MiniLexer]
    ([strict]), and (b) which literals start a token ([readLexeme]: strings,
    numbers and identifiers in [Lexer]; numbers and identifiers with other
    keywords in [MiniLexer]).  The loop is written once over both. *)

Record LexState : Set := mkLex {
  cur : Cursor;
  indentStack : list nat;   (* head of the list = top of the JS array *)
  tokens : list Token;
  atLineStart : bool
}.

Definition setCur (st : LexState) (c : Cursor) : LexState :=
  mkLex c (indentStack st) (tokens st) (atLineStart st).

Definition push (st : LexState) (ts : list Token) : LexState :=
  mkLex (cur st) (indentStack st) (tokens st ++ ts) (atLineStart st).

Definition setLineStart (st : LexState) (b : bool) : LexState :=
  mkLex (cur st) (indentStack st) (tokens st) b.

Definition setStack (st : LexState) (s : list nat) : LexState :=
  mkLex (cur st) s (tokens st) (atLineStart st).

(** What one turn of [while (this.pos < this.source.length)] does. *)
Inductive Step : Set :=
  | Continue (st : LexState)
  | Break (st : LexState)
  | IndentationError (ln : nat).

Definition top (stack : list nat) : nat := hd 0 stack.

(** [while (indentStack.length > 1 && top > indent) { pop; push DEDENT }]:
    the number of levels popped and the stack left. *)
Fixpoint popIndents (indent : nat) (stack : list nat) : nat * list nat :=
  match stack with
  | t :: ((_ :: _) as below) =>
      if indent <? t then
        let '(n, s) := popIndents indent below in (S n, s)
      else (0, stack)
  | _ => (0, stack)
  end.

Section Tokenize.

Variable strict : bool.
Variable readLexeme : Cursor -> option (Token * Cursor).

(** The comparison of the measured indent with the top of the stack. *)
Definition openLine (indent : nat) (st : LexState) : Step :=
  let ln := cline (cur st) in
  let currentIndent := top (indentStack st) in
  if currentIndent <? indent then
    Continue (setLineStart
                (push (setStack st (indent :: indentStack st)) [punct INDENT ln 1])
                false)
  else if indent <? currentIndent then
    let '(n, stack') := popIndents indent (indentStack st) in
    if strict && negb (top stack' =? indent) && (0 <? List.length stack') then
      IndentationError ln
    else
      Continue (setLineStart
                  (push (setStack st stack') (repeat (punct DEDENT ln 1) n))
                  false)
  else Continue (setLineStart st false).

(** The chain of [if (ch === ...) { ...; continue; }] on the current
    character. *)
Definition scan (st : LexState) : LexState :=
  let c := cur st in
  match rest c with
  | [] => st
  | ch :: _ =>
      if isBlank ch then setCur st (skipWhitespaceOnLine c)
      else if ch_eq ch nl then
        setLineStart (setCur (push st [punct NEWLINE (cline c) (ccol c)]) (advance c)) true
      else if ch_eq ch hash then setCur st (skipComment c)
      else if ch_eq ch "("%char then
        setCur (push st [punct LPAREN (cline c) (ccol c)]) (advance c)
      else if ch_eq ch ")"%char then
        setCur (push st [punct RPAREN (cline c) (ccol c)]) (advance c)
      else if ch_eq ch ":"%char then
        setCur (push st [punct COLON (cline c) (ccol c)]) (advance c)
      else if ch_eq ch ","%char then
        setCur (push st [punct COMMA (cline c) (ccol c)]) (advance c)
      else
        match readLexeme c with
        | Some (t, c') => setCur (push st [t]) c'
        | None => setCur st (advance c)   (* unknown character: skipped *)
        end
  end.

Definition iteration (st : LexState) : Step :=
  if atLineStart st then
    let '(indent, c1) := measureIndent (cur st) in
    if peekIs c1 nl || peekIs c1 hash then
      let c2 := if peekIs c1 hash then skipComment c1 else c1 in
      let c3 := if peekIs c2 nl then advance c2 else c2 in
      Continue (setCur st c3)
    else
      match rest c1 with
      | [] => Break (setCur st c1)
      | _ :: _ =>
          match openLine indent (setCur st c1) with
          | Continue st1 => Continue (scan st1)
          | other => other
          end
      end
  else Continue (scan st).

(** The main loop; [fuel] bounds the number of turns.  Every turn consumes a
    character ([loop_fuel_irrelevant] below), so [S (length source)] turns
    always reach the end of the input. *)
Fixpoint loop (fuel : nat) (st : LexState) : Step :=
  match fuel with
  | 0 => Break st
  | S fuel' =>
      match rest (cur st) with
      | [] => Break st
      | _ :: _ =>
          match iteration st with
          | Continue st' => loop fuel' st'
          | other => other
          end
      end
  end.

(** "Emit remaining DEDENTs", then EOF. *)
Definition flush (st : LexState) : list Token :=
  let c := cur st in
  tokens st
    ++ repeat (punct DEDENT (cline c) (ccol c)) (List.length (indentStack st) - 1)
    ++ [punct EOF (cline c) (ccol c)].

Definition initial (source : list ascii) : LexState :=
  mkLex (mkCursor source 1 1) [0] [] true.

(** [tokenize()]: [inl] is the token array returned, [inr ln] the
    [SyntaxError("Indentation error at line ln: inconsistent indentation")]. *)
Definition tokenizeWith (source : list ascii) : list Token + nat :=
  match loop (S (List.length source)) (initial source) with
  | Continue st | Break st => inl (flush st)
  | IndentationError ln => inr ln
  end.

End Tokenize.

(** ** [Lexer] of the script parser *)

Module Lexer.

Definition escape (quote escaped : ascii) : ascii :=
  if ch_eq escaped "n"%char then nl
  else if ch_eq escaped "t"%char then tab
  else if ch_eq escaped backslash then backslash
  else if ch_eq escaped quote then quote
  else escaped.

(** The loop of [readString] after the opening quote. *)
Fixpoint readStringBody (quote : ascii) (s : list ascii) (ln cl : nat)
    (acc : list ascii) : list ascii * Cursor :=
  match s with
  | [] => (acc, mkCursor [] ln cl)
  | ch :: r =>
      if ch_eq ch quote || ch_eq ch nl then (acc, mkCursor s ln cl)
      else if ch_eq ch backslash then
        match r with
        | [] => (acc, mkCursor [] ln (S (S cl)))
        | e :: r' =>
            readStringBody quote r' (lineAfter e ln) (colAfter e (S cl))
              (acc ++ [escape quote e])
        end
      else readStringBody quote r (lineAfter ch ln) (colAfter ch cl) (acc ++ [ch])
  end.

Definition readString (quote : ascii) (c : Cursor) : Token * Cursor :=
  let c0 := advance c in
  let '(v, c1) := readStringBody quote (rest c0) (cline c0) (ccol c0) [] in
  let c2 := if peekIs c1 quote then advance c1 else c1 in
  (mkToken STRING (TextValue (string_of_list_ascii v)) (cline c) (ccol c), c2).

Definition nextIsDigit (c : Cursor) : bool :=
  match peek1 c with Some d => isDigit d | None => false end.

Definition readNumber (c : Cursor) : Token * Cursor :=
  let '(sign, c1) := if peekIs c minus then ([minus], advance c) else ([], c) in
  let '(ip, c2) := takeWhile isDigit c1 in
  let '(fp, c3) :=
    if peekIs c2 dot && nextIsDigit c2 then
      let '(ds, c') := takeWhile isDigit (advance c2) in (dot :: ds, c')
    else ([], c2) in
  (mkToken NUMBER (NumValue (parseFloat (sign ++ ip ++ fp))) (cline c) (ccol c), c3).

(** [keywords[value.toLowerCase()] || TokenType.IDENTIFIER]. *)
Definition keywords (lowered : string) : TokenType :=
  if String.eqb lowered "repeat" then REPEAT
  else if String.eqb lowered "if" then IF
  else if String.eqb lowered "constructor" || String.eqb lowered "__proto__" then PROTO
  else IDENTIFIER.

Definition readIdentifier (c : Cursor) : Token * Cursor :=
  let '(v, c') := takeWhile isAlphaNumeric c in
  (mkToken (keywords (string_of_list_ascii (toLowerCase v)))
           (TextValue (string_of_list_ascii v)) (cline c) (ccol c), c').

Definition readLexeme (c : Cursor) : option (Token * Cursor) :=
  match rest c with
  | [] => None
  | ch :: _ =>
      if ch_eq ch dquote || ch_eq ch squote then Some (readString ch c)
      else if isDigit ch || (ch_eq ch minus && nextIsDigit c) then Some (readNumber c)
      else if isAlpha ch || ch_eq ch underscore then Some (readIdentifier c)
      else None
  end.

(** [new Lexer(source).tokenize()]; this lexer never throws. *)
Definition tokenize (source : string) : list Token + nat :=
  tokenizeWith false readLexeme (text source).

End Lexer.

(** ** [MiniLexer] of the loop mini-game *)

Module MiniLexer.

Definition readNumber (c : Cursor) : Token * Cursor :=
  let '(sign, c1) := if peekIs c minus then ([minus], advance c) else ([], c) in
  let '(ds, c2) := takeWhile isDigit c1 in
  (mkToken NUMBER (NumValue (inject_Z (parseInt (sign ++ ds)))) (cline c) (ccol c), c2).

Definition keywords (lowered : string) : TokenType :=
  if String.eqb lowered "for" then FOR
  else if String.eqb lowered "in" then IN
  else if String.eqb lowered "range" then RANGE
  else if String.eqb lowered "while" then WHILE
  else if String.eqb lowered "if" then IF
  else if String.eqb lowered "elif" then ELIF
  else if String.eqb lowered "else" then ELSE
  else if String.eqb lowered "constructor" || String.eqb lowered "__proto__" then PROTO
  else IDENTIFIER.

Definition readIdentifier (c : Cursor) : Token * Cursor :=
  let '(v, c') := takeWhile isAlphaNumeric c in
  (mkToken (keywords (string_of_list_ascii (toLowerCase v)))
           (TextValue (string_of_list_ascii v)) (cline c) (ccol c), c').

Definition readLexeme (c : Cursor) : option (Token * Cursor) :=
  match rest c with
  | [] => None
  | ch :: _ =>
      if isDigit ch || (ch_eq ch minus && Lexer.nextIsDigit c) then Some (readNumber c)
      else if isAlpha ch || ch_eq ch underscore then Some (readIdentifier c)
      else None
  end.

(** [new MiniLexer(source).tokenize()]. *)
Definition tokenize (source : string) : list Token + nat :=
  tokenizeWith true readLexeme (text source).

End MiniLexer.

(** ** What the two parsers share: results, the token cursor *)

(** The [SyntaxError] messages of the parsers, by template (the quotation
    marks some messages put around a symbol are left out of [errorMsg]).  A
    line or column is [None] where the source prints [undefined]: the token
    [peek()] makes up past the end of the array, [{ type: EOF }], has
    neither. *)
Inductive Error : Set :=
  | Expected (errorMsg : string) (ln cl : option nat) (got : TokenType)
      (* `${errorMsg} at line ${token.line}, col ${token.col}. Got ${token.type}` *)
  | UnexpectedToken (got : TokenType) (ln : option nat)
      (* `Unexpected token ${token.type} at line ${token.line}` *)
  | ExpectedIndentedBlock (after : string) (ln : option nat)
      (* `Expected indented block after ${after} at line ${line}` *)
  | ExpectedCondition (ln : option nat)
      (* `Expected condition at line ${token.line}` *)
  | TypeError.
      (* a property read on [undefined] *)

(** A parser method either returns, throws, or has used up the recursion
    budget of the model. *)
Inductive Result (A : Type) : Type :=
  | Ok (a : A)
  | Throw (e : Error)
  | OutOfFuel.
Arguments Ok {A} a.
Arguments Throw {A} e.
Arguments OutOfFuel {A}.

Definition bind {A B : Type} (r : Result A) (k : A -> Result B) : Result B :=
  match r with
  | Ok a => k a
  | Throw e => Throw e
  | OutOfFuel => OutOfFuel
  end.

Declare Scope parser_scope.
Delimit Scope parser_scope with parser.
Notation "x <- c ;; k" := (bind c (fun x => k))
  (at level 61, c at next level, right associativity) : parser_scope.
Notation "' p <- c ;; k" := (bind c (fun x => let 'p := x in k))
  (at level 61, p pattern, c at next level, right associativity) : parser_scope.

Definition textOf (v : TokenValue) : string :=
  match v with TextValue s => s | _ => EmptyString end.

Definition numOf (v : TokenValue) : Q :=
  match v with NumValue q => q | _ => 0%Q end.

Module Cursor.
Section Cursor.

Variable tokens : list Token.

(** [this.tokens[this.pos]], [undefined] past the end. *)
Definition at_ (pos : nat) : option Token := nth_error tokens pos.

(** The fields of [peek()], which is [{ type: EOF }] past the end. *)
Definition peekType (pos : nat) : TokenType :=
  match at_ pos with Some t => type t | None => EOF end.

Definition peekLine (pos : nat) : option nat := option_map line (at_ pos).
Definition peekCol (pos : nat) : option nat := option_map col (at_ pos).

Definition peekIsType (pos : nat) (ty : TokenType) : bool :=
  TokenType_eqb (peekType pos) ty.

(** [expect(type, errorMsg)]: the token consumed and the new position. *)
Definition expect (ty : TokenType) (errorMsg : string) (pos : nat)
  : Result (Token * nat) :=
  if peekIsType pos ty then
    match at_ pos with
    | Some t => Ok (t, S pos)
    | None => Throw TypeError
    end
  else Throw (Expected errorMsg (peekLine pos) (peekCol pos) (peekType pos)).

(** [skipNewlines()]: at most [length tokens - pos] tokens remain. *)
Fixpoint skipNewlinesFrom (remaining pos : nat) : nat :=
  match remaining with
  | 0 => pos
  | S k => if peekIsType pos NEWLINE then skipNewlinesFrom k (S pos) else pos
  end.

Definition skipNewlines (pos : nat) : nat :=
  skipNewlinesFrom (List.length tokens - pos) pos.

(** The line of a token obtained from [advance()]. *)
Definition lineOf (t : option Token) : Result nat :=
  match t with Some t => Ok (line t) | None => Throw TypeError end.

End Cursor.
End Cursor.
Import Cursor.

Local Open Scope parser_scope.

(** ** [Parser] of the script parser *)

Module Parser.

Inductive Node : Set :=
  | Program (body : list Node)
  | Sequence (statements : list Node)
  | Call (name : string) (arguments : list Node) (ln : nat)
  | Repeat (count : Z) (body : list Node) (ln : nat)
  | If (condition : Node) (body : list Node) (ln : nat)
  | Number (v : Q)
  | Str (v : string)
  | Identifier (name : string).

Section Parser.

Variable tokens : list Token.

Local Abbreviation peekType := (peekType tokens).
Local Abbreviation peekIsType := (peekIsType tokens).
Local Abbreviation expect := (expect tokens).
Local Abbreviation skipNewlines := (skipNewlines tokens).
Local Abbreviation at_ := (at_ tokens).

(** [parseCall], [parseArgument] and the [while (COMMA)] loop of
    [parseCall]. *)
Fixpoint parseCall (fuel pos : nat) : Result (Node * nat) :=
  match fuel with
  | 0 => OutOfFuel
  | S f =>
      '(nameToken, p1) <- expect IDENTIFIER "Expected function name" pos ;;
      '(_, p2) <- expect LPAREN "Expected ( after function name" p1 ;;
      '(args, p3) <-
         (if peekIsType p2 RPAREN then Ok ([], p2)
          else '(a, p) <- parseArgument f p2 ;; parseMoreArguments f [a] p) ;;
      '(_, p4) <- expect RPAREN "Expected )" p3 ;;
      Ok (Call (textOf (value nameToken)) args (line nameToken), p4)
  end
with parseArgument (fuel pos : nat) : Result (Node * nat) :=
  match fuel with
  | 0 => OutOfFuel
  | S f =>
      match at_ pos with
      | Some token =>
          match type token with
          | NUMBER => Ok (Number (numOf (value token)), S pos)
          | STRING => Ok (Str (textOf (value token)), S pos)
          | IDENTIFIER =>
              if peekIsType (S pos) LPAREN then parseCall f pos
              else Ok (Identifier (textOf (value token)), S pos)
          | other => Throw (UnexpectedToken other (Some (line token)))
          end
      | None => Throw (UnexpectedToken EOF None)
      end
  end
with parseMoreArguments (fuel : nat) (args : list Node) (pos : nat)
  : Result (list Node * nat) :=
  match fuel with
  | 0 => OutOfFuel
  | S f =>
      if peekIsType pos COMMA then
        '(a, p) <- parseArgument f (S pos) ;; parseMoreArguments f (args ++ [a]) p
      else Ok (args, pos)
  end.

(** [parseCondition]. *)
Definition parseCondition (fuel pos : nat) : Result (Node * nat) :=
  match at_ pos with
  | Some token =>
      match type token with
      | IDENTIFIER =>
          if peekIsType (S pos) LPAREN then parseCall fuel pos
          else Ok (Identifier (textOf (value token)), S pos)
      | _ => Throw (ExpectedCondition (Some (line token)))
      end
  | None => Throw (ExpectedCondition None)
  end.

Definition pushStmt (statements : list Node) (stmt : option Node) : list Node :=
  match stmt with Some s => statements ++ [s] | None => statements end.

Definition startsStatement (ty : TokenType) : bool :=
  match ty with IDENTIFIER | REPEAT | IF => true | _ => false end.

Definition skippable (ty : TokenType) : bool :=
  match ty with EOF | NEWLINE | DEDENT => false | _ => true end.

(** After the colon of a block opener: [skipNewlines()], then INDENT or the
    "Expected indented block" error, then [parseBlock()]. *)
Definition openBlock (after : string) (opener : option Token) (pos : nat)
  : Result nat :=
  let p := skipNewlines pos in
  if peekIsType p INDENT then Ok (S p)
  else ln <- lineOf opener ;; Throw (ExpectedIndentedBlock after (Some ln)).

Fixpoint parseStatement (fuel pos : nat) : Result (option Node * nat) :=
  match fuel with
  | 0 => OutOfFuel
  | S f =>
      match peekType pos with
      | REPEAT => '(n, p) <- parseRepeat f pos ;; Ok (Some n, p)
      | IF => '(n, p) <- parseIf f pos ;; Ok (Some n, p)
      | IDENTIFIER => '(n, p) <- parseCallOrSequence f pos ;; Ok (Some n, p)
      | other => Ok (None, if skippable other then S pos else pos)
      end
  end
with parseCallOrSequence (fuel pos : nat) : Result (Node * nat) :=
  match fuel with
  | 0 => OutOfFuel
  | S f =>
      '(c, p) <- parseCall f pos ;;
      '(calls, p') <- parseMoreCalls f [c] p ;;
      match calls with
      | [single] => Ok (single, p')
      | _ => Ok (Sequence calls, p')
      end
  end
with parseMoreCalls (fuel : nat) (calls : list Node) (pos : nat)
  : Result (list Node * nat) :=
  match fuel with
  | 0 => OutOfFuel
  | S f =>
      if peekIsType pos COMMA then
        let p := skipNewlines (S pos) in
        if startsStatement (peekType p) then
          (* [parseStatement] returns a node on these three kinds *)
          '(s, p') <- parseStatement f p ;; parseMoreCalls f (pushStmt calls s) p'
        else parseMoreCalls f calls p
      else Ok (calls, pos)
  end
with parseRepeat (fuel pos : nat) : Result (Node * nat) :=
  match fuel with
  | 0 => OutOfFuel
  | S f =>
      let repeatToken := at_ pos in
      '(_, p1) <- expect LPAREN "Expected ( after repeat" (S pos) ;;
      '(countToken, p2) <- expect NUMBER "Expected number in repeat" p1 ;;
      '(_, p3) <- expect RPAREN "Expected )" p2 ;;
      '(_, p4) <- expect COLON "Expected : after repeat(n)" p3 ;;
      p5 <- openBlock "repeat" repeatToken p4 ;;
      '(body, p6) <- parseBlock f p5 ;;
      ln <- lineOf repeatToken ;;
      Ok (Repeat (Qfloor (numOf (value countToken))) body ln, p6)
  end
with parseIf (fuel pos : nat) : Result (Node * nat) :=
  match fuel with
  | 0 => OutOfFuel
  | S f =>
      let ifToken := at_ pos in
      '(condition, p1) <- parseCondition f (S pos) ;;
      '(_, p2) <- expect COLON "Expected : after if condition" p1 ;;
      p3 <- openBlock "if" ifToken p2 ;;
      '(body, p4) <- parseBlock f p3 ;;
      ln <- lineOf ifToken ;;
      Ok (If condition body ln, p4)
  end
with parseBlock (fuel pos : nat) : Result (list Node * nat) :=
  match fuel with
  | 0 => OutOfFuel
  | S f =>
      '(statements, p) <- parseBlockLoop f [] (skipNewlines pos) ;;
      Ok (statements, if peekIsType p DEDENT then S p else p)
  end
with parseBlockLoop (fuel : nat) (statements : list Node) (pos : nat)
  : Result (list Node * nat) :=
  match fuel with
  | 0 => OutOfFuel
  | S f =>
      if peekIsType pos DEDENT || peekIsType pos EOF then Ok (statements, pos)
      else
        '(stmt, p) <- parseStatement f pos ;;
        parseBlockLoop f (pushStmt statements stmt) (skipNewlines p)
  end.

(** The [while (this.peek().type !== EOF)] loop of [parse]. *)
Fixpoint parseLoop (fuel : nat) (statements : list Node) (pos : nat)
  : Result (list Node) :=
  match fuel with
  | 0 => OutOfFuel
  | S f =>
      if peekIsType pos EOF then Ok statements
      else
        '(stmt, p) <- parseStatement f pos ;;
        parseLoop f (pushStmt statements stmt) (skipNewlines p)
  end.

(** [parse()]. *)
Definition parse (fuel : nat) : Result Node :=
  statements <- parseLoop fuel [] (skipNewlines 0) ;;
  Ok (Program statements).

End Parser.

(** [parseScript(source)].  [Lexer.tokenize] has no [throw]; the second
    branch only completes the match. *)
Definition parseScript (fuel : nat) (source : string) : Result Node :=
  match Lexer.tokenize source with
  | inl tokens => parse tokens fuel
  | inr _ => Throw TypeError
  end.

End Parser.

(** ** [MiniParser] of the loop mini-game *)

Module MiniParser.

Inductive Node : Set :=
  | Program (body : list Node)
  | ForLoop (variable : string) (count : Q) (body : list Node) (ln : nat)
  | WhileLoop (condition : Node) (body : list Node) (ln : nat)
  | IfStatement (condition : Node) (body : list Node)
      (elifClauses : list (Node * list Node)) (elseBody : option (list Node))
      (ln : nat)
  | Call (name : string) (arguments : list Node) (ln : nat)
  | Number (v : Q)
  | Identifier (name : string).

Section Parser.

Variable tokens : list Token.

Local Abbreviation peekType := (peekType tokens).
Local Abbreviation peekIsType := (peekIsType tokens).
Local Abbreviation peekLine := (peekLine tokens).
Local Abbreviation expect := (expect tokens).
Local Abbreviation skipNewlines := (skipNewlines tokens).
Local Abbreviation at_ := (at_ tokens).

(** [parseArgument]. *)
Definition parseArgument (pos : nat) : Result (Node * nat) :=
  match at_ pos with
  | Some token =>
      match type token with
      | NUMBER => Ok (Number (numOf (value token)), S pos)
      | IDENTIFIER => Ok (Identifier (textOf (value token)), S pos)
      | other => Throw (UnexpectedToken other (Some (line token)))
      end
  | None => Throw (UnexpectedToken EOF None)
  end.

(** The [while (COMMA)] loop of [parseCallWithParens]. *)
Fixpoint parseMoreArguments (fuel : nat) (args : list Node) (pos : nat)
  : Result (list Node * nat) :=
  match fuel with
  | 0 => OutOfFuel
  | S f =>
      if peekIsType pos COMMA then
        '(a, p) <- parseArgument (S pos) ;; parseMoreArguments f (args ++ [a]) p
      else Ok (args, pos)
  end.

(** [parseCallWithParens(name, line)]. *)
Definition parseCallWithParens (fuel : nat) (name : string) (ln : nat) (pos : nat)
  : Result (Node * nat) :=
  '(_, p1) <- expect LPAREN "Expected ( after function name" pos ;;
  '(args, p2) <-
     (if peekIsType p1 RPAREN then Ok ([], p1)
      else '(a, p) <- parseArgument p1 ;; parseMoreArguments fuel [a] p) ;;
  '(_, p3) <- expect RPAREN "Expected )" p2 ;;
  Ok (Call name args ln, p3).

(** [parseCondition]. *)
Definition parseCondition (fuel pos : nat) : Result (Node * nat) :=
  match at_ pos with
  | Some token =>
      match type token with
      | IDENTIFIER =>
          if peekIsType (S pos) LPAREN then
            parseCallWithParens fuel (textOf (value token)) (line token) (S pos)
          else Ok (Identifier (textOf (value token)), S pos)
      | _ => Throw (ExpectedCondition (Some (line token)))
      end
  | None => Throw (ExpectedCondition None)
  end.

(** [parseCall]. *)
Definition parseCall (fuel pos : nat) : Result (Node * nat) :=
  match at_ pos with
  | Some nameToken =>
      if peekIsType (S pos) LPAREN then
        parseCallWithParens fuel (textOf (value nameToken)) (line nameToken) (S pos)
      else Ok (Call (textOf (value nameToken)) [] (line nameToken), S pos)
  | None => Throw TypeError
  end.

Definition pushStmt (statements : list Node) (stmt : option Node) : list Node :=
  match stmt with Some s => statements ++ [s] | None => statements end.

Definition skippable (ty : TokenType) : bool :=
  match ty with EOF | NEWLINE | DEDENT => false | _ => true end.

(** After the colon of [for], [while] and [if]: [skipNewlines()], then INDENT
    or the "Expected indented block" error with the opener's line. *)
Definition openBlock (after : string) (opener : option Token) (pos : nat)
  : Result nat :=
  let p := skipNewlines pos in
  if peekIsType p INDENT then Ok (S p)
  else ln <- lineOf opener ;; Throw (ExpectedIndentedBlock after (Some ln)).

(** The same after [elif] and [else], where the error carries
    [this.peek().line]. *)
Definition openClauseBlock (after : string) (pos : nat) : Result nat :=
  let p := skipNewlines pos in
  if peekIsType p INDENT then Ok (S p)
  else Throw (ExpectedIndentedBlock after (peekLine p)).

Fixpoint parseStatement (fuel pos : nat) : Result (option Node * nat) :=
  match fuel with
  | 0 => OutOfFuel
  | S f =>
      match peekType pos with
      | FOR => '(n, p) <- parseForLoop f pos ;; Ok (Some n, p)
      | WHILE => '(n, p) <- parseWhileLoop f pos ;; Ok (Some n, p)
      | IF => '(n, p) <- parseIfStatement f pos ;; Ok (Some n, p)
      | IDENTIFIER => '(n, p) <- parseCall f pos ;; Ok (Some n, p)
      | other => Ok (None, if skippable other then S pos else pos)
      end
  end
with parseForLoop (fuel pos : nat) : Result (Node * nat) :=
  match fuel with
  | 0 => OutOfFuel
  | S f =>
      let forToken := at_ pos in
      '(varToken, p1) <- expect IDENTIFIER "Expected variable name after for" (S pos) ;;
      '(_, p2) <- expect IN "Expected in after loop variable" p1 ;;
      '(_, p3) <- expect RANGE "Expected range after in" p2 ;;
      '(_, p4) <- expect LPAREN "Expected ( after range" p3 ;;
      '(countToken, p5) <- expect NUMBER "Expected number in range()" p4 ;;
      '(_, p6) <- expect RPAREN "Expected ) after range argument" p5 ;;
      '(_, p7) <- expect COLON "Expected : after for statement" p6 ;;
      p8 <- openBlock "for loop" forToken p7 ;;
      '(body, p9) <- parseBlock f p8 ;;
      ln <- lineOf forToken ;;
      Ok (ForLoop (textOf (value varToken)) (numOf (value countToken)) body ln, p9)
  end
with parseWhileLoop (fuel pos : nat) : Result (Node * nat) :=
  match fuel with
  | 0 => OutOfFuel
  | S f =>
      let whileToken := at_ pos in
      '(condition, p1) <- parseCondition f (S pos) ;;
      '(_, p2) <- expect COLON "Expected : after while condition" p1 ;;
      p3 <- openBlock "while loop" whileToken p2 ;;
      '(body, p4) <- parseBlock f p3 ;;
      ln <- lineOf whileToken ;;
      Ok (WhileLoop condition body ln, p4)
  end
with parseIfStatement (fuel pos : nat) : Result (Node * nat) :=
  match fuel with
  | 0 => OutOfFuel
  | S f =>
      let ifToken := at_ pos in
      '(condition, p1) <- parseCondition f (S pos) ;;
      '(_, p2) <- expect COLON "Expected : after if condition" p1 ;;
      p3 <- openBlock "if" ifToken p2 ;;
      '(body, p4) <- parseBlock f p3 ;;
      '(elifClauses, p5) <- parseElifClauses f [] (skipNewlines p4) ;;
      '(elseBody, p6) <-
         (if peekIsType p5 ELSE then
            '(_, q1) <- expect COLON "Expected : after else" (S p5) ;;
            q2 <- openClauseBlock "else" q1 ;;
            '(b, q3) <- parseBlock f q2 ;;
            Ok (Some b, q3)
          else Ok (None, p5)) ;;
      ln <- lineOf ifToken ;;
      Ok (IfStatement condition body elifClauses elseBody ln, p6)
  end
with parseElifClauses (fuel : nat) (clauses : list (Node * list Node)) (pos : nat)
  : Result (list (Node * list Node) * nat) :=
  match fuel with
  | 0 => OutOfFuel
  | S f =>
      if peekIsType pos ELIF then
        '(elifCondition, p1) <- parseCondition f (S pos) ;;
        '(_, p2) <- expect COLON "Expected : after elif condition" p1 ;;
        p3 <- openClauseBlock "elif" p2 ;;
        '(elifBody, p4) <- parseBlock f p3 ;;
        parseElifClauses f (clauses ++ [(elifCondition, elifBody)]) (skipNewlines p4)
      else Ok (clauses, pos)
  end
with parseBlock (fuel pos : nat) : Result (list Node * nat) :=
  match fuel with
  | 0 => OutOfFuel
  | S f =>
      '(statements, p) <- parseBlockLoop f [] pos ;;
      Ok (statements, if peekIsType p DEDENT then S p else p)
  end
with parseBlockLoop (fuel : nat) (statements : list Node) (pos : nat)
  : Result (list Node * nat) :=
  match fuel with
  | 0 => OutOfFuel
  | S f =>
      if peekIsType pos DEDENT || peekIsType pos EOF then Ok (statements, pos)
      else
        '(stmt, p) <- parseStatement f pos ;;
        parseBlockLoop f (pushStmt statements stmt) (skipNewlines p)
  end.

(** The [while (this.peek().type !== EOF)] loop of [parse]. *)
Fixpoint parseLoop (fuel : nat) (statements : list Node) (pos : nat)
  : Result (list Node) :=
  match fuel with
  | 0 => OutOfFuel
  | S f =>
      if peekIsType pos EOF then Ok statements
      else
        '(stmt, p) <- parseStatement f pos ;;
        parseLoop f (pushStmt statements stmt) (skipNewlines p)
  end.

(** [parse()]. *)
Definition parse (fuel : nat) : Result Node :=
  statements <- parseLoop fuel [] (skipNewlines 0) ;;
  Ok (Program statements).

End Parser.

(** A thrown lexer error, as the parse of the source sees it. *)
Inductive Parsed : Set :=
  | Parsed_ (r : Result Node)
  | IndentationErrorAt (ln : nat).

(** [new MiniParser(new MiniLexer(source).tokenize()).parse()], the first
    lines of the [try] block of [runLoopMiniGame]. *)
Definition parseSource (fuel : nat) (source : string) : Parsed :=
  match MiniLexer.tokenize source with
  | inl tokens => Parsed_ (parse tokens fuel)
  | inr ln => IndentationErrorAt ln
  end.

End MiniParser.

Local Close Scope parser_scope.

(** ** The run-time model shared by the two executors

    [execute] is [async]; the model runs it to completion on one thread of
    control, which is how the host awaits it.  What the executor does to its
    environment is kept in a log ([trace]): each command invoked with its
    arguments, each message printed, each pacing delay awaited. *)

Inductive Value : Set :=
  | VUndefined
  | VBool (b : bool)
  | VNum (q : Q)
  | VStr (s : string)
  | VObject       (* an object that is no function *)
  | VFunction.    (* a function *)

(** JavaScript truthiness of a condition result. *)
Definition truthy (v : Value) : bool :=
  match v with
  | VUndefined => false
  | VBool b => b
  | VNum q => negb (Qeq_bool q 0)
  | VStr s => negb (String.eqb s EmptyString)
  | VObject | VFunction => true
  end.

(** The [Error]s raised while a script runs, by message template. *)
Inductive Exception : Set :=
  | HostError (message : string)        (* thrown by a host command *)
  | EngineTypeError                     (* a TypeError of the engine: a call of
                                           what is no function, a getter or
                                           setter that is no function *)
  | UnknownNodeType                     (* `Unknown node type: ${node.type}` *)
  | UnknownCommand (name : string)      (* `Unknown command: ${name}` *)
  | LoopExceeded (maxIterations : Z).   (* `Loop exceeded maximum iterations (${max})` *)

(** The messages [Executor] prints, and the channel it names. *)
Inductive Message : Set :=
  | NameErrorMessage (name : string)    (* `NameError: '${name}' is not defined` *)
  | HelpHintMessage                     (* `Type help() to see available commands` *)
  | ErrorMessage (e : Exception)        (* `Error: ${e.message}` *)
  | RepeatingMessage (count : Z)        (* `Repeating ${count} times...` *)
  | ConditionTrueMessage                (* `Condition is true, executing block` *)
  | ConditionFalseMessage.              (* `Condition is false, skipping block` *)

Inductive Channel : Set := error | system | info.

Inductive Event : Set :=
  | Invoked (name : string) (args : list Value)
  | Printed (m : Message) (ch : Channel)
  | Delayed (ms : nat).

Inductive Outcome (A : Type) : Type :=
  | Returned (a : A)
  | Raised (e : Exception).
Arguments Returned {A} a.
Arguments Raised {A} e.

(** A computation over the executor's state [S]. *)
Definition Exec (S A : Type) : Type := S -> Outcome A * S.

Definition ret {S A : Type} (a : A) : Exec S A := fun s => (Returned a, s).
Definition raise {S A : Type} (e : Exception) : Exec S A := fun s => (Raised e, s).

Definition andThen {S A B : Type} (m : Exec S A) (k : A -> Exec S B) : Exec S B :=
  fun s =>
    match m s with
    | (Returned a, s') => k a s'
    | (Raised e, s') => (Raised e, s')
    end.

Declare Scope exec_scope.
Delimit Scope exec_scope with exec.
Notation "x <- c ;; k" := (andThen c (fun x => k))
  (at level 61, c at next level, right associativity) : exec_scope.
Notation "c ;; k" := (andThen c (fun _ => k))
  (at level 61, right associativity) : exec_scope.

Local Open Scope exec_scope.

(** [args.map(arg => this.evaluateArgument(arg))], left to right. *)
Definition mapM {S A B : Type} (f : A -> Exec S B) : list A -> Exec S (list B) :=
  fix go (l : list A) : Exec S (list B) :=
    match l with
    | [] => ret []
    | a :: r => b <- f a ;; bs <- go r ;; ret (b :: bs)
    end.

(** [for (let i = 0; i < n; i++) body]. *)
Fixpoint times {S : Type} (n : nat) (body : Exec S unit) : Exec S unit :=
  match n with
  | 0 => ret tt
  | S k => body ;; times k body
  end.

(** A host command: evaluated arguments and host state in, a value or a
    thrown error and the host state out. *)
Definition Command (H : Type) : Type := list Value -> H -> Outcome Value * H.

(** [evaluateArgument] on an IDENTIFIER node. *)
Definition identifierValue (name : string) : Value :=
  if String.eqb name "True" || String.eqb name "true" then VBool true
  else if String.eqb name "False" || String.eqb name "false" then VBool false
  else VStr name.

(** ** [Executor] of the script parser *)

Module Executor.
Import Parser.

Section Executor.

Variable H : Type.
(** [this.commands[name]]: [None] when the lookup is falsy. *)
Variable commands : string -> option (Command H).

Record World : Type := mkWorld {
  host : H;
  trace : list Event
}.

Definition executionDelay : nat := 200.

Definition emit (e : Event) : Exec World unit :=
  fun w => (Returned tt, mkWorld (host w) (trace w ++ [e])).

(** [this.print(message, channel)]. *)
Definition print (m : Message) (ch : Channel) : Exec World unit := emit (Printed m ch).

(** [await this.delay(ms)]. *)
Definition delay (ms : nat) : Exec World unit := emit (Delayed ms).

(** [this.commands[name](...evaluatedArgs)]. *)
Definition invoke (name : string) (f : Command H) (args : list Value)
  : Exec World Value :=
  fun w =>
    let '(o, h) := f args (host w) in
    (o, mkWorld h (trace w ++ [Invoked name args])).

(** [try { m } catch (e) { handler(e) }]. *)
Definition tryCatch {A : Type} (m : Exec World A) (handler : Exception -> Exec World A)
  : Exec World A :=
  fun w =>
    match m w with
    | (Returned a, w') => (Returned a, w')
    | (Raised e, w') => handler e w'
    end.

Definition callSyncWith (name : string) (evaluatedArgs : Exec World (list Value))
  : Exec World Value :=
  match commands name with
  | None => ret VUndefined
  | Some f => args <- evaluatedArgs ;; invoke name f args
  end.

(** [evaluateArgument(arg)]. *)
Fixpoint evaluateArgument (arg : Node) : Exec World Value :=
  match arg with
  | Number v => ret (VNum v)
  | Str v => ret (VStr v)
  | Identifier name => ret (identifierValue name)
  | Call name args _ => callSyncWith name (mapM evaluateArgument args)
  | _ => ret VUndefined
  end.

(** [executeCallSync(node)] on a CALL node. *)
Definition executeCallSync (name : string) (args : list Node) : Exec World Value :=
  callSyncWith name (mapM evaluateArgument args).

(** [executeCall(node)]. *)
Definition executeCall (name : string) (args : list Node) : Exec World Value :=
  match commands name with
  | None =>
      print (NameErrorMessage name) error ;;
      print HelpHintMessage system ;;
      ret VUndefined
  | Some f =>
      evaluatedArgs <- mapM evaluateArgument args ;;
      tryCatch (invoke name f evaluatedArgs)
               (fun e => print (ErrorMessage e) error ;; ret VUndefined)
  end.

(** [for (const stmt of body) { await executeStatement(stmt); await delay }]. *)
Definition eachDelayed (exec : Node -> Exec World Value) : list Node -> Exec World unit :=
  fix go (l : list Node) : Exec World unit :=
    match l with
    | [] => ret tt
    | stmt :: r => exec stmt ;; delay executionDelay ;; go r
    end.

(** The condition of [executeIf]: a CALL runs synchronously, an IDENTIFIER
    is evaluated, anything else leaves [conditionResult] undefined. *)
Definition conditionResult (condition : Node) : Exec World Value :=
  match condition with
  | Call name args _ => executeCallSync name args
  | Identifier _ => evaluateArgument condition
  | _ => ret VUndefined
  end.

(** [executeRepeat(node)] and [executeIf(node)], over the [executeStatement]
    they call back into. *)
Definition executeRepeatWith (exec : Node -> Exec World Value)
    (count : Z) (body : list Node) : Exec World Value :=
  print (RepeatingMessage count) info ;;
  times (Z.to_nat count) (eachDelayed exec body) ;;
  ret VUndefined.

Definition executeIfWith (exec : Node -> Exec World Value)
    (condition : Node) (body : list Node) : Exec World Value :=
  r <- conditionResult condition ;;
  (if truthy r then
     print ConditionTrueMessage info ;;
     eachDelayed exec body
   else print ConditionFalseMessage info) ;;
  ret VUndefined.

(** [executeStatement(node)]. *)
Fixpoint executeStatement (node : Node) : Exec World Value :=
  match node with
  | Call name args _ => executeCall name args
  | Sequence statements =>
      eachDelayed executeStatement statements ;; ret VUndefined
  | Repeat count body _ => executeRepeatWith executeStatement count body
  | If condition body _ => executeIfWith executeStatement condition body
  | _ => raise UnknownNodeType
  end.

Definition executeRepeat : Z -> list Node -> Exec World Value :=
  executeRepeatWith executeStatement.

Definition executeIf : Node -> list Node -> Exec World Value :=
  executeIfWith executeStatement.

(** [for (const stmt of ast.body) await this.executeStatement(stmt)]. *)
Fixpoint executeBody (body : list Node) : Exec World unit :=
  match body with
  | [] => ret tt
  | stmt :: r => executeStatement stmt ;; executeBody r
  end.

(** [execute(ast)]. *)
Definition execute (ast : Node) : Exec World unit :=
  match ast with
  | Program body => executeBody body
  | _ => ret tt
  end.

End Executor.

Arguments mkWorld {H} host trace.
Arguments host {H} w.
Arguments trace {H} w.

End Executor.

(** ** [MiniExecutor] of the loop mini-game *)

Module MiniExecutor.
Import MiniParser.

Section Executor.

Variable H : Type.
(** [this.commands[name]]: [None] when the lookup is falsy. *)
Variable commands : string -> option (Command H).
Variable maxIterations : Z.

Record World : Type := mkWorld {
  host : H;
  trace : list Event;
  stopped : bool
}.

(** [reset()] and [stop()]. *)
Definition reset (w : World) : World := mkWorld (host w) (trace w) false.
Definition stop (w : World) : World := mkWorld (host w) (trace w) true.

(** [this.commands[name](...evaluatedArgs)]. *)
Definition invoke (name : string) (f : Command H) (args : list Value)
  : Exec World Value :=
  fun w =>
    let '(o, h) := f args (host w) in
    (o, mkWorld h (trace w ++ [Invoked name args]) (stopped w)).

Definition callWith (name : string) (evaluatedArgs : Exec World (list Value))
  : Exec World Value :=
  match commands name with
  | None => raise (UnknownCommand name)
  | Some f => args <- evaluatedArgs ;; invoke name f args
  end.

(** [evaluateArgument(arg)]. *)
Fixpoint evaluateArgument (arg : Node) : Exec World Value :=
  match arg with
  | Number v => ret (VNum v)
  | Identifier name => ret (identifierValue name)
  | Call name args _ => callWith name (mapM evaluateArgument args)
  | _ => ret VUndefined
  end.

(** [executeCallSync(node)] on a CALL node. *)
Definition executeCallSync (name : string) (args : list Node) : Exec World Value :=
  callWith name (mapM evaluateArgument args).

(** [executeCall(node)]: the same steps, awaited. *)
Definition executeCall (name : string) (args : list Node) : Exec World Value :=
  callWith name (mapM evaluateArgument args).

(** [evaluateCondition(condition)]. *)
Definition evaluateCondition (condition : Node) : Exec World Value :=
  match condition with
  | Call name args _ => executeCallSync name args
  | Identifier _ => evaluateArgument condition
  | _ => ret (VBool false)
  end.

(** [if (this.stopped) break;] in front of a loop body. *)
Definition unlessStopped {A : Type} (onStop : A) (m : Exec World A) : Exec World A :=
  fun w => if stopped w then (Returned onStop, w) else m w.

(** [for (const stmt of body) { if (this.stopped) break;
    await this.executeStatement(stmt); }]. *)
Definition each (exec : Node -> Exec World Value) : list Node -> Exec World unit :=
  fix go (l : list Node) : Exec World unit :=
    match l with
    | [] => ret tt
    | stmt :: r => unlessStopped tt (exec stmt ;; go r)
    end.

(** [for (let i = 0; i < count; i++) { if (this.stopped) break; body }]. *)
Fixpoint timesUnlessStopped (n : nat) (body : Exec World unit) : Exec World unit :=
  match n with
  | 0 => ret tt
  | S k => unlessStopped tt (body ;; timesUnlessStopped k body)
  end.

(** [executeForLoop(node)]; [i < count] holds for [ceil(count)] values of
    [i]. *)
Definition executeForLoopWith (exec : Node -> Exec World Value)
    (count : Q) (body : list Node) : Exec World Value :=
  timesUnlessStopped (Z.to_nat (Qceiling count)) (each exec body) ;;
  ret VUndefined.

(** The [while] of [executeWhileLoop], returning [iterations] at its exit.
    [budget] is the structural bound of the model: the loop starts with
    [iterations = 0] and [budget = maxIterations], so the test
    [iterations < maxIterations] fails before the budget does. *)
Fixpoint whileIterations (evalCondition : Exec World Value) (runBody : Exec World unit)
    (budget iterations : nat) : Exec World nat :=
  c <- evalCondition ;;
  if truthy c && (Z.of_nat iterations <? maxIterations)%Z then
    unlessStopped iterations
      match budget with
      | 0 => ret iterations
      | S b => runBody ;; whileIterations evalCondition runBody b (S iterations)
      end
  else ret iterations.

(** [executeWhileLoop(node)]. *)
Definition executeWhileLoopWith (exec : Node -> Exec World Value)
    (condition : Node) (body : list Node) : Exec World Value :=
  iterations <- whileIterations (evaluateCondition condition) (each exec body)
                  (Z.to_nat maxIterations) 0 ;;
  if (maxIterations <=? Z.of_nat iterations)%Z then raise (LoopExceeded maxIterations)
  else ret VUndefined.

(** The [for (const elifClause of elifClauses)] of [executeIfStatement] and
    the [if (elseBody)] after it. *)
Definition elifOrElse (exec : Node -> Exec World Value) (elseBody : option (list Node))
  : list (Node * list Node) -> Exec World unit :=
  fix go (clauses : list (Node * list Node)) : Exec World unit :=
    match clauses with
    | [] =>
        match elseBody with
        | Some b => each exec b
        | None => ret tt
        end
    | (elifCondition, elifBody) :: r =>
        c <- evaluateCondition elifCondition ;;
        if truthy c then each exec elifBody else go r
    end.

(** [executeIfStatement(node)]. *)
Definition executeIfStatementWith (exec : Node -> Exec World Value)
    (condition : Node) (body : list Node)
    (elifClauses : list (Node * list Node)) (elseBody : option (list Node))
  : Exec World Value :=
  c <- evaluateCondition condition ;;
  (if truthy c then each exec body
   else elifOrElse exec elseBody elifClauses) ;;
  ret VUndefined.

(** [executeStatement(node)]. *)
Fixpoint executeStatement (node : Node) : Exec World Value :=
  unlessStopped VUndefined
    match node with
    | Call name args _ => executeCall name args
    | ForLoop _ count body _ => executeForLoopWith executeStatement count body
    | WhileLoop condition body _ =>
        executeWhileLoopWith executeStatement condition body
    | IfStatement condition body elifClauses elseBody _ =>
        executeIfStatementWith executeStatement condition body elifClauses elseBody
    | _ => raise UnknownNodeType
    end.

Definition executeForLoop : Q -> list Node -> Exec World Value :=
  executeForLoopWith executeStatement.

Definition executeWhileLoop : Node -> list Node -> Exec World Value :=
  executeWhileLoopWith executeStatement.

Definition executeIfStatement
  : Node -> list Node -> list (Node * list Node) -> option (list Node)
    -> Exec World Value :=
  executeIfStatementWith executeStatement.

(** [execute(ast)]. *)
Definition execute (ast : Node) : Exec World unit :=
  fun w =>
    match ast with
    | Program body => each executeStatement body (reset w)
    | _ => (Returned tt, reset w)
    end.

End Executor.

Arguments mkWorld {H} host trace stopped.
Arguments host {H} w.
Arguments trace {H} w.
Arguments stopped {H} w.
Arguments reset {H} w.
Arguments stop {H} w.

End MiniExecutor.

(** ** Command tables written as object literals

    [runLoopMiniGame] hands [MiniExecutor] an object literal as its command
    table.  The lookup [this.commands[name]] then finds the own properties
    of the literal and, for every other name, what the literal inherits from
    [Object.prototype]; [this.commands[name](...args)] calls an inherited
    function with the table as [this].

    Objects are opaque in the model: [VObject] and [VFunction] carry no
    identity; as a property key an object or a number names no own property
    (the tables here name their properties by identifiers); and the accessor
    [__defineGetter__] or [__defineSetter__] would install when given a
    function is not recorded (the table is not mutable here). *)

Module ObjectLiteral.

Section Literal.

Variable H : Type.
(** The own properties of the literal. *)
Variable own : string -> option (Command H).

Definition hasOwn (key : string) : bool :=
  match own key with Some _ => true | None => false end.

(** Whether [ToPropertyKey(v)] names an own property. *)
Definition namesOwn (v : Value) : bool :=
  match v with
  | VStr s => hasOwn s
  | VUndefined => hasOwn "undefined"
  | VBool true => hasOwn "true"
  | VBool false => hasOwn "false"
  | VNum _ | VObject | VFunction => false
  end.

Definition firstOf (args : list Value) : Value := nth 0 args VUndefined.
Definition secondOf (args : list Value) : Value := nth 1 args VUndefined.

(** A function of [Object.prototype] that leaves the host as it is. *)
Definition builtin (f : list Value -> Outcome Value) : Command H :=
  fun args h => (f args, h).

(** [Object(value)]: a function is returned as it is, anything else as an
    object. *)
Definition toObject (v : Value) : Value :=
  match v with VFunction => VFunction | _ => VObject end.

(** [__lookupGetter__(key)] and [__lookupSetter__(key)]: of all the table
    has or inherits only [Object.prototype.__proto__] is an accessor. *)
Definition accessorOf (v : Value) : Value :=
  match v with
  | VStr s => if String.eqb s "__proto__" && negb (hasOwn s) then VFunction else VUndefined
  | _ => VUndefined
  end.

(** [__defineGetter__(key, fn)] and [__defineSetter__(key, fn)]. *)
Definition defineAccessor (args : list Value) : Outcome Value :=
  match secondOf args with
  | VFunction => Returned VUndefined
  | _ => Raised EngineTypeError
  end.

(** What the literal inherits from [Object.prototype]. *)
Definition inherited (name : string) : option (Command H) :=
  if String.eqb name "constructor" then
    Some (builtin (fun args => Returned (toObject (firstOf args))))
  else if String.eqb name "toString" then
    Some (builtin (fun _ => Returned (VStr "[object Object]")))
  else if String.eqb name "toLocaleString" then
    (* [this.toString()] *)
    Some (match own "toString" with
          | Some f => fun _ => f []
          | None => builtin (fun _ => Returned (VStr "[object Object]"))
          end)
  else if String.eqb name "valueOf" then
    Some (builtin (fun _ => Returned VObject))
  else if String.eqb name "hasOwnProperty" then
    Some (builtin (fun args => Returned (VBool (namesOwn (firstOf args)))))
  else if String.eqb name "propertyIsEnumerable" then
    Some (builtin (fun args => Returned (VBool (namesOwn (firstOf args)))))
  else if String.eqb name "isPrototypeOf" then
    Some (builtin (fun _ => Returned (VBool false)))
  else if String.eqb name "__lookupGetter__" then
    Some (builtin (fun args => Returned (accessorOf (firstOf args))))
  else if String.eqb name "__lookupSetter__" then
    Some (builtin (fun args => Returned (accessorOf (firstOf args))))
  else if String.eqb name "__defineGetter__" then Some (builtin defineAccessor)
  else if String.eqb name "__defineSetter__" then Some (builtin defineAccessor)
  else if String.eqb name "__proto__" then
    (* [Object.prototype] itself: truthy, and no function *)
    Some (builtin (fun _ => Raised EngineTypeError))
  else None.

(** [table[name]]: own properties first. *)
Definition lookup (name : string) : option (Command H) :=
  match own name with
  | Some f => Some f
  | None => inherited name
  end.

End Literal.

End ObjectLiteral.

(** ** [SnakePuzzle] and the command table of [runLoopMiniGame] *)

Module SnakePuzzle.

Local Open Scope Z_scope.

(** The fields are cell counts and cell coordinates. *)
Record t : Set := mk {
  gridSize : Z;
  snakeX : Z;
  snakeY : Z;
  goalX : Z;
  goalY : Z;
  moves : Z;
  maxMoves : Z
}.

(** [new SnakePuzzle(gridSize)]. *)
Definition new (gridSize : Z) : t :=
  mk gridSize 0 0 (gridSize - 1) (gridSize - 1) 0 50.

(** [reset()]. *)
Definition reset (p : t) : t :=
  mk (gridSize p) 0 0 (goalX p) (goalY p) 0 (maxMoves p).

Definition isAtGoal (p : t) : bool :=
  (snakeX p =? goalX p) && (snakeY p =? goalY p).

Definition canMoveUp (p : t) : bool := 0 <? snakeY p.
Definition canMoveDown (p : t) : bool := snakeY p <? gridSize p - 1.
Definition canMoveLeft (p : t) : bool := 0 <? snakeX p.
Definition canMoveRight (p : t) : bool := snakeX p <? gridSize p - 1.

Definition setX (p : t) (x : Z) : t :=
  mk (gridSize p) x (snakeY p) (goalX p) (goalY p) (moves p + 1) (maxMoves p).

Definition setY (p : t) (y : Z) : t :=
  mk (gridSize p) (snakeX p) y (goalX p) (goalY p) (moves p + 1) (maxMoves p).

(** [moveUp()] and its siblings: the value returned or the [Error] thrown,
    and the puzzle afterwards. *)
Definition moveUp (p : t) : Outcome bool * t :=
  if canMoveUp p then (Returned true, setY p (snakeY p - 1))
  else (Raised (HostError "Cannot move up: already at the top edge!"), p).

Definition moveDown (p : t) : Outcome bool * t :=
  if canMoveDown p then (Returned true, setY p (snakeY p + 1))
  else (Raised (HostError "Cannot move down: already at the bottom edge!"), p).

Definition moveLeft (p : t) : Outcome bool * t :=
  if canMoveLeft p then (Returned true, setX p (snakeX p - 1))
  else (Raised (HostError "Cannot move left: already at the left edge!"), p).

Definition moveRight (p : t) : Outcome bool * t :=
  if canMoveRight p then (Returned true, setX p (snakeX p + 1))
  else (Raised (HostError "Cannot move right: already at the right edge!"), p).

(** The wrappers of [runLoopMiniGame]:
    [const result = puzzle.moveUp(); if (!result) throw ...; return result]. *)
Definition moveCommand (move : t -> Outcome bool * t) (failure : string) : Command t :=
  fun _ p =>
    match move p with
    | (Returned true, p') => (Returned (VBool true), p')
    | (Returned false, p') => (Raised (HostError failure), p')
    | (Raised e, p') => (Raised e, p')
    end.

Definition query (q : t -> bool) : Command t :=
  fun _ p => (Returned (VBool (q p)), p).

(** The properties of the [commands] object of [runLoopMiniGame]. *)
Definition own (name : string) : option (Command t) :=
  if String.eqb name "move_up" then Some (moveCommand moveUp "Cannot move up!")
  else if String.eqb name "move_down" then Some (moveCommand moveDown "Cannot move down!")
  else if String.eqb name "move_left" then Some (moveCommand moveLeft "Cannot move left!")
  else if String.eqb name "move_right" then Some (moveCommand moveRight "Cannot move right!")
  else if String.eqb name "at_goal" then Some (query isAtGoal)
  else if String.eqb name "can_move_up" then Some (query canMoveUp)
  else if String.eqb name "can_move_down" then Some (query canMoveDown)
  else if String.eqb name "can_move_left" then Some (query canMoveLeft)
  else if String.eqb name "can_move_right" then Some (query canMoveRight)
  else None.

(** [this.commands[name]] on that object. *)
Definition commands : string -> option (Command t) := ObjectLiteral.lookup t own.

End SnakePuzzle.

(** ** Vocabulary of the properties *)

(** Source text given line by line, joined with a line feed. *)
Fixpoint joinLines (ls : list string) : string :=
  match ls with
  | [] => EmptyString
  | [l] => l
  | l :: r => (l ++ String nl (joinLines r))%string
  end.

(** How often the executor invoked the command [name]. *)
Definition isInvocationOf (name : string) (e : Event) : bool :=
  match e with Invoked n _ => String.eqb n name | _ => false end.

Definition invocations (name : string) (tr : list Event) : nat :=
  List.length (filter (isInvocationOf name) tr).

(** The host after a call of [f]. *)
Definition hostAfter {H : Type} (f : Command H) (args : list Value) (h : H) : H :=
  snd (f args h).

(** How a run ends whose last step ended in [o]: the value is dropped, an
    error is passed on. *)
Definition completion {A : Type} (o : Outcome A) : Outcome unit :=
  match o with
  | Returned _ => Returned tt
  | Raised e => Raised e
  end.

(** What [Executor.executeCall] logs for a call of [f] from the host [h]:
    the invocation, and the error line when [f] throws. *)
Definition callLog {H : Type} (name : string) (f : Command H) (args : list Value) (h : H)
  : list Event :=
  Invoked name args ::
  match fst (f args h) with
  | Returned _ => []
  | Raised e => [Printed (ErrorMessage e) error]
  end.

(** The log without the printed messages: invocations and delays. *)
Definition isPrinted (e : Event) : bool :=
  match e with Printed _ _ => true | _ => false end.

Definition withoutPrints (tr : list Event) : list Event :=
  filter (fun e => negb (isPrinted e)) tr.

(** Counting tokens of one kind. *)
Definition countType (ty : TokenType) (toks : list Token) : nat :=
  List.length (filter (fun t => TokenType_eqb (type t) ty) toks).

(** No prefix of the token list closes more blocks than it opened. *)
Definition wellNested (toks : list Token) : Prop :=
  forall n, countType DEDENT (firstn n toks) <= countType INDENT (firstn n toks).

(** The kind of the last token, if any. *)
Definition lastType (toks : list Token) : option TokenType :=
  option_map type (last (map Some toks) None).

(** Truncation toward zero, in the words of the specification. *)
Definition truncate (q : Q) : Z :=
  if Qle_bool 0 q then Qfloor q else Qceiling q.

(** The scripts the properties name. *)
Definition repeatScript : string := joinLines ["repeat(3):"; "    move_right()"]%string.
Definition whileScript : string := joinLines ["while can_move_right():"; "    move_right()"]%string.
Definition ifElseScript : string :=
  joinLines ["if at_goal():"; "    win()"; "else:"; "    lose()"]%string.

(** *** SnakePuzzle *)

Definition inBounds (p : SnakePuzzle.t) : Prop :=
  (0 <= SnakePuzzle.snakeX p <= SnakePuzzle.gridSize p - 1)%Z /\
  (0 <= SnakePuzzle.snakeY p <= SnakePuzzle.gridSize p - 1)%Z.

(** The snake moved by exactly [(dx, dy)], one more move was counted, and
    nothing else changed. *)
Definition movedBy (dx dy : Z) (p p' : SnakePuzzle.t) : Prop :=
  p' = SnakePuzzle.mk (SnakePuzzle.gridSize p)
         (SnakePuzzle.snakeX p + dx) (SnakePuzzle.snakeY p + dy)
         (SnakePuzzle.goalX p) (SnakePuzzle.goalY p)
         (SnakePuzzle.moves p + 1) (SnakePuzzle.maxMoves p).

(** Either the move happened as a whole, or an error was thrown and the
    puzzle is as before. *)
Definition atomicMove (dx dy : Z) (p : SnakePuzzle.t)
    (r : Outcome bool * SnakePuzzle.t) : Prop :=
  (fst r = Returned true /\ movedBy dx dy p (snd r)) \/
  ((exists message, fst r = Raised (HostError message)) /\ snd r = p).


(** *** Programs and command tables of the examples *)

Local Open Scope string_scope.
Local Open Scope list_scope.

Definition repeatNode : Parser.Node :=
  Parser.Repeat 3 [Parser.Call "move_right" [] 2] 1.

(** A command table that counts the calls of [move_right]:
    [{ move_right: () => { calls++ } }]. *)
Definition countingOwn (name : string) : option (Command nat) :=
  if String.eqb name "move_right" then Some (fun _ n => (Returned VUndefined, S n))
  else None.

Definition counting : string -> option (Command nat) :=
  ObjectLiteral.lookup nat countingOwn.

Definition whileProgram : MiniParser.Node :=
  MiniParser.Program
    [MiniParser.WhileLoop (MiniParser.Call "can_move_right" [] 1)
       [MiniParser.Call "move_right" [] 2] 1].

(** A table in which [can_move_right] is always true and [move_right]
    counts its calls. *)
Definition unboundedOwn (name : string) : option (Command nat) :=
  if String.eqb name "can_move_right" then Some (fun _ n => (Returned (VBool true), n))
  else if String.eqb name "move_right" then Some (fun _ n => (Returned VUndefined, S n))
  else None.

Definition unbounded : string -> option (Command nat) :=
  ObjectLiteral.lookup nat unboundedOwn.

(** The mini-game on a grid of 101 cells, with the default cap of 100. *)
Definition wideGrid : MiniExecutor.World SnakePuzzle.t :=
  MiniExecutor.mkWorld (SnakePuzzle.new 101) [] false.

Definition wideRun : Outcome unit * MiniExecutor.World SnakePuzzle.t :=
  MiniExecutor.execute SnakePuzzle.t SnakePuzzle.commands 100 whileProgram wideGrid.

Definition flyScript : string := joinLines ["fly()"; "move_down()"]%string.

Definition flyProgram : MiniParser.Node :=
  MiniParser.Program [MiniParser.Call "fly" [] 1; MiniParser.Call "move_down" [] 2].

(** The mini-game as [runLoopMiniGame] starts it: a grid of 5, nothing
    logged. *)
Definition miniStart : MiniExecutor.World SnakePuzzle.t :=
  MiniExecutor.mkWorld (SnakePuzzle.new 5) [] false.

(** [Executor]'s report of an unknown command: the NameError line and the
    hint, in that order, the host untouched. *)
Definition reported {H : Type} (name : string) (w : Executor.World H) : Executor.World H :=
  Executor.mkWorld (Executor.host w)
    (Executor.trace w ++ [Printed (NameErrorMessage name) error;
                          Printed HelpHintMessage system]).

Definition ifElseProgram : MiniParser.Node :=
  MiniParser.Program
    [MiniParser.IfStatement (MiniParser.Call "at_goal" [] 1)
       [MiniParser.Call "win" [] 2] []
       (Some [MiniParser.Call "lose" [] 4]) 1].

(** A table in which the goal is never reached. *)
Definition neverAtGoalOwn (name : string) : option (Command unit) :=
  if String.eqb name "at_goal" then Some (fun _ h => (Returned (VBool false), h))
  else if String.eqb name "win" then Some (fun _ h => (Returned VUndefined, h))
  else if String.eqb name "lose" then Some (fun _ h => (Returned VUndefined, h))
  else None.

Definition neverAtGoal : string -> option (Command unit) :=
  ObjectLiteral.lookup unit neverAtGoalOwn.

(** A table whose conditions [yes] and [no] answer true and false, in which
    the goal is never reached, and whose other commands write their names
    into the host. *)
Definition branchingOwn (name : string) : option (Command (list string)) :=
  if String.eqb name "yes" then Some (fun _ h => (Returned (VBool true), h))
  else if String.eqb name "no" then Some (fun _ h => (Returned (VBool false), h))
  else if String.eqb name "at_goal" then Some (fun _ h => (Returned (VBool false), h))
  else if String.eqb name "first" || String.eqb name "second" || String.eqb name "third"
          || String.eqb name "win" || String.eqb name "lose"
  then Some (fun _ h => (Returned VUndefined, h ++ [name]))
  else None.

Definition branching : string -> option (Command (list string)) :=
  ObjectLiteral.lookup (list string) branchingOwn.

(** *** The IF statement in the words of the specification *)

Section IfSpec.

Variable H : Type.
Variable commands : string -> option (Command H).
Variable maxIterations : Z.

Local Open Scope exec_scope.

(** "the elif conditions are evaluated in declared order and only the body
    of the first truthy one runs". *)
Fixpoint firstTruthyElif (clauses : list (MiniParser.Node * list MiniParser.Node))
  : Exec (MiniExecutor.World H) (option (list MiniParser.Node)) :=
  match clauses with
  | [] => ret None
  | (c, b) :: r =>
      v <- MiniExecutor.evaluateCondition H commands c ;;
      if truthy v then ret (Some b) else firstTruthyElif r
  end.

(** The one body the statement selects, if any: the primary body when the
    primary condition is truthy, else the first truthy elif's, else the else
    body when there is one. *)
Definition chosenBranch (condition : MiniParser.Node) (body : list MiniParser.Node)
    (elifClauses : list (MiniParser.Node * list MiniParser.Node))
    (elseBody : option (list MiniParser.Node))
  : Exec (MiniExecutor.World H) (option (list MiniParser.Node)) :=
  v <- MiniExecutor.evaluateCondition H commands condition ;;
  if truthy v then ret (Some body)
  else
    e <- firstTruthyElif elifClauses ;;
    match e with
    | Some b => ret (Some b)
    | None => ret elseBody
    end.

(** Running the selected body and nothing else. *)
Definition runBranch (branch : option (list MiniParser.Node))
  : Exec (MiniExecutor.World H) Value :=
  match branch with
  | Some b =>
      MiniExecutor.each H (MiniExecutor.executeStatement H commands maxIterations) b ;;
      ret VUndefined
  | None => ret VUndefined
  end.

(** The elif clauses all declined, in declared order: each condition is a
    call [name()] of a command of the table, made on the host the call
    before left, and returned a falsy value.  The second world is the one
    after those calls. *)
Inductive declined
  : list (MiniParser.Node * list MiniParser.Node)
    -> MiniExecutor.World H -> MiniExecutor.World H -> Prop :=
  | declined_none (w : MiniExecutor.World H) : declined [] w w
  | declined_next (name : string) (ln : nat) (body : list MiniParser.Node)
      (rest : list (MiniParser.Node * list MiniParser.Node))
      (f : Command H) (v : Value) (h' : H) (w w' : MiniExecutor.World H) :
      commands name = Some f ->
      f [] (MiniExecutor.host w) = (Returned v, h') ->
      truthy v = false ->
      declined rest
        (MiniExecutor.mkWorld h' (MiniExecutor.trace w ++ [Invoked name []])
           (MiniExecutor.stopped w)) w' ->
      declined ((MiniParser.Call name [] ln, body) :: rest) w w'.

End IfSpec.

(** A script whose only line is indented. *)
Definition indentedScript : string := "  a()"%string.

(** The tokens of a source, for either lexer. *)
Definition tokensOf (r : list Token + nat) : list Token :=
  match r with inl toks => toks | inr _ => [] end.

(** An [if] whose next line is not indented, and one inside a block whose
    next line is dedented. *)
Definition ifSameLevelScript : string := joinLines ["if cond():"; "foo()"]%string.
Definition ifDedentedScript : string :=
  joinLines ["repeat(2):"; "    if cond():"; "foo()"]%string.
Definition forIfDedentedScript : string :=
  joinLines ["for i in range(2):"; "    if cond():"; "foo()"]%string.

(** The tokens both lexers make of [indentedScript]. *)
Definition indentedTokens : list Token :=
  Eval vm_compute in tokensOf (Lexer.tokenize indentedScript).

(** The tokens both lexers make of [ifSameLevelScript]. *)
Definition ifSameLevelTokens : list Token :=
  Eval vm_compute in tokensOf (Lexer.tokenize ifSameLevelScript).

(** A repeat with a negative fractional count, and a for with a fractional
    bound. *)
Definition negativeRepeatScript : string := joinLines ["repeat(-2.5):"; "    a()"]%string.
Definition positiveRepeatScript : string := joinLines ["repeat(3.9):"; "    a()"]%string.
Definition fractionalForScript : string := joinLines ["for i in range(3.9):"; "    a()"]%string.

Definition negativeRepeatTokens : list Token :=
  Eval vm_compute in tokensOf (Lexer.tokenize negativeRepeatScript).

Definition positiveRepeatTokens : list Token :=
  Eval vm_compute in tokensOf (Lexer.tokenize positiveRepeatScript).

(** *** Token lists *)

(** The link between the indentation stack and the tokens so far. *)
Definition balanced (st : LexState) : Prop :=
  wellNested (tokens st) /\
  countType INDENT (tokens st)
    = countType DEDENT (tokens st) + (List.length (indentStack st) - 1) /\
  1 <= List.length (indentStack st).

(** What holds of the list [flush] returns. *)
Definition structured (toks : list Token) : Prop :=
  toks <> [] /\
  lastType toks = Some EOF /\
  countType INDENT toks = countType DEDENT toks /\
  wellNested toks.

(** *** Sequences of moves on the puzzle *)

Inductive Direction : Set := Up | Down | Left | Right.

Definition move (d : Direction) (p : SnakePuzzle.t) : Outcome bool * SnakePuzzle.t :=
  match d with
  | Up => SnakePuzzle.moveUp p
  | Down => SnakePuzzle.moveDown p
  | Left => SnakePuzzle.moveLeft p
  | Right => SnakePuzzle.moveRight p
  end.

(** The puzzle after the given moves were attempted in order, a refused
    move (one that threw) leaving it as it was. *)
Fixpoint afterMoves (ds : list Direction) (p : SnakePuzzle.t) : SnakePuzzle.t :=
  match ds with
  | [] => p
  | d :: r => afterMoves r (snd (move d p))
  end.

(** The example solution [runLoopMiniGame] prints for a grid of [n]:
    [for i in range(n-1): move_right()], then the same with [move_down()]. *)
Definition solution (n : Z) : MiniParser.Node :=
  MiniParser.Program
    [MiniParser.ForLoop "i" (inject_Z (n - 1)) [MiniParser.Call "move_right" [] 2] 1;
     MiniParser.ForLoop "i" (inject_Z (n - 1)) [MiniParser.Call "move_down" [] 4] 3].

(** The example of the prompt for a grid of 5, without the margin the prompt
    puts in front of every line. *)
Definition solutionScript5 : string :=
  joinLines ["for i in range(4):"; "    move_right()";
             "for i in range(4):"; "    move_down()"]%string.

(** The puzzle [p] two moves later, at the same place. *)
Definition twoMovesLater (p : SnakePuzzle.t) : SnakePuzzle.t :=
  SnakePuzzle.mk (SnakePuzzle.gridSize p) (SnakePuzzle.snakeX p) (SnakePuzzle.snakeY p)
    (SnakePuzzle.goalX p) (SnakePuzzle.goalY p) (SnakePuzzle.moves p + 2)%Z
    (SnakePuzzle.maxMoves p).

(** What every puzzle reached from [new n] satisfies: the grid and the goal
    are those of [new n], the snake is inside the grid, and it is no further
    from the start than the moves counted. *)
Definition reachable (n : Z) (p : SnakePuzzle.t) : Prop :=
  SnakePuzzle.gridSize p = n /\
  SnakePuzzle.goalX p = (n - 1)%Z /\ SnakePuzzle.goalY p = (n - 1)%Z /\
  SnakePuzzle.maxMoves p = 50%Z /\
  inBounds p /\
  (SnakePuzzle.snakeX p + SnakePuzzle.snakeY p <= SnakePuzzle.moves p)%Z.

(** *** Scripts whose failures [Executor] contains *)

Section Contained.

(** The commands that may be trusted not to throw. *)
Variable quiet : string -> bool.

(** A node in argument or condition position whose evaluation only calls
    quiet commands. *)
Fixpoint syncOk (n : Parser.Node) : bool :=
  match n with
  | Parser.Call name args _ => quiet name && forallb syncOk args
  | _ => true
  end.

(** A statement in which every command called outside statement position is
    quiet.  The commands called at statement position are not restricted. *)
Fixpoint contained (n : Parser.Node) : bool :=
  match n with
  | Parser.Call _ args _ => forallb syncOk args
  | Parser.Sequence statements => forallb contained statements
  | Parser.Repeat _ body _ => forallb contained body
  | Parser.If condition body _ => syncOk condition && forallb contained body
  | _ => false
  end.

End Contained.

(** A computation that returns from every state. *)
Definition returns {S A : Type} (m : Exec S A) : Prop :=
  forall s, exists a s', m s = (Returned a, s').

(** A table with a command that always throws and a query that does not,
    and a script that trips, calls an unknown command, and trips again
    inside an [if]. *)
Definition clumsy (name : string) : option (Command unit) :=
  if String.eqb name "trip" then Some (fun _ h => (Raised (HostError "tripped"), h))
  else if String.eqb name "ready" then Some (fun _ h => (Returned (VBool true), h))
  else None.

Definition clumsyBody : list Parser.Node :=
  [Parser.Call "trip" [] 1; Parser.Call "fly" [] 2;
   Parser.If (Parser.Call "ready" [] 3) [Parser.Call "trip" [] 4] 3].

(** *** Tokens that start no statement *)

(** The kinds that neither start a statement in one of the parsers nor close
    a block. *)
Definition inert (ty : TokenType) : bool :=
  match ty with
  | IDENTIFIER | REPEAT | IF | FOR | WHILE | DEDENT => false
  | _ => true
  end.

Definition sequenceScript : string := "a(), b(1), c()"%string.

Definition sequenceTokens : list Token :=
  Eval vm_compute in tokensOf (Lexer.tokenize sequenceScript).

(** Block openers followed by a line at the same level. *)
Definition repeatNoBlockTokens : list Token :=
  Eval vm_compute in
    tokensOf (Lexer.tokenize (joinLines ["repeat(2):"; "a()"]%string)).
Definition forNoBlockTokens : list Token :=
  Eval vm_compute in
    tokensOf (MiniLexer.tokenize (joinLines ["for i in range(2):"; "a()"]%string)).
Definition whileNoBlockTokens : list Token :=
  Eval vm_compute in
    tokensOf (MiniLexer.tokenize (joinLines ["while c():"; "a()"]%string)).

(** Numbers, strings and punctuation only. *)
Definition inertTokens : list Token :=
  Eval vm_compute in tokensOf (Lexer.tokenize "3 + (4, 'x') : 5"%string).

(** *** More on token lists *)

(** The kinds the literal readers of the lexers can give a token. *)
Definition literalKind (ty : TokenType) : bool :=
  match ty with
  | NEWLINE | INDENT | DEDENT | EOF | LPAREN | RPAREN | COLON | COMMA => false
  | _ => true
  end.

(** A token list after which a line starts: empty, or ending in NEWLINE. *)
Definition endsLine (toks : list Token) : Prop :=
  toks = [] \/ lastType toks = Some NEWLINE.

(** Every INDENT is the first token or directly follows a NEWLINE. *)
Definition indentsStartLines (toks : list Token) : Prop :=
  forall pre t post, toks = pre ++ t :: post -> type t = INDENT -> endsLine pre.

(** What the loop of [tokenize] keeps true for that. *)
Definition lineAware (st : LexState) : Prop :=
  indentsStartLines (tokens st) /\
  (atLineStart st = true -> endsLine (tokens st)).

Definition ifElseTokens : list Token :=
  Eval vm_compute in tokensOf (MiniLexer.tokenize ifElseScript).

(** *** Sources without a statement *)

(** The source holds nothing but blanks, line feeds and comments: outside a
    comment only spaces, tabs, line feeds or the [#] that opens one; inside,
    anything up to the line feed. *)
Fixpoint onlyComments (inComment : bool) (s : list ascii) : bool :=
  match s with
  | [] => true
  | ch :: r =>
      if inComment then onlyComments (negb (ch_eq ch nl)) r
      else if isBlank ch || ch_eq ch nl then onlyComments false r
      else if ch_eq ch hash then onlyComments true r
      else false
  end.

Definition commentedScript : string :=
  joinLines ["# a script"; ""; "    # with nothing to run"; "  "]%string.

(** *** Tabs and spaces *)

(** The source with every tab replaced by four spaces. *)
Definition expandTabs (s : list ascii) : list ascii :=
  flat_map (fun ch => if ch_eq ch tab then [space; space; space; space] else [ch]) s.

(** A token without its [col], and a result of [tokenize] without them. *)
Definition withoutColumn (t : Token) : Token := mkToken (type t) (value t) (line t) 0.

Definition withoutColumns (r : list Token + nat) : list Token + nat :=
  match r with
  | inl ts => inl (map withoutColumn ts)
  | inr ln => inr ln
  end.

(** Two cursors, lexer states and turns that differ by the expansion of the
    tabs still to read and by columns only. *)
Definition sameCursor (c1 c2 : Cursor) : Prop :=
  rest c2 = expandTabs (rest c1) /\ cline c2 = cline c1.

Definition sameState (st1 st2 : LexState) : Prop :=
  sameCursor (cur st1) (cur st2) /\
  indentStack st2 = indentStack st1 /\
  map withoutColumn (tokens st2) = map withoutColumn (tokens st1) /\
  atLineStart st2 = atLineStart st1.

Definition sameStep (s1 s2 : Step) : Prop :=
  match s1, s2 with
  | Continue a, Continue b => sameState a b
  | Break a, Break b => sameState a b
  | IndentationError l1, IndentationError l2 => l2 = l1
  | _, _ => False
  end.

Definition sameLexeme (r1 r2 : option (Token * Cursor)) : Prop :=
  match r1, r2 with
  | Some (t1, c1), Some (t2, c2) => withoutColumn t2 = withoutColumn t1 /\ sameCursor c1 c2
  | None, None => True
  | _, _ => False
  end.

(** *** Columns in what the parser returns *)

(** Of all the parser produces only the message of [expect] carries a column. *)
Definition errorWithoutColumn (e : Error) : Error :=
  match e with
  | Expected errorMsg ln cl got => Expected errorMsg ln (option_map (fun _ => 0) cl) got
  | other => other
  end.

Definition mapResult {A B : Type} (g : A -> B) (r : Result A) : Result B :=
  match r with
  | Ok a => Ok (g a)
  | Throw e => Throw (errorWithoutColumn e)
  | OutOfFuel => OutOfFuel
  end.

Definition resultWithoutColumn {A : Type} (r : Result A) : Result A :=
  mapResult (fun a => a) r.

Definition parsedWithoutColumn (p : MiniParser.Parsed) : MiniParser.Parsed :=
  match p with
  | MiniParser.Parsed_ r => MiniParser.Parsed_ (resultWithoutColumn r)
  | MiniParser.IndentationErrorAt ln => MiniParser.IndentationErrorAt ln
  end.

Definition tokenWithPosition (x : Token * nat) : Token * nat :=
  (withoutColumn (fst x), snd x).

(** *** Rounds of the loop [while can_move_right(): move_right()] *)

(** One round on the host: the condition is called, then the body. *)
Definition oneRound {H : Type} (canMoveRight moveRight : Command H) (h : H) : H :=
  hostAfter moveRight [] (hostAfter canMoveRight [] h).

(** What one round adds to the log. *)
Definition roundLog : list Event :=
  [Invoked "can_move_right" []; Invoked "move_right" []].

(** The example as the prompt of [runLoopMiniGame] displays it for a grid of
    5: every line carries the two-space margin of the prompt. *)
Definition shownSolution5 : string :=
  joinLines ["  for i in range(4):"; "      move_right()";
             "  for i in range(4):"; "      move_down()"]%string.

Definition shownSolutionTokens : list Token :=
  Eval vm_compute in tokensOf (MiniLexer.tokenize shownSolution5).

(** *** Turns of [repeat] over a body of one call *)

(** The world one turn leaves: the command has run on the host, the log
    holds the invocation (with the error line when the command threw) and
    then the pacing delay. *)
Definition afterTurn {H : Type} (name : string) (f : Command H) (w : Executor.World H)
  : Executor.World H :=
  Executor.mkWorld (hostAfter f [] (Executor.host w))
    (Executor.trace w ++ callLog name f [] (Executor.host w)
       ++ [Delayed Executor.executionDelay]).

(** * Properties *)

(** ** C10: the movement operations of SnakePuzzle *)

Module SnakeFacts.
Import SnakePuzzle.
Local Open Scope Z_scope.

Lemma moveUp_atomic (p : t) : atomicMove 0 (-1) p (moveUp p).
Proof.
  unfold atomicMove, moveUp, movedBy, setY.
  destruct (canMoveUp p); simpl.
  - left. split; [reflexivity|]. f_equal; lia.
  - right. split; [eexists; reflexivity | reflexivity].
Qed.

Lemma moveDown_atomic (p : t) : atomicMove 0 1 p (moveDown p).
Proof.
  unfold atomicMove, moveDown, movedBy, setY.
  destruct (canMoveDown p); simpl.
  - left. split; [reflexivity|]. f_equal; lia.
  - right. split; [eexists; reflexivity | reflexivity].
Qed.

Lemma moveLeft_atomic (p : t) : atomicMove (-1) 0 p (moveLeft p).
Proof.
  unfold atomicMove, moveLeft, movedBy, setX.
  destruct (canMoveLeft p); simpl.
  - left. split; [reflexivity|]. f_equal; lia.
  - right. split; [eexists; reflexivity | reflexivity].
Qed.

Lemma moveRight_atomic (p : t) : atomicMove 1 0 p (moveRight p).
Proof.
  unfold atomicMove, moveRight, movedBy, setX.
  destruct (canMoveRight p); simpl.
  - left. split; [reflexivity|]. f_equal; lia.
  - right. split; [eexists; reflexivity | reflexivity].
Qed.

Ltac bounds_after can :=
  match goal with
  | |- inBounds (snd (if ?c then _ else _)) =>
      let E := fresh "E" in
      destruct c eqn:E; simpl; [| assumption];
      unfold inBounds, can in *; simpl; lia
  end.

Lemma moveUp_inBounds (p : t) : inBounds p -> inBounds (snd (moveUp p)).
Proof. intros Hb. unfold moveUp. bounds_after canMoveUp. Qed.

Lemma moveDown_inBounds (p : t) : inBounds p -> inBounds (snd (moveDown p)).
Proof. intros Hb. unfold moveDown. bounds_after canMoveDown. Qed.

Lemma moveLeft_inBounds (p : t) : inBounds p -> inBounds (snd (moveLeft p)).
Proof. intros Hb. unfold moveLeft. bounds_after canMoveLeft. Qed.

Lemma moveRight_inBounds (p : t) : inBounds p -> inBounds (snd (moveRight p)).
Proof. intros Hb. unfold moveRight. bounds_after canMoveRight. Qed.

(** C10. Each of [moveUp], [moveDown], [moveLeft], [moveRight] keeps the
    snake inside the grid ([0 <= snakeX, snakeY <= gridSize - 1]) and is
    atomic: it moves the snake one cell in its direction and counts one
    move, or it throws and leaves the puzzle as it was. *)
Theorem C10_moves_preserve_bounds_and_are_atomic (p : t) :
  inBounds p ->
  (inBounds (snd (moveUp p)) /\ atomicMove 0 (-1) p (moveUp p)) /\
  (inBounds (snd (moveDown p)) /\ atomicMove 0 1 p (moveDown p)) /\
  (inBounds (snd (moveLeft p)) /\ atomicMove (-1) 0 p (moveLeft p)) /\
  (inBounds (snd (moveRight p)) /\ atomicMove 1 0 p (moveRight p)).
Proof.
  intros Hb.
  repeat match goal with |- _ /\ _ => split end;
    auto using moveUp_inBounds, moveDown_inBounds, moveLeft_inBounds,
      moveRight_inBounds, moveUp_atomic, moveDown_atomic, moveLeft_atomic,
      moveRight_atomic.
Qed.

Lemma C10_witness :
  inBounds (new 5) /\
  (inBounds (snd (moveUp (new 5))) /\ atomicMove 0 (-1) (new 5) (moveUp (new 5))) /\
  (inBounds (snd (moveDown (new 5))) /\ atomicMove 0 1 (new 5) (moveDown (new 5))) /\
  (inBounds (snd (moveLeft (new 5))) /\ atomicMove (-1) 0 (new 5) (moveLeft (new 5))) /\
  (inBounds (snd (moveRight (new 5))) /\ atomicMove 1 0 (new 5) (moveRight (new 5))).
Proof.
  assert (Hb : inBounds (new 5)) by (unfold inBounds; simpl; lia).
  split; [exact Hb | exact (C10_moves_preserve_bounds_and_are_atomic (new 5) Hb)].
Defined.

End SnakeFacts.

(** ** Facts about logs *)

Lemma withoutPrints_app (a b : list Event) :
  withoutPrints (a ++ b) = withoutPrints a ++ withoutPrints b.
Proof. apply filter_app. Qed.

Lemma invocations_app (name : string) (a b : list Event) :
  invocations name (a ++ b) = invocations name a + invocations name b.
Proof. unfold invocations. now rewrite filter_app, length_app. Qed.

Lemma invocations_withoutPrints (name : string) (tr : list Event) :
  invocations name (withoutPrints tr) = invocations name tr.
Proof.
  unfold invocations, withoutPrints.
  induction tr as [|e tr IH]; simpl; [reflexivity|].
  destruct e; simpl; try destruct (String.eqb name0 name); simpl; auto.
Qed.

(** ** Facts about sequencing *)

Lemma andThen_assoc {S A B C : Type} (m : Exec S A) (k : A -> Exec S B)
    (k' : B -> Exec S C) (s : S) :
  andThen (andThen m k) k' s = andThen m (fun a => andThen (k a) k') s.
Proof. unfold andThen. destruct (m s) as [[a|e] s']; reflexivity. Qed.

Lemma andThen_ext {S A B : Type} (m : Exec S A) (k k' : A -> Exec S B) (s : S) :
  (forall a s', k a s' = k' a s') -> andThen m k s = andThen m k' s.
Proof. intros E. unfold andThen. destruct (m s) as [[a|e] s']; auto. Qed.

(** Enough recursion budget for a concrete parse: peel [k] units off
    [fuel], then evaluate. *)
Tactic Notation "with_fuel" ident(fuel) integer(k) :=
  do k (destruct fuel as [|fuel]; [lia|]); vm_compute; reflexivity.

(** ** C7: [repeat(3)] *)

Module RepeatFacts.
Import Parser Executor.

Lemma parse_repeatScript (fuel : nat) :
  8 <= fuel -> parseScript fuel repeatScript = Ok (Program [repeatNode]).
Proof. intros Hf. with_fuel fuel 8. Qed.

Section Run.

Variable H : Type.
Variable commands : string -> option (Command H).
Variable f : Command H.
Hypothesis move_right_defined : commands "move_right" = Some f.

(** One turn of the body: the command is run on the host and logged, its
    error printed if it throws, then the delay awaited. *)
Lemma body_turn (w : World H) :
  eachDelayed H (executeStatement H commands) [Call "move_right" [] 2] w
  = (Returned tt,
     mkWorld (hostAfter f [] (host w))
       (trace w ++ callLog "move_right" f [] (host w) ++ [Delayed executionDelay])).
Proof.
  unfold eachDelayed, executeStatement, executeCall.
  rewrite move_right_defined.
  unfold andThen, tryCatch, invoke, mapM, ret, delay, print, emit, hostAfter, callLog.
  simpl.
  destruct (f [] (host w)) as [[v|e] h]; simpl;
    repeat rewrite <- app_assoc; reflexivity.
Qed.

End Run.

(** C7. [repeat(3):\n    move_right()] parses to a REPEAT node with count 3
    and a body of one statement, the call of [move_right].  Executing that
    node against any command table that defines [move_right] runs the
    command three times on the host, each run from the host the run before
    left; the log grows by the "Repeating" message and then three times by
    the invocation (with the error line when the command threw) followed by
    the pacing delay, in that order.  With a table that counts the calls the
    count goes up by exactly three. *)
Theorem C7_repeat_three_times
    (fuel : nat) (H : Type) (commands : string -> option (Command H))
    (f : Command H) (w : World H) :
  8 <= fuel ->
  commands "move_right" = Some f ->
  let h1 := hostAfter f [] (host w) in
  let h2 := hostAfter f [] h1 in
  let h3 := hostAfter f [] h2 in
  parseScript fuel repeatScript
    = Ok (Program [Repeat 3 [Call "move_right" [] 2] 1]) /\
  executeStatement H commands (Repeat 3 [Call "move_right" [] 2] 1) w
    = (Returned VUndefined,
       mkWorld h3
         (trace w
            ++ Printed (RepeatingMessage 3) info
            :: callLog "move_right" f [] (host w) ++ Delayed executionDelay
            :: callLog "move_right" f [] h1 ++ Delayed executionDelay
            :: callLog "move_right" f [] h2 ++ [Delayed executionDelay])).
Proof.
  intros Hf Hc h1 h2 h3. split; [now apply parse_repeatScript|].
  simpl executeStatement. unfold executeRepeatWith.
  change (Z.to_nat 3) with 3. unfold times.
  unfold andThen at 1. unfold print, emit at 1.
  unfold andThen. rewrite !(body_turn H commands f Hc). unfold ret.
  cbn [host trace]. subst h1 h2 h3.
  repeat (rewrite <- app_assoc; cbn [app]). reflexivity.
Qed.

Lemma C7_witness :
  parseScript 8 repeatScript = Ok (Program [Repeat 3 [Call "move_right" [] 2] 1]) /\
  executeStatement nat counting (Repeat 3 [Call "move_right" [] 2] 1) (mkWorld 0 [])
    = (Returned VUndefined,
       mkWorld 3
         [Printed (RepeatingMessage 3) info;
          Invoked "move_right" []; Delayed 200;
          Invoked "move_right" []; Delayed 200;
          Invoked "move_right" []; Delayed 200]).
Proof.
  apply (C7_repeat_three_times 8 nat counting
           (fun _ n => (Returned VUndefined, S n)) (mkWorld 0 [])).
  - lia.
  - reflexivity.
Defined.

End RepeatFacts.

(** ** C3 and C2: the iteration cap of [while] *)

Module WhileFacts.
Import MiniParser MiniExecutor.

Lemma parse_whileScript (fuel : nat) :
  8 <= fuel -> parseSource fuel whileScript = Parsed_ (Ok whileProgram).
Proof. intros Hf. with_fuel fuel 8. Qed.

Section AlwaysTrue.

Variable H : Type.
Variable commands : string -> option (Command H).
Variable maxIterations : Z.
Variables canMoveRight moveRight : Command H.

Hypothesis can_move_right_defined : commands "can_move_right" = Some canMoveRight.
Hypothesis can_move_right_true :
  forall args h, exists h', canMoveRight args h = (Returned (VBool true), h').
Hypothesis move_right_defined : commands "move_right" = Some moveRight.
Hypothesis move_right_returns :
  forall args h, exists v h', moveRight args h = (Returned v, h').

Local Abbreviation exec := (executeStatement H commands maxIterations).
Local Abbreviation round := (oneRound canMoveRight moveRight).

Lemma condition_true (w : World H) :
  evaluateCondition H commands (Call "can_move_right" [] 1) w
  = (Returned (VBool true),
     mkWorld (hostAfter canMoveRight [] (host w))
       (trace w ++ [Invoked "can_move_right" []]) (stopped w)).
Proof.
  unfold evaluateCondition, executeCallSync, callWith.
  rewrite can_move_right_defined.
  unfold andThen, mapM, ret, invoke, hostAfter.
  destruct (can_move_right_true [] (host w)) as [h' E]. rewrite E. reflexivity.
Qed.

Lemma body_once (w : World H) :
  stopped w = false ->
  each H exec [Call "move_right" [] 2] w
  = (Returned tt,
     mkWorld (hostAfter moveRight [] (host w))
       (trace w ++ [Invoked "move_right" []]) false).
Proof.
  intros Hs.
  unfold each, unlessStopped. rewrite Hs.
  unfold andThen at 1. simpl executeStatement. unfold unlessStopped. rewrite Hs.
  unfold executeCall, callWith. rewrite move_right_defined.
  unfold andThen, mapM, ret, invoke, hostAfter.
  destruct (move_right_returns [] (host w)) as (v & h' & E). rewrite E.
  simpl. now rewrite Hs.
Qed.

Lemma whileIterations_unfold (evalCondition : Exec (World H) Value)
    (runBody : Exec (World H) unit) (b i : nat) (w : World H) :
  whileIterations H maxIterations evalCondition runBody b i w =
  match evalCondition w with
  | (Returned c, w1) =>
      if truthy c && (Z.of_nat i <? maxIterations)%Z then
        if stopped w1 then (Returned i, w1)
        else
          match b with
          | 0 => (Returned i, w1)
          | S b' =>
              match runBody w1 with
              | (Returned _, w2) =>
                  whileIterations H maxIterations evalCondition runBody b' (S i) w2
              | (Raised e, w2) => (Raised e, w2)
              end
          end
      else (Returned i, w1)
  | (Raised e, w1) => (Raised e, w1)
  end.
Proof.
  destruct b; simpl; unfold andThen, unlessStopped, ret;
    destruct (evalCondition w) as [[c|e] w1]; try reflexivity;
    destruct (truthy c && (Z.of_nat i <? maxIterations)%Z); reflexivity.
Qed.

Lemma loop_runs_to_the_cap (b : nat) :
  forall (i : nat) (w : World H),
    stopped w = false ->
    Z.of_nat (i + b) = maxIterations ->
    whileIterations H maxIterations
      (evaluateCondition H commands (Call "can_move_right" [] 1))
      (each H exec [Call "move_right" [] 2]) b i w
    = (Returned (i + b),
       mkWorld (hostAfter canMoveRight [] (Nat.iter b round (host w)))
         (trace w ++ List.concat (repeat roundLog b) ++ [Invoked "can_move_right" []])
         false).
Proof.
  induction b as [|b IH]; intros i w Hs Hmax.
  - rewrite whileIterations_unfold, condition_true. simpl truthy.
    replace (Z.of_nat i <? maxIterations)%Z with false
      by (symmetry; apply Z.ltb_ge; lia).
    simpl. now rewrite Nat.add_0_r, Hs.
  - rewrite whileIterations_unfold, condition_true. simpl truthy.
    replace (Z.of_nat i <? maxIterations)%Z with true
      by (symmetry; apply Z.ltb_lt; lia).
    simpl andb. cbv iota. cbn [stopped]. rewrite Hs.
    rewrite body_once by reflexivity.
    rewrite IH; [|reflexivity|lia].
    cbn [host trace]. rewrite Nat.iter_succ_r.
    replace (i + S b) with (S i + b) by lia.
    unfold oneRound at 2. unfold roundLog at 2.
    cbn [repeat List.concat]. repeat (rewrite <- app_assoc; cbn [app]).
    reflexivity.
Qed.

End AlwaysTrue.

(** C3. [while can_move_right():\n    move_right()] parses to a WHILE
    node.  Run against a command table whose [can_move_right] always returns
    true (and whose [move_right] returns), [execute] ends in the
    iteration-limit failure after exactly [maxIterations] rounds: the host
    is the one [maxIterations] calls of [move_right] leave, each after a
    call of [can_move_right], followed by the one call of [can_move_right]
    that precedes the test of the cap; the log holds the same calls in that
    order.  With a table that counts the calls of [move_right] the count is
    [maxIterations]. *)
Theorem C3_always_true_loop_hits_the_cap
    (fuel : nat) (H : Type) (commands : string -> option (Command H))
    (maxIterations : Z) (canMoveRight moveRight : Command H) (w : World H) :
  8 <= fuel ->
  (0 <= maxIterations)%Z ->
  commands "can_move_right" = Some canMoveRight ->
  (forall args h, exists h', canMoveRight args h = (Returned (VBool true), h')) ->
  commands "move_right" = Some moveRight ->
  (forall args h, exists v h', moveRight args h = (Returned v, h')) ->
  exists ast,
    parseSource fuel whileScript = Parsed_ (Ok ast) /\
    execute H commands maxIterations ast w
      = (Raised (LoopExceeded maxIterations),
         mkWorld
           (hostAfter canMoveRight []
              (Nat.iter (Z.to_nat maxIterations) (oneRound canMoveRight moveRight)
                 (host w)))
           (trace w ++ List.concat (repeat roundLog (Z.to_nat maxIterations))
              ++ [Invoked "can_move_right" []])
           false).
Proof.
  intros Hf Hmax Hc Hct Hm Hmr.
  exists whileProgram. split; [now apply parse_whileScript|].
  unfold execute, whileProgram, each, unlessStopped. cbn [stopped reset].
  unfold andThen at 1. simpl executeStatement. unfold unlessStopped. cbn [stopped].
  unfold executeWhileLoopWith. unfold andThen at 1.
  rewrite (loop_runs_to_the_cap H commands maxIterations canMoveRight moveRight
             Hc Hct Hm Hmr (Z.to_nat maxIterations) 0 (reset w) eq_refl
             ltac:(simpl; lia)).
  cbn [Nat.add].
  replace (maxIterations <=? Z.of_nat (Z.to_nat maxIterations))%Z with true
    by (symmetry; apply Z.leb_le; lia).
  reflexivity.
Qed.

Lemma C3_witness :
  exists ast,
    parseSource 8 whileScript = Parsed_ (Ok ast) /\
    execute nat unbounded 100 ast (mkWorld 0 [] false)
      = (Raised (LoopExceeded 100),
         mkWorld 100
           (List.concat (repeat roundLog 100) ++ [Invoked "can_move_right" []]) false).
Proof.
  apply (C3_always_true_loop_hits_the_cap 8 nat unbounded 100
           (fun _ n => (Returned (VBool true), n))
           (fun _ n => (Returned VUndefined, S n)) (mkWorld 0 [] false)).
  - lia.
  - lia.
  - reflexivity.
  - intros args h. exists h. reflexivity.
  - reflexivity.
  - intros args h. exists VUndefined, (S h). reflexivity.
Defined.

(** C2. On a grid of 101 cells the condition [can_move_right()] turns false
    after exactly 100 completed iterations: the snake is at the last column
    after 100 moves and the last evaluation of the condition is false.  The
    loop never needed a 101st iteration, yet [execute] ends in
    "Loop exceeded maximum iterations (100)". *)
Theorem C2_cap_reached_exactly_is_reported_as_exceeded :
  fst wideRun = Raised (LoopExceeded 100) /\
  invocations "move_right" (trace (snd wideRun)) = 100 /\
  invocations "can_move_right" (trace (snd wideRun)) = 101 /\
  SnakePuzzle.canMoveRight (host (snd wideRun)) = false /\
  SnakePuzzle.snakeX (host (snd wideRun)) = 100%Z.
Proof. vm_compute. repeat split. Qed.

(** With one more iteration allowed the same run completes. *)
Lemma wideRun_with_cap_101 :
  fst (execute SnakePuzzle.t SnakePuzzle.commands 101 whileProgram wideGrid)
    = Returned tt.
Proof. vm_compute. reflexivity. Qed.

End WhileFacts.

(** ** C4: calling a command that is not defined *)

Module UnknownCommandFacts.

Section Lenient.
Import Parser Executor.

Variable H : Type.
Variable commands : string -> option (Command H).

Lemma executeBody_app (pre post : list Node) (w w1 : World H) :
  executeBody H commands pre w = (Returned tt, w1) ->
  executeBody H commands (pre ++ post) w = executeBody H commands post w1.
Proof.
  revert w. induction pre as [|s pre IH]; intros w E; simpl in *.
  - unfold ret in E. now inversion E.
  - unfold andThen in *.
    destruct (executeStatement H commands s w) as [[v|e] w']; [|discriminate].
    now apply IH.
Qed.

Lemma unknown_call_reports (name : string) (args : list Node) (ln : nat) (w : World H) :
  commands name = None ->
  executeStatement H commands (Call name args ln) w
    = (Returned VUndefined, reported name w).
Proof.
  intros Hn. simpl. unfold executeCall. rewrite Hn.
  unfold andThen, print, emit, ret, reported. simpl.
  now rewrite <- app_assoc.
Qed.

End Lenient.

Section Strict.
Import MiniParser MiniExecutor.

Variable H : Type.
Variable commands : string -> option (Command H).
Variable maxIterations : Z.

Local Abbreviation exec := (executeStatement H commands maxIterations).

Lemma each_after_prefix (pre post : list Node) :
  forall w w1,
    each H exec pre w = (Returned tt, w1) ->
    stopped w1 = false ->
    each H exec (pre ++ post) w = each H exec post w1.
Proof.
  induction pre as [|s r IH]; intros w w1 E Hs.
  - cbn in E. unfold ret in E. now inversion E.
  - cbn [app each] in *. unfold unlessStopped in *.
    destruct (stopped w) eqn:Hw.
    + inversion E; subst. congruence.
    + unfold andThen in *.
      destruct (exec s w) as [[v|e] w']; [|discriminate].
      now apply IH.
Qed.

Lemma unknown_call_raises (name : string) (args : list Node) (ln : nat) (w : World H) :
  commands name = None ->
  stopped w = false ->
  exec (Call name args ln) w = (Raised (UnknownCommand name), w).
Proof.
  intros Hn Hs. cbn [executeStatement]. unfold unlessStopped. rewrite Hs.
  unfold executeCall, callWith. now rewrite Hn.
Qed.

End Strict.

(** C4, as amended.  A statement-position call of a name the lookup
    [this.commands[name]] does not find is handled differently by the two
    executors.  [Executor] does not raise: it prints the NameError
    diagnostic (and the help hint), returns no value and leaves the host
    untouched, and the statements after the call run from there.
    [MiniExecutor] raises "Unknown command: name" to the caller of [execute]
    before the arguments are evaluated: nothing is reported, the world is as
    the statements before the call left it, and the statements after the
    call never run.  A name the table inherits is found by the lookup: on
    an object literal without a [toString] of its own, [toString()] runs
    [Object.prototype.toString] in both executors, which returns its string
    and raises nothing. *)
Theorem C4_unknown_command_is_reported_or_raised (H : Type) :
  (forall commands name args ln pre post w0 w,
     commands name = None ->
     Executor.executeBody H commands pre w0 = (Returned tt, w) ->
     Executor.executeStatement H commands (Parser.Call name args ln) w
       = (Returned VUndefined, reported name w) /\
     Executor.execute H commands
       (Parser.Program (pre ++ Parser.Call name args ln :: post)) w0
       = Executor.executeBody H commands post (reported name w)) /\
  (forall commands maxIterations name args ln pre post w0 w,
     commands name = None ->
     MiniExecutor.each H (MiniExecutor.executeStatement H commands maxIterations) pre
       (MiniExecutor.reset w0) = (Returned tt, w) ->
     MiniExecutor.stopped w = false ->
     MiniExecutor.executeStatement H commands maxIterations
       (MiniParser.Call name args ln) w
       = (Raised (UnknownCommand name), w) /\
     MiniExecutor.execute H commands maxIterations
       (MiniParser.Program (pre ++ MiniParser.Call name args ln :: post)) w0
       = (Raised (UnknownCommand name), w)) /\
  (forall own,
     own "toString" = None ->
     ObjectLiteral.lookup H own "toString" <> None /\
     (forall ln w,
        Executor.executeStatement H (ObjectLiteral.lookup H own)
          (Parser.Call "toString" [] ln) w
        = (Returned (VStr "[object Object]"),
           Executor.mkWorld (Executor.host w)
             (Executor.trace w ++ [Invoked "toString" []]))) /\
     (forall maxIterations ln w,
        MiniExecutor.stopped w = false ->
        MiniExecutor.executeStatement H (ObjectLiteral.lookup H own) maxIterations
          (MiniParser.Call "toString" [] ln) w
        = (Returned (VStr "[object Object]"),
           MiniExecutor.mkWorld (MiniExecutor.host w)
             (MiniExecutor.trace w ++ [Invoked "toString" []]) false))).
Proof.
  split; [|split].
  - intros commands name args ln pre post w0 w Hn Hpre.
    split; [now apply unknown_call_reports|].
    unfold Executor.execute.
    rewrite (executeBody_app H commands pre _ w0 w Hpre).
    cbn [Executor.executeBody]. unfold andThen at 1.
    now rewrite (unknown_call_reports H commands name args ln w Hn).
  - intros commands maxIterations name args ln pre post w0 w Hn Hpre Hs.
    split; [now apply unknown_call_raises|].
    unfold MiniExecutor.execute.
    rewrite (each_after_prefix H commands maxIterations pre _ _ w Hpre Hs).
    cbn [MiniExecutor.each]. unfold MiniExecutor.unlessStopped. rewrite Hs.
    unfold andThen.
    now rewrite (unknown_call_raises H commands maxIterations name args ln w Hn Hs).
  - intros own Hown.
    assert (Hl : ObjectLiteral.lookup H own "toString"
                 = Some (ObjectLiteral.builtin H
                           (fun _ => Returned (VStr "[object Object]")))).
    { unfold ObjectLiteral.lookup. now rewrite Hown. }
    split; [now rewrite Hl|]. split.
    + intros ln w. cbn [Executor.executeStatement]. unfold Executor.executeCall.
      rewrite Hl. reflexivity.
    + intros maxIterations ln w Hs. cbn [MiniExecutor.executeStatement].
      unfold MiniExecutor.unlessStopped. rewrite Hs.
      unfold MiniExecutor.executeCall, MiniExecutor.callWith. rewrite Hl.
      cbv [andThen mapM ret MiniExecutor.invoke ObjectLiteral.builtin].
      now rewrite Hs.
Qed.

Lemma C4_witness :
  (Executor.executeStatement nat counting (Parser.Call "fly" [] 1) (Executor.mkWorld 0 [])
     = (Returned VUndefined, reported "fly" (Executor.mkWorld 0 [])) /\
   Executor.execute nat counting
     (Parser.Program ([] ++ Parser.Call "fly" [] 1 :: [Parser.Call "move_right" [] 2]))
     (Executor.mkWorld 0 [])
     = (Returned tt,
        Executor.mkWorld 1
          [Printed (NameErrorMessage "fly") error; Printed HelpHintMessage system;
           Invoked "move_right" []])) /\
  (MiniExecutor.executeStatement nat counting 100 (MiniParser.Call "fly" [] 2)
     (MiniExecutor.mkWorld 1 [Invoked "move_right" []] false)
     = (Raised (UnknownCommand "fly"),
        MiniExecutor.mkWorld 1 [Invoked "move_right" []] false) /\
   MiniExecutor.execute nat counting 100
     (MiniParser.Program
        ([MiniParser.Call "move_right" [] 1]
           ++ MiniParser.Call "fly" [] 2 :: [MiniParser.Call "move_right" [] 3]))
     (MiniExecutor.mkWorld 0 [] false)
     = (Raised (UnknownCommand "fly"),
        MiniExecutor.mkWorld 1 [Invoked "move_right" []] false)) /\
  (counting "toString" <> None /\
   (forall ln w,
      Executor.executeStatement nat counting (Parser.Call "toString" [] ln) w
      = (Returned (VStr "[object Object]"),
         Executor.mkWorld (Executor.host w)
           (Executor.trace w ++ [Invoked "toString" []]))) /\
   (forall maxIterations ln w,
      MiniExecutor.stopped w = false ->
      MiniExecutor.executeStatement nat counting maxIterations
        (MiniParser.Call "toString" [] ln) w
      = (Returned (VStr "[object Object]"),
         MiniExecutor.mkWorld (MiniExecutor.host w)
           (MiniExecutor.trace w ++ [Invoked "toString" []]) false))).
Proof.
  split; [|split].
  - apply (proj1 (C4_unknown_command_is_reported_or_raised nat)
             counting "fly" [] 1 [] [Parser.Call "move_right" [] 2]
             (Executor.mkWorld 0 []) (Executor.mkWorld 0 [])).
    + reflexivity.
    + reflexivity.
  - apply (proj1 (proj2 (C4_unknown_command_is_reported_or_raised nat))
             counting 100%Z "fly" [] 2 [MiniParser.Call "move_right" [] 1]
             [MiniParser.Call "move_right" [] 3]
             (MiniExecutor.mkWorld 0 [] false)
             (MiniExecutor.mkWorld 1 [Invoked "move_right" []] false)).
    + reflexivity.
    + reflexivity.
    + reflexivity.
  - apply (proj2 (proj2 (C4_unknown_command_is_reported_or_raised nat)) countingOwn).
    reflexivity.
Defined.

(** In the mini-game, [fly()] followed by [move_down()]: [fly] is not in the
    command table, [execute] raises "Unknown command: fly" to its caller,
    nothing is reported and [move_down] is never invoked. *)
Lemma C4_counterexample :
  SnakePuzzle.commands "fly" = None /\
  MiniParser.parseSource 8 flyScript = MiniParser.Parsed_ (Ok flyProgram) /\
  MiniExecutor.execute SnakePuzzle.t SnakePuzzle.commands 100 flyProgram miniStart
    = (Raised (UnknownCommand "fly"), miniStart) /\
  ~ (exists w', MiniExecutor.execute SnakePuzzle.t SnakePuzzle.commands 100
                  flyProgram miniStart = (Returned tt, w')).
Proof.
  repeat split; try (vm_compute; reflexivity).
  intros [w' E]. vm_compute in E. discriminate.
Qed.

End UnknownCommandFacts.

(** ** C6: only one branch of an IF runs *)

Module IfFacts.

Section OneBranch.
Import MiniParser MiniExecutor.

Variable H : Type.
Variable commands : string -> option (Command H).
Variable maxIterations : Z.

Local Abbreviation exec := (executeStatement H commands maxIterations).

Lemma elifOrElse_chooses (elseBody : option (list Node))
    (clauses : list (Node * list Node)) (w : World H) :
  andThen (elifOrElse H commands exec elseBody clauses) (fun _ => ret VUndefined) w
  = andThen (firstTruthyElif H commands clauses)
      (fun e => andThen (match e with
                         | Some b => ret (Some b)
                         | None => ret elseBody
                         end)
                        (runBranch H commands maxIterations)) w.
Proof.
  revert w. induction clauses as [|[c b] r IH]; intros w.
  - simpl. unfold andThen, ret, runBranch.
    destruct elseBody as [b|]; reflexivity.
  - simpl. rewrite !andThen_assoc. unfold andThen at 1 3.
    destruct (evaluateCondition H commands c w) as [[v|e] w1]; [|reflexivity].
    destruct (truthy v).
    + reflexivity.
    + apply IH.
Qed.

Lemma executeIfStatement_chooses (condition : Node) (body : list Node)
    (elifClauses : list (Node * list Node)) (elseBody : option (list Node))
    (w : World H) :
  executeIfStatement H commands maxIterations condition body elifClauses elseBody w
  = andThen (chosenBranch H commands condition body elifClauses elseBody)
            (runBranch H commands maxIterations) w.
Proof.
  unfold executeIfStatement, executeIfStatementWith, chosenBranch.
  rewrite andThen_assoc. unfold andThen at 1 3.
  destruct (evaluateCondition H commands condition w) as [[v|e] w1]; [|reflexivity].
  destruct (truthy v).
  - reflexivity.
  - rewrite elifOrElse_chooses. now rewrite andThen_assoc.
Qed.

(** A condition [name()] is one call of the command on the host. *)
Lemma condition_call (name : string) (ln : nat) (f : Command H) (v : Value) (h1 : H)
    (w : World H) :
  commands name = Some f ->
  f [] (host w) = (Returned v, h1) ->
  evaluateCondition H commands (Call name [] ln) w
  = (Returned v, mkWorld h1 (trace w ++ [Invoked name []]) (stopped w)).
Proof.
  intros Hc Hf. unfold evaluateCondition, executeCallSync, callWith. rewrite Hc.
  unfold andThen, mapM, ret, invoke. now rewrite Hf.
Qed.

Lemma declined_stopped (clauses : list (Node * list Node)) (w w1 : World H) :
  declined H commands clauses w w1 -> stopped w1 = stopped w.
Proof. induction 1 as [w|name ln body rest f v h' w w' Hc Hf Hv Hd IH]; auto. Qed.

(** Declined clauses are passed over: their conditions are called, none of
    their bodies runs. *)
Lemma declined_passed (elseBody : option (list Node))
    (clauses after : list (Node * list Node)) (w w1 : World H) :
  declined H commands clauses w w1 ->
  elifOrElse H commands exec elseBody (clauses ++ after) w
  = elifOrElse H commands exec elseBody after w1.
Proof.
  induction 1 as [w|name ln body rest f v h' w w' Hc Hf Hv Hd IH]; [reflexivity|].
  cbn [app elifOrElse]. unfold andThen at 1.
  rewrite (condition_call name ln f v h' w Hc Hf), Hv. exact IH.
Qed.

Lemma if_unfolded (condition : Node) (body : list Node)
    (elifClauses : list (Node * list Node)) (elseBody : option (list Node))
    (ln : nat) (w : World H) :
  stopped w = false ->
  exec (IfStatement condition body elifClauses elseBody ln) w
  = match evaluateCondition H commands condition w with
    | (Returned c, w1) =>
        andThen (if truthy c then each H exec body
                 else elifOrElse H commands exec elseBody elifClauses)
                (fun _ => ret VUndefined) w1
    | (Raised e, w1) => (Raised e, w1)
    end.
Proof.
  intros Hs. cbn [executeStatement]. unfold unlessStopped. rewrite Hs.
  unfold executeIfStatementWith. unfold andThen at 1.
  now destruct (evaluateCondition H commands condition w) as [[c|e] w1].
Qed.

Lemma runBranch_else (elseBody : option (list Node)) (w : World H) :
  andThen (elifOrElse H commands exec elseBody []) (fun _ => ret VUndefined) w
  = runBranch H commands maxIterations elseBody w.
Proof. destruct elseBody; reflexivity. Qed.

End OneBranch.

Lemma parse_ifElseScript (fuel : nat) :
  8 <= fuel ->
  MiniParser.parseSource fuel ifElseScript = MiniParser.Parsed_ (Ok ifElseProgram).
Proof. intros Hf. with_fuel fuel 8. Qed.

Section Example.
Import MiniParser MiniExecutor.

Variable H : Type.
Variable commands : string -> option (Command H).
Variable maxIterations : Z.
Variables atGoal win lose : Command H.

Hypothesis at_goal_defined : commands "at_goal" = Some atGoal.
Hypothesis win_defined : commands "win" = Some win.
Hypothesis lose_defined : commands "lose" = Some lose.

Lemma one_branch_runs (b : bool) (h1 : H) (w : World H) :
  atGoal [] (host w) = (Returned (VBool b), h1) ->
  execute H commands maxIterations ifElseProgram w
  = (completion (fst ((if b then win else lose) [] h1)),
     mkWorld (hostAfter (if b then win else lose) [] h1)
       (trace w ++ [Invoked "at_goal" []; Invoked (if b then "win" else "lose") []])
       false).
Proof.
  intros E1. destruct w as [h0 tr0 st0]. cbn [host] in E1.
  cbv [execute ifElseProgram each unlessStopped andThen executeStatement
       executeIfStatementWith evaluateCondition executeCallSync executeCall
       callWith elifOrElse mapM ret invoke reset stopped host trace hostAfter].
  rewrite at_goal_defined, E1.
  destruct b; cbv [truthy]; [rewrite win_defined | rewrite lose_defined].
  - destruct (win [] h1) as [[v|e] h2]; cbn [fst snd completion];
      now rewrite <- app_assoc.
  - destruct (lose [] h1) as [[v|e] h2]; cbn [fst snd completion];
      now rewrite <- app_assoc.
Qed.

End Example.

Section Primary.
Import Parser Executor.

Variable H : Type.
Variable commands : string -> option (Command H).

(** [Executor.executeIf] on a condition [name()]. *)
Lemma executeIf_on_a_call (name : string) (f : Command H) (v : Value) (h1 : H)
    (body : list Node) (ln ln' : nat) (w : World H) :
  commands name = Some f ->
  f [] (host w) = (Returned v, h1) ->
  executeStatement H commands (If (Call name [] ln') body ln) w
  = if truthy v then
      andThen (eachDelayed H (executeStatement H commands) body)
              (fun _ => ret VUndefined)
              (mkWorld h1 (trace w ++ [Invoked name []; Printed ConditionTrueMessage info]))
    else
      (Returned VUndefined,
       mkWorld h1 (trace w ++ [Invoked name []; Printed ConditionFalseMessage info])).
Proof.
  intros Hc Hf. cbn [executeStatement]. unfold executeIfWith.
  unfold conditionResult, executeCallSync, callSyncWith. rewrite Hc.
  cbv [andThen mapM ret invoke]. rewrite Hf.
  destruct (truthy v); cbv [print emit host trace];
    rewrite <- app_assoc; reflexivity.
Qed.

End Primary.

(** C6. An IF statement runs at most one branch body.

    [MiniExecutor], every IF statement: the statement makes one selection -
    the primary body when the primary condition is truthy; otherwise the
    body of the first elif, in declared order, whose condition is truthy;
    otherwise the else body when there is one - and runs the selected body
    and no other.

    [MiniExecutor], with conditions that are calls [name()] of commands of
    the table: the primary condition is called once on the host.  When it
    returns a truthy value the primary body runs from the world that call
    left, and no elif condition is called.  When it returns a falsy value
    the elif conditions are called in declared order, each on the host the
    call before left; after the first that returns a truthy value its body
    runs from the world that call left and no later condition is called;
    when all return falsy values the else body runs from the world the last
    call left, or nothing runs when there is no else.

    [Executor] has the primary branch only: the condition command is called
    once; when it returns a truthy value "Condition is true" is printed and
    the body runs, otherwise "Condition is false" is printed and nothing
    else happens.

    [if at_goal():\n    win()\nelse:\n    lose()]: [at_goal] is called once;
    when it returns false [lose] is run, once, on the host [at_goal] left,
    and [win] is not run; when it returns true it is the other way round. *)
Theorem C6_if_runs_exactly_the_selected_branch
    (H : Type) (commands : string -> option (Command H)) (maxIterations : Z) :
  (forall condition body elifClauses elseBody w,
     MiniExecutor.executeIfStatement H commands maxIterations
       condition body elifClauses elseBody w
     = andThen (chosenBranch H commands condition body elifClauses elseBody)
               (runBranch H commands maxIterations) w) /\
  (forall name f v h1 body elifClauses elseBody ln ln' w,
     MiniExecutor.stopped w = false ->
     commands name = Some f ->
     f [] (MiniExecutor.host w) = (Returned v, h1) ->
     truthy v = true ->
     MiniExecutor.executeStatement H commands maxIterations
       (MiniParser.IfStatement (MiniParser.Call name [] ln') body elifClauses elseBody ln) w
     = runBranch H commands maxIterations (Some body)
         (MiniExecutor.mkWorld h1 (MiniExecutor.trace w ++ [Invoked name []]) false)) /\
  (forall name f v h1 body before elif g u h2 elifBody after elseBody ln ln' ln'' w w1,
     MiniExecutor.stopped w = false ->
     commands name = Some f ->
     f [] (MiniExecutor.host w) = (Returned v, h1) ->
     truthy v = false ->
     declined H commands before
       (MiniExecutor.mkWorld h1 (MiniExecutor.trace w ++ [Invoked name []]) false) w1 ->
     commands elif = Some g ->
     g [] (MiniExecutor.host w1) = (Returned u, h2) ->
     truthy u = true ->
     MiniExecutor.executeStatement H commands maxIterations
       (MiniParser.IfStatement (MiniParser.Call name [] ln') body
          (before ++ (MiniParser.Call elif [] ln'', elifBody) :: after) elseBody ln) w
     = runBranch H commands maxIterations (Some elifBody)
         (MiniExecutor.mkWorld h2 (MiniExecutor.trace w1 ++ [Invoked elif []]) false)) /\
  (forall name f v h1 body elifClauses elseBody ln ln' w w1,
     MiniExecutor.stopped w = false ->
     commands name = Some f ->
     f [] (MiniExecutor.host w) = (Returned v, h1) ->
     truthy v = false ->
     declined H commands elifClauses
       (MiniExecutor.mkWorld h1 (MiniExecutor.trace w ++ [Invoked name []]) false) w1 ->
     MiniExecutor.executeStatement H commands maxIterations
       (MiniParser.IfStatement (MiniParser.Call name [] ln') body elifClauses elseBody ln) w
     = runBranch H commands maxIterations elseBody w1) /\
  (forall name f v h1 body ln ln' w,
     commands name = Some f ->
     f [] (Executor.host w) = (Returned v, h1) ->
     Executor.executeStatement H commands (Parser.If (Parser.Call name [] ln') body ln) w
     = if truthy v then
         andThen (Executor.eachDelayed H (Executor.executeStatement H commands) body)
                 (fun _ => ret VUndefined)
                 (Executor.mkWorld h1
                    (Executor.trace w
                       ++ [Invoked name []; Printed ConditionTrueMessage info]))
       else
         (Returned VUndefined,
          Executor.mkWorld h1
            (Executor.trace w ++ [Invoked name []; Printed ConditionFalseMessage info]))) /\
  (forall fuel atGoal win lose b h1 w,
     8 <= fuel ->
     commands "at_goal" = Some atGoal ->
     commands "win" = Some win ->
     commands "lose" = Some lose ->
     atGoal [] (MiniExecutor.host w) = (Returned (VBool b), h1) ->
     exists ast,
       MiniParser.parseSource fuel ifElseScript = MiniParser.Parsed_ (Ok ast) /\
       MiniExecutor.execute H commands maxIterations ast w
       = (completion (fst ((if b then win else lose) [] h1)),
          MiniExecutor.mkWorld (hostAfter (if b then win else lose) [] h1)
            (MiniExecutor.trace w
               ++ [Invoked "at_goal" []; Invoked (if b then "win" else "lose") []])
            false)).
Proof.
  repeat match goal with |- _ /\ _ => split end.
  - intros. apply executeIfStatement_chooses.
  - intros name f v h1 body elifClauses elseBody ln ln' w Hs Hc Hf Hv.
    rewrite if_unfolded by exact Hs.
    rewrite (condition_call H commands name ln' f v h1 w Hc Hf), Hv, Hs.
    reflexivity.
  - intros name f v h1 body before elif g u h2 elifBody after elseBody ln ln' ln'' w w1
      Hs Hc Hf Hv Hd Hg Hgu Hu.
    rewrite if_unfolded by exact Hs.
    rewrite (condition_call H commands name ln' f v h1 w Hc Hf), Hv, Hs.
    unfold andThen at 1.
    rewrite (declined_passed H commands maxIterations elseBody before _ _ w1 Hd).
    cbn [MiniExecutor.elifOrElse]. unfold andThen at 1.
    rewrite (condition_call H commands elif ln'' g u h2 w1 Hg Hgu), Hu.
    rewrite (declined_stopped H commands before _ w1 Hd).
    reflexivity.
  - intros name f v h1 body elifClauses elseBody ln ln' w w1 Hs Hc Hf Hv Hd.
    rewrite if_unfolded by exact Hs.
    rewrite (condition_call H commands name ln' f v h1 w Hc Hf), Hv, Hs.
    unfold andThen at 1.
    rewrite <- (app_nil_r elifClauses).
    rewrite (declined_passed H commands maxIterations elseBody elifClauses [] _ w1 Hd).
    apply runBranch_else.
  - intros name f v h1 body ln ln' w Hc Hf.
    exact (executeIf_on_a_call H commands name f v h1 body ln ln' w Hc Hf).
  - intros fuel atGoal win lose b h1 w Hf Hg Hw Hl Hb.
    exists ifElseProgram. split; [now apply parse_ifElseScript|].
    exact (one_branch_runs H commands maxIterations atGoal win lose Hg Hw Hl b h1 w Hb).
Qed.

Lemma C6_witness :
  (* the primary condition holds *)
  MiniExecutor.executeStatement (list string) branching 100
    (MiniParser.IfStatement (MiniParser.Call "yes" [] 1) [MiniParser.Call "first" [] 2]
       [(MiniParser.Call "yes" [] 3, [MiniParser.Call "second" [] 4])]
       (Some [MiniParser.Call "third" [] 6]) 1)
    (MiniExecutor.mkWorld [] [] false)
  = (Returned VUndefined,
     MiniExecutor.mkWorld ["first"] [Invoked "yes" []; Invoked "first" []] false) /\
  (* the second of three elifs is the first that holds *)
  MiniExecutor.executeStatement (list string) branching 100
    (MiniParser.IfStatement (MiniParser.Call "no" [] 1) [MiniParser.Call "first" [] 2]
       ([(MiniParser.Call "no" [] 3, [MiniParser.Call "first" [] 4])]
          ++ (MiniParser.Call "yes" [] 5, [MiniParser.Call "second" [] 6])
          :: [(MiniParser.Call "yes" [] 7, [MiniParser.Call "third" [] 8])])
       (Some [MiniParser.Call "third" [] 10]) 1)
    (MiniExecutor.mkWorld [] [] false)
  = (Returned VUndefined,
     MiniExecutor.mkWorld ["second"]
       [Invoked "no" []; Invoked "no" []; Invoked "yes" []; Invoked "second" []] false) /\
  (* no condition holds *)
  MiniExecutor.executeStatement (list string) branching 100
    (MiniParser.IfStatement (MiniParser.Call "no" [] 1) [MiniParser.Call "first" [] 2]
       [(MiniParser.Call "no" [] 3, [MiniParser.Call "second" [] 4])]
       (Some [MiniParser.Call "third" [] 6]) 1)
    (MiniExecutor.mkWorld [] [] false)
  = (Returned VUndefined,
     MiniExecutor.mkWorld ["third"]
       [Invoked "no" []; Invoked "no" []; Invoked "third" []] false) /\
  (* [Executor] *)
  Executor.executeStatement (list string) branching
    (Parser.If (Parser.Call "yes" [] 1) [Parser.Call "first" [] 2] 1)
    (Executor.mkWorld [] [])
  = (Returned VUndefined,
     Executor.mkWorld ["first"]
       [Invoked "yes" []; Printed ConditionTrueMessage info;
        Invoked "first" []; Delayed 200]) /\
  (* the example *)
  exists ast,
    MiniParser.parseSource 8 ifElseScript = MiniParser.Parsed_ (Ok ast) /\
    MiniExecutor.execute (list string) branching 100 ast (MiniExecutor.mkWorld [] [] false)
    = (Returned tt,
       MiniExecutor.mkWorld ["lose"] [Invoked "at_goal" []; Invoked "lose" []] false).
Proof.
  pose proof (C6_if_runs_exactly_the_selected_branch (list string) branching 100)
    as (_ & Primary & Elif & Else & Single & Example).
  repeat match goal with |- _ /\ _ => split end.
  - apply (Primary "yes" (fun _ h => (Returned (VBool true), h)) (VBool true) []);
      reflexivity.
  - apply (Elif "no" (fun _ h => (Returned (VBool false), h)) (VBool false) []
             [MiniParser.Call "first" [] 2]
             [(MiniParser.Call "no" [] 3, [MiniParser.Call "first" [] 4])]
             "yes" (fun _ h => (Returned (VBool true), h)) (VBool true) []
             [MiniParser.Call "second" [] 6]
             [(MiniParser.Call "yes" [] 7, [MiniParser.Call "third" [] 8])]
             (Some [MiniParser.Call "third" [] 10]) 1 1 5
             (MiniExecutor.mkWorld [] [] false)
             (MiniExecutor.mkWorld [] [Invoked "no" []; Invoked "no" []] false));
      try reflexivity.
    eapply declined_next; [reflexivity | reflexivity | reflexivity |].
    apply declined_none.
  - apply (Else "no" (fun _ h => (Returned (VBool false), h)) (VBool false) []
             [MiniParser.Call "first" [] 2]
             [(MiniParser.Call "no" [] 3, [MiniParser.Call "second" [] 4])]
             (Some [MiniParser.Call "third" [] 6]) 1 1
             (MiniExecutor.mkWorld [] [] false)
             (MiniExecutor.mkWorld [] [Invoked "no" []; Invoked "no" []] false));
      try reflexivity.
    eapply declined_next; [reflexivity | reflexivity | reflexivity |].
    apply declined_none.
  - apply (Single "yes" (fun _ h => (Returned (VBool true), h)) (VBool true) []);
      reflexivity.
  - apply (Example 8 (fun _ h => (Returned (VBool false), h))
             (fun _ h => (Returned VUndefined, h ++ ["win"]))
             (fun _ h => (Returned VUndefined, h ++ ["lose"]))
             false [] (MiniExecutor.mkWorld [] [] false)).
    + lia.
    + reflexivity.
    + reflexivity.
    + reflexivity.
    + reflexivity.
Defined.

End IfFacts.

(** ** Facts about the token cursor *)

Lemma TokenType_eqb_eq (a b : TokenType) : TokenType_eqb a b = true <-> a = b.
Proof. split; [destruct a, b; simpl; congruence | intros ->; destruct b; reflexivity]. Qed.

Lemma TokenType_eqb_neq (a b : TokenType) : TokenType_eqb a b = false <-> a <> b.
Proof.
  split.
  - intros E <-. destruct a; discriminate.
  - intros N. destruct (TokenType_eqb a b) eqn:E; [|reflexivity].
    apply TokenType_eqb_eq in E. contradiction.
Qed.

Lemma peekIsType_true (tokens : list Token) (pos : nat) (ty : TokenType) :
  peekType tokens pos = ty -> peekIsType tokens pos ty = true.
Proof. intros <-. now apply TokenType_eqb_eq. Qed.

Lemma peekIsType_false (tokens : list Token) (pos : nat) (ty : TokenType) :
  peekType tokens pos <> ty -> peekIsType tokens pos ty = false.
Proof. intros N. now apply TokenType_eqb_neq. Qed.

Lemma skipNewlines_stays (tokens : list Token) (pos : nat) :
  peekType tokens pos <> NEWLINE -> skipNewlines tokens pos = pos.
Proof.
  intros N. unfold skipNewlines.
  destruct (List.length tokens - pos); simpl; [reflexivity|].
  now rewrite peekIsType_false.
Qed.

Lemma expect_present (tokens : list Token) (ty : TokenType) (msg : string) (pos : nat) :
  peekType tokens pos = ty -> ty <> EOF ->
  exists t, at_ tokens pos = Some t /\ type t = ty /\
            expect tokens ty msg pos = Ok (t, S pos).
Proof.
  intros E N. unfold expect. rewrite (peekIsType_true _ _ _ E).
  unfold peekType in E. destruct (at_ tokens pos) as [t|]; [|congruence].
  exists t. auto.
Qed.

Lemma expect_absent (tokens : list Token) (ty : TokenType) (msg : string) (pos : nat) :
  peekType tokens pos <> ty ->
  expect tokens ty msg pos
    = Throw (Expected msg (peekLine tokens pos) (peekCol tokens pos) (peekType tokens pos)).
Proof. intros N. unfold expect. now rewrite peekIsType_false. Qed.

Lemma expect_Ok (tokens : list Token) (ty : TokenType) (msg : string) (pos : nat)
    (t : Token) (p : nat) :
  expect tokens ty msg pos = Ok (t, p) ->
  at_ tokens pos = Some t /\ type t = ty /\ p = S pos.
Proof.
  unfold expect. destruct (peekIsType tokens pos ty) eqn:E; [|discriminate].
  apply TokenType_eqb_eq in E. unfold peekType in E.
  destruct (at_ tokens pos) as [t'|]; [|discriminate].
  intros [= -> <-]. auto.
Qed.

(** ** C1: the main loop of [parse] at a DEDENT *)

Module ProgressFacts.

(** At a DEDENT, [parseStatement] returns [null] without advancing, and the
    loop of [parse] only stops at EOF: every turn finds the same DEDENT. *)
Lemma Parser_stuck_at_dedent (tokens : list Token) (pos : nat) :
  peekType tokens pos = DEDENT ->
  forall fuel statements, Parser.parseLoop tokens fuel statements pos = OutOfFuel.
Proof.
  intros E. induction fuel as [|f IH]; intros statements; [reflexivity|].
  cbn [Parser.parseLoop].
  rewrite peekIsType_false by congruence.
  destruct f as [|f']; [reflexivity|].
  cbn [Parser.parseStatement]. rewrite E. cbn [bind Parser.skippable Parser.pushStmt].
  rewrite skipNewlines_stays by congruence.
  apply IH.
Qed.

Lemma MiniParser_stuck_at_dedent (tokens : list Token) (pos : nat) :
  peekType tokens pos = DEDENT ->
  forall fuel statements, MiniParser.parseLoop tokens fuel statements pos = OutOfFuel.
Proof.
  intros E. induction fuel as [|f IH]; intros statements; [reflexivity|].
  cbn [MiniParser.parseLoop].
  rewrite peekIsType_false by congruence.
  destruct f as [|f']; [reflexivity|].
  cbn [MiniParser.parseStatement]. rewrite E.
  cbn [bind MiniParser.skippable MiniParser.pushStmt].
  rewrite skipNewlines_stays by congruence.
  apply IH.
Qed.

Lemma indentedScript_tokens :
  Lexer.tokenize indentedScript = inl indentedTokens /\
  MiniLexer.tokenize indentedScript = inl indentedTokens /\
  map type indentedTokens = [INDENT; IDENTIFIER; LPAREN; RPAREN; DEDENT; EOF].
Proof. repeat split; vm_compute; reflexivity. Qed.

(** C1 fails on the code.  The one-line script [  a()] (indented) lexes to
    INDENT, a(), DEDENT, EOF - balanced - and neither parser returns on it:
    whatever the recursion budget, the loop of [parse] is still turning at
    the DEDENT. *)
Theorem C1_parse_does_not_return_on_indented_script (fuel : nat) :
  Parser.parseScript fuel indentedScript = OutOfFuel /\
  MiniParser.parseSource fuel indentedScript = MiniParser.Parsed_ OutOfFuel.
Proof.
  destruct indentedScript_tokens as (T1 & T2 & _).
  unfold Parser.parseScript, MiniParser.parseSource. rewrite T1, T2.
  split.
  - do 5 (destruct fuel as [|fuel]; [vm_compute; reflexivity|]).
    change (bind (Parser.parseLoop indentedTokens (S (S (S fuel)))
                    [Parser.Call "a" [] 1] 4)
                 (fun statements => Ok (Parser.Program statements)) = OutOfFuel).
    now rewrite Parser_stuck_at_dedent.
  - f_equal.
    do 5 (destruct fuel as [|fuel]; [vm_compute; reflexivity|]).
    change (bind (MiniParser.parseLoop indentedTokens (S (S (S fuel)))
                    [MiniParser.Call "a" [] 1] 4)
                 (fun statements => Ok (MiniParser.Program statements)) = OutOfFuel).
    now rewrite MiniParser_stuck_at_dedent.
Qed.

End ProgressFacts.

(** ** C8: an [if] without an indented block *)

Module MissingBlockFacts.

Section AtAnIf.

Variable tokens : list Token.
Variable pos : nat.
Variable ifToken : Token.
Variable p1 : nat.

Hypothesis if_here : at_ tokens pos = Some ifToken.
Hypothesis if_kind : type ifToken = IF.
Hypothesis colon_after_condition : peekType tokens p1 = COLON.
Hypothesis no_indent : peekType tokens (skipNewlines tokens (S p1)) <> INDENT.

Local Abbreviation failure := (ExpectedIndentedBlock "if" (Some (line ifToken))).

Lemma peek_if : peekType tokens pos = IF.
Proof. unfold peekType. now rewrite if_here. Qed.

Lemma Parser_parseIf_fails (fuel : nat) (condition : Parser.Node) :
  Parser.parseCondition tokens fuel (S pos) = Ok (condition, p1) ->
  Parser.parseIf tokens (S fuel) pos = Throw failure.
Proof.
  intros Hc. cbn [Parser.parseIf]. rewrite Hc. cbn [bind].
  destruct (expect_present tokens COLON "Expected : after if condition" p1
              colon_after_condition ltac:(discriminate)) as (t & _ & _ & E).
  rewrite E. cbn [bind]. unfold Parser.openBlock.
  rewrite peekIsType_false by exact no_indent.
  now rewrite if_here.
Qed.

Lemma Parser_statement_fails (fuel : nat) (condition : Parser.Node) :
  Parser.parseCondition tokens fuel (S pos) = Ok (condition, p1) ->
  Parser.parseStatement tokens (S (S fuel)) pos = Throw failure.
Proof.
  intros Hc. cbn [Parser.parseStatement]. rewrite peek_if.
  now rewrite (Parser_parseIf_fails fuel condition Hc).
Qed.

Lemma MiniParser_parseIf_fails (fuel : nat) (condition : MiniParser.Node) :
  MiniParser.parseCondition tokens fuel (S pos) = Ok (condition, p1) ->
  MiniParser.parseIfStatement tokens (S fuel) pos = Throw failure.
Proof.
  intros Hc. cbn [MiniParser.parseIfStatement]. rewrite Hc. cbn [bind].
  destruct (expect_present tokens COLON "Expected : after if condition" p1
              colon_after_condition ltac:(discriminate)) as (t & _ & _ & E).
  rewrite E. cbn [bind]. unfold MiniParser.openBlock.
  rewrite peekIsType_false by exact no_indent.
  now rewrite if_here.
Qed.

Lemma MiniParser_statement_fails (fuel : nat) (condition : MiniParser.Node) :
  MiniParser.parseCondition tokens fuel (S pos) = Ok (condition, p1) ->
  MiniParser.parseStatement tokens (S (S fuel)) pos = Throw failure.
Proof.
  intros Hc. cbn [MiniParser.parseStatement]. rewrite peek_if.
  now rewrite (MiniParser_parseIf_fails fuel condition Hc).
Qed.

End AtAnIf.

(** C8. Let an [if] token stand at statement position, its condition parse,
    a colon follow, and the first token after the colon and any newlines be
    something other than INDENT.  Then, in both parsers, [parseIf] throws
    the SyntaxError "Expected indented block after if at line L" with L the
    line of the [if] token; the error passes through [parseStatement],
    through the loop of an enclosing block and through the loop of [parse],
    so no Program is returned. *)
Theorem C8_if_without_indented_block_is_a_syntax_error
    (tokens : list Token) (pos p1 fuel : nat) (ifToken : Token) :
  at_ tokens pos = Some ifToken ->
  type ifToken = IF ->
  peekType tokens p1 = COLON ->
  peekType tokens (skipNewlines tokens (S p1)) <> INDENT ->
  (forall condition,
     Parser.parseCondition tokens fuel (S pos) = Ok (condition, p1) ->
     Parser.parseIf tokens (S fuel) pos
       = Throw (ExpectedIndentedBlock "if" (Some (line ifToken))) /\
     (forall statements,
        Parser.parseBlockLoop tokens (S (S (S fuel))) statements pos
          = Throw (ExpectedIndentedBlock "if" (Some (line ifToken)))) /\
     (forall statements,
        Parser.parseLoop tokens (S (S (S fuel))) statements pos
          = Throw (ExpectedIndentedBlock "if" (Some (line ifToken))))) /\
  (forall condition,
     MiniParser.parseCondition tokens fuel (S pos) = Ok (condition, p1) ->
     MiniParser.parseIfStatement tokens (S fuel) pos
       = Throw (ExpectedIndentedBlock "if" (Some (line ifToken))) /\
     (forall statements,
        MiniParser.parseBlockLoop tokens (S (S (S fuel))) statements pos
          = Throw (ExpectedIndentedBlock "if" (Some (line ifToken)))) /\
     (forall statements,
        MiniParser.parseLoop tokens (S (S (S fuel))) statements pos
          = Throw (ExpectedIndentedBlock "if" (Some (line ifToken))))).
Proof.
  intros Hif Hk Hcolon Hno.
  assert (Hpeek : peekType tokens pos = IF) by (eapply peek_if; eauto).
  split; intros condition Hc; (split; [|split]).
  - eapply Parser_parseIf_fails; eauto.
  - intros statements. cbn [Parser.parseBlockLoop].
    rewrite !peekIsType_false by (rewrite Hpeek; discriminate). cbn [orb].
    now rewrite (Parser_statement_fails tokens pos ifToken p1 Hif Hk Hcolon Hno
                   fuel condition Hc).
  - intros statements. cbn [Parser.parseLoop].
    rewrite peekIsType_false by (rewrite Hpeek; discriminate).
    now rewrite (Parser_statement_fails tokens pos ifToken p1 Hif Hk Hcolon Hno
                   fuel condition Hc).
  - eapply MiniParser_parseIf_fails; eauto.
  - intros statements. cbn [MiniParser.parseBlockLoop].
    rewrite !peekIsType_false by (rewrite Hpeek; discriminate). cbn [orb].
    now rewrite (MiniParser_statement_fails tokens pos ifToken p1 Hif Hk Hcolon Hno
                   fuel condition Hc).
  - intros statements. cbn [MiniParser.parseLoop].
    rewrite peekIsType_false by (rewrite Hpeek; discriminate).
    now rewrite (MiniParser_statement_fails tokens pos ifToken p1 Hif Hk Hcolon Hno
                   fuel condition Hc).
Qed.

(** The scripts of the specification: the line after [if cond():] at the
    same level, and (inside a block) at a shallower one. *)
Lemma missing_block_examples :
  Parser.parseScript 10 ifSameLevelScript
    = Throw (ExpectedIndentedBlock "if" (Some 1)) /\
  Parser.parseScript 10 ifDedentedScript
    = Throw (ExpectedIndentedBlock "if" (Some 2)) /\
  MiniParser.parseSource 10 ifSameLevelScript
    = MiniParser.Parsed_ (Throw (ExpectedIndentedBlock "if" (Some 1))) /\
  MiniParser.parseSource 10 forIfDedentedScript
    = MiniParser.Parsed_ (Throw (ExpectedIndentedBlock "if" (Some 2))).
Proof. repeat split; vm_compute; reflexivity. Qed.

Lemma ifSameLevelScript_tokens :
  Lexer.tokenize ifSameLevelScript = inl ifSameLevelTokens /\
  MiniLexer.tokenize ifSameLevelScript = inl ifSameLevelTokens.
Proof. split; vm_compute; reflexivity. Qed.

Lemma C8_witness :
  (Parser.parseCondition ifSameLevelTokens 3 1 = Ok (Parser.Call "cond" [] 1, 4) /\
   Parser.parseIf ifSameLevelTokens 4 0
     = Throw (ExpectedIndentedBlock "if" (Some 1)) /\
   Parser.parseLoop ifSameLevelTokens 6 [] 0
     = Throw (ExpectedIndentedBlock "if" (Some 1))) /\
  (MiniParser.parseCondition ifSameLevelTokens 3 1
     = Ok (MiniParser.Call "cond" [] 1, 4) /\
   MiniParser.parseIfStatement ifSameLevelTokens 4 0
     = Throw (ExpectedIndentedBlock "if" (Some 1)) /\
   MiniParser.parseLoop ifSameLevelTokens 6 [] 0
     = Throw (ExpectedIndentedBlock "if" (Some 1))).
Proof.
  destruct (C8_if_without_indented_block_is_a_syntax_error ifSameLevelTokens 0 4 3
              (mkToken IF (TextValue "if") 1 1)
              eq_refl eq_refl eq_refl
              ltac:(vm_compute; discriminate)) as [HP HM].
  destruct (HP (Parser.Call "cond" [] 1) eq_refl) as (P1 & _ & P3).
  destruct (HM (MiniParser.Call "cond" [] 1) eq_refl) as (M1 & _ & M3).
  split; (split; [reflexivity|]); split; auto.
Defined.

End MissingBlockFacts.

(** ** C5: the count of [repeat] and the bound of [for] *)

Module CountFacts.

(** Opens the next [bind] of a parser equation that ended in [Ok]. *)
Ltac open_bind H :=
  match type of H with
  | bind ?m _ = Ok _ =>
      let r := fresh "r" in
      let E := fresh "E" in
      destruct m as [r| |] eqn:E; cbn [bind] in H; [|discriminate H..];
      try (destruct r as [? ?])
  end.

Lemma floor_is_truncate_from_zero_up (q : Q) : (0 <= q)%Q -> Qfloor q = truncate q.
Proof.
  intros Hq. unfold truncate.
  destruct (Qle_bool 0 q) eqn:E; [reflexivity|].
  apply Qle_bool_iff in Hq. congruence.
Qed.

Lemma Parser_parseRepeat_count (tokens : list Token) (fuel pos : nat)
    (node : Parser.Node) (p : nat) :
  Parser.parseRepeat tokens fuel pos = Ok (node, p) ->
  exists countToken body ln,
    at_ tokens (S (S pos)) = Some countToken /\
    type countToken = NUMBER /\
    node = Parser.Repeat (Qfloor (numOf (value countToken))) body ln.
Proof.
  destruct fuel as [|f]; [discriminate|]. cbn [Parser.parseRepeat]. intros Hr.
  open_bind Hr. apply expect_Ok in E as (_ & _ & ->).
  open_bind Hr. apply expect_Ok in E as (Hat & Hty & ->).
  open_bind Hr. open_bind Hr. open_bind Hr. open_bind Hr. open_bind Hr.
  injection Hr as <- <-. eauto 6.
Qed.

Lemma Parser_parseRepeat_needs_number (tokens : list Token) (fuel pos : nat) :
  peekType tokens (S pos) = LPAREN ->
  peekType tokens (S (S pos)) <> NUMBER ->
  Parser.parseRepeat tokens (S fuel) pos
    = Throw (Expected "Expected number in repeat"
               (peekLine tokens (S (S pos))) (peekCol tokens (S (S pos)))
               (peekType tokens (S (S pos)))).
Proof.
  intros Hl Hn. cbn [Parser.parseRepeat].
  destruct (expect_present tokens LPAREN "Expected ( after repeat" (S pos) Hl
              ltac:(discriminate)) as (t & _ & _ & E).
  rewrite E. cbn [bind]. now rewrite expect_absent.
Qed.

Lemma MiniParser_parseForLoop_count (tokens : list Token) (fuel pos : nat)
    (node : MiniParser.Node) (p : nat) :
  MiniParser.parseForLoop tokens fuel pos = Ok (node, p) ->
  exists variable countToken body ln,
    at_ tokens (5 + pos) = Some countToken /\
    type countToken = NUMBER /\
    node = MiniParser.ForLoop variable (numOf (value countToken)) body ln.
Proof.
  destruct fuel as [|f]; [discriminate|]. cbn [MiniParser.parseForLoop]. intros Hr.
  open_bind Hr. apply expect_Ok in E as (_ & _ & ->).
  open_bind Hr. apply expect_Ok in E as (_ & _ & ->).
  open_bind Hr. apply expect_Ok in E as (_ & _ & ->).
  open_bind Hr. apply expect_Ok in E as (_ & _ & ->).
  open_bind Hr. apply expect_Ok in E as (Hat & Hty & ->).
  open_bind Hr. open_bind Hr. open_bind Hr. open_bind Hr. open_bind Hr.
  injection Hr as <- <-. eauto 7.
Qed.

Lemma MiniParser_parseForLoop_needs_number (tokens : list Token) (fuel pos : nat) :
  peekType tokens (1 + pos) = IDENTIFIER ->
  peekType tokens (2 + pos) = IN ->
  peekType tokens (3 + pos) = RANGE ->
  peekType tokens (4 + pos) = LPAREN ->
  peekType tokens (5 + pos) <> NUMBER ->
  MiniParser.parseForLoop tokens (S fuel) pos
    = Throw (Expected "Expected number in range()"
               (peekLine tokens (5 + pos)) (peekCol tokens (5 + pos))
               (peekType tokens (5 + pos))).
Proof.
  intros H1 H2 H3 H4 Hn. cbn [MiniParser.parseForLoop].
  destruct (expect_present tokens IDENTIFIER "Expected variable name after for"
              _ H1 ltac:(discriminate)) as (t1 & _ & _ & E1).
  destruct (expect_present tokens IN "Expected in after loop variable"
              _ H2 ltac:(discriminate)) as (t2 & _ & _ & E2).
  destruct (expect_present tokens RANGE "Expected range after in"
              _ H3 ltac:(discriminate)) as (t3 & _ & _ & E3).
  destruct (expect_present tokens LPAREN "Expected ( after range"
              _ H4 ltac:(discriminate)) as (t4 & _ & _ & E4).
  cbn [Nat.add] in *.
  rewrite E1. cbn [bind]. rewrite E2. cbn [bind]. rewrite E3. cbn [bind].
  rewrite E4. cbn [bind]. now rewrite expect_absent.
Qed.

(** A NUMBER token of [MiniLexer] carries an integer: [readNumber] reads
    digits only and applies [parseInt]. *)
Lemma MiniLexer_number_is_integer (c : Cursor) :
  exists z : Z,
    value (fst (MiniLexer.readNumber c)) = NumValue (inject_Z z) /\
    truncate (inject_Z z) = z.
Proof.
  unfold MiniLexer.readNumber.
  destruct (if peekIs c minus then ([minus], advance c) else ([], c)) as [sign c1].
  destruct (takeWhile isDigit c1) as [ds c2]. simpl.
  eexists. split; [reflexivity|].
  unfold truncate.
  destruct (Qle_bool 0 (inject_Z (parseInt (sign ++ ds))));
    [apply Qfloor_Z | apply Qceiling_Z].
Qed.

(** In the mini-language [3.9] is not one NUMBER: [MiniLexer] reads [3],
    skips the dot and reads [9], and [parseForLoop] fails at the second
    number. *)
Lemma for_with_fraction_does_not_parse :
  MiniParser.parseSource 8 fractionalForScript
    = MiniParser.Parsed_
        (Throw (Expected "Expected ) after range argument" (Some 1) (Some 18) NUMBER)).
Proof. vm_compute. reflexivity. Qed.

(** [repeat(-2.5)] stores -3, where truncation toward zero gives -2. *)
Lemma C5_counterexample :
  Lexer.tokenize negativeRepeatScript = inl negativeRepeatTokens /\
  option_map value (at_ negativeRepeatTokens 2) = Some (NumValue (-25 # 10)%Q) /\
  Parser.parseScript 8 negativeRepeatScript
    = Ok (Parser.Program [Parser.Repeat (-3) [Parser.Call "a" [] 2] 1]) /\
  truncate (-25 # 10)%Q = (-2)%Z /\
  ~ (exists body ln,
       Parser.parseScript 8 negativeRepeatScript
         = Ok (Parser.Program [Parser.Repeat (truncate (-25 # 10)%Q) body ln])).
Proof.
  repeat split; try (vm_compute; reflexivity).
  intros (body & ln & E). vm_compute in E. discriminate.
Qed.

(** C5, as amended.  [parseRepeat] stores the floor of the NUMBER token in
    count position - the truncation toward zero for counts from zero up
    (3.9 gives 3), one less than it for negative fractions.  [parseForLoop]
    stores the NUMBER token's value as it is, and [MiniLexer] only makes
    integer NUMBER tokens.  In both, a token of another kind in that
    position is the SyntaxError "Expected number ...". *)
Theorem C5_repeat_count_is_floored_and_for_bound_is_stored :
  (forall tokens fuel pos node p,
     Parser.parseRepeat tokens fuel pos = Ok (node, p) ->
     exists countToken body ln,
       at_ tokens (S (S pos)) = Some countToken /\
       type countToken = NUMBER /\
       node = Parser.Repeat (Qfloor (numOf (value countToken))) body ln /\
       ((0 <= numOf (value countToken))%Q ->
        Qfloor (numOf (value countToken)) = truncate (numOf (value countToken)))) /\
  (forall tokens fuel pos,
     peekType tokens (S pos) = LPAREN ->
     peekType tokens (S (S pos)) <> NUMBER ->
     Parser.parseRepeat tokens (S fuel) pos
       = Throw (Expected "Expected number in repeat"
                  (peekLine tokens (S (S pos))) (peekCol tokens (S (S pos)))
                  (peekType tokens (S (S pos))))) /\
  (forall tokens fuel pos node p,
     MiniParser.parseForLoop tokens fuel pos = Ok (node, p) ->
     exists variable countToken body ln,
       at_ tokens (5 + pos) = Some countToken /\
       type countToken = NUMBER /\
       node = MiniParser.ForLoop variable (numOf (value countToken)) body ln) /\
  (forall tokens fuel pos,
     peekType tokens (1 + pos) = IDENTIFIER ->
     peekType tokens (2 + pos) = IN ->
     peekType tokens (3 + pos) = RANGE ->
     peekType tokens (4 + pos) = LPAREN ->
     peekType tokens (5 + pos) <> NUMBER ->
     MiniParser.parseForLoop tokens (S fuel) pos
       = Throw (Expected "Expected number in range()"
                  (peekLine tokens (5 + pos)) (peekCol tokens (5 + pos))
                  (peekType tokens (5 + pos)))) /\
  (forall c : Cursor,
     exists z : Z,
       value (fst (MiniLexer.readNumber c)) = NumValue (inject_Z z) /\
       truncate (inject_Z z) = z).
Proof.
  split; [|split; [|split; [|split]]].
  - intros tokens fuel pos node p Hr.
    destruct (Parser_parseRepeat_count tokens fuel pos node p Hr)
      as (countToken & body & ln & Hat & Hty & ->).
    exists countToken, body, ln.
    repeat split; auto using floor_is_truncate_from_zero_up.
  - apply Parser_parseRepeat_needs_number.
  - apply MiniParser_parseForLoop_count.
  - apply MiniParser_parseForLoop_needs_number.
  - apply MiniLexer_number_is_integer.
Qed.

Lemma C5_witness :
  Parser.parseRepeat positiveRepeatTokens 6 0
    = Ok (Parser.Repeat 3 [Parser.Call "a" [] 2] 1, 11) /\
  exists countToken body ln,
    at_ positiveRepeatTokens 2 = Some countToken /\
    type countToken = NUMBER /\
    Parser.Repeat 3 [Parser.Call "a" [] 2] 1
      = Parser.Repeat (Qfloor (numOf (value countToken))) body ln /\
    ((0 <= numOf (value countToken))%Q ->
     Qfloor (numOf (value countToken)) = truncate (numOf (value countToken))).
Proof.
  split; [reflexivity|].
  apply (proj1 C5_repeat_count_is_floored_and_for_bound_is_stored
           positiveRepeatTokens 6 0 (Parser.Repeat 3 [Parser.Call "a" [] 2] 1) 11).
  reflexivity.
Defined.

End CountFacts.

(** ** C9: the structure of the token list *)

Module NestingFacts.

Lemma countType_app (ty : TokenType) (a b : list Token) :
  countType ty (a ++ b) = countType ty a + countType ty b.
Proof. unfold countType. now rewrite filter_app, length_app. Qed.

Lemma countType_repeat_same (ty : TokenType) (ln cl n : nat) :
  countType ty (repeat (punct ty ln cl) n) = n.
Proof.
  unfold countType. induction n as [|n IH]; simpl; [reflexivity|].
  replace (TokenType_eqb ty ty) with true by (symmetry; now apply TokenType_eqb_eq).
  simpl. now rewrite IH.
Qed.

Lemma countType_repeat_other (ty ty' : TokenType) (ln cl n : nat) :
  ty' <> ty -> countType ty (repeat (punct ty' ln cl) n) = 0.
Proof.
  intros N. unfold countType. induction n as [|n IH]; simpl; [reflexivity|].
  replace (TokenType_eqb ty' ty) with false
    by (symmetry; now apply TokenType_eqb_neq).
  exact IH.
Qed.

Lemma countType_single (ty : TokenType) (t : Token) :
  countType ty [t] = if TokenType_eqb (type t) ty then 1 else 0.
Proof. unfold countType. simpl. now destruct (TokenType_eqb (type t) ty). Qed.

Lemma countType_firstn_le (ty : TokenType) (n : nat) (l : list Token) :
  countType ty (firstn n l) <= countType ty l.
Proof.
  rewrite <- (firstn_skipn n l) at 2. rewrite countType_app. lia.
Qed.

(** Appending [ts] to a well-nested list keeps it well nested when no prefix
    of [ts] closes more than is open at that point. *)
Lemma wellNested_app (l ts : list Token) :
  wellNested l ->
  (forall n, countType DEDENT l + countType DEDENT (firstn n ts)
             <= countType INDENT l + countType INDENT (firstn n ts)) ->
  wellNested (l ++ ts).
Proof.
  intros Hl Hts n. rewrite firstn_app.
  destruct (Nat.le_gt_cases n (List.length l)) as [Hn|Hn].
  - replace (n - List.length l) with 0 by lia. simpl. rewrite app_nil_r. apply Hl.
  - rewrite firstn_all2 by lia. rewrite !countType_app. apply Hts.
Qed.

Lemma balanced_setCur (st : LexState) (c : Cursor) :
  balanced st -> balanced (setCur st c).
Proof. auto. Qed.

Lemma balanced_setLineStart (st : LexState) (b : bool) :
  balanced st -> balanced (setLineStart st b).
Proof. auto. Qed.

(** A token that is neither INDENT nor DEDENT changes nothing. *)
Lemma balanced_push_plain (st : LexState) (t : Token) :
  type t <> INDENT -> type t <> DEDENT ->
  balanced st -> balanced (push st [t]).
Proof.
  intros Hi Hd (Hw & Hc & Hl). unfold balanced, push; simpl.
  assert (Ci : countType INDENT [t] = 0)
    by (rewrite countType_single; now rewrite (proj2 (TokenType_eqb_neq _ _) Hi)).
  assert (Cd : countType DEDENT [t] = 0)
    by (rewrite countType_single; now rewrite (proj2 (TokenType_eqb_neq _ _) Hd)).
  repeat split; [| rewrite !countType_app; lia | exact Hl].
  apply wellNested_app; [exact Hw|]. intros n.
  pose proof (countType_firstn_le DEDENT n [t]).
  pose proof (Hw (List.length (tokens st))) as Hall.
  rewrite firstn_all in Hall. lia.
Qed.

Lemma popIndents_length (indent : nat) (stack : list nat) :
  let '(n, s) := popIndents indent stack in
  List.length s + n = List.length stack /\ (1 <= List.length stack -> 1 <= List.length s).
Proof.
  induction stack as [|t below IH]; simpl; [lia|].
  destruct below as [|b below']; [simpl; lia|].
  destruct (indent <? t)%nat; [|simpl; lia].
  destruct (popIndents indent (b :: below')) as [n s].
  simpl in *. lia.
Qed.

Lemma firstn_repeat {A : Type} (a : A) (n k : nat) :
  firstn n (repeat a k) = repeat a (Nat.min n k).
Proof.
  revert k. induction n as [|n IH]; intros [|k]; simpl; try reflexivity.
  now rewrite IH.
Qed.

(** Closing [n] of the open levels. *)
Lemma balanced_push_dedents (st : LexState) (stack' : list nat) (ln cl n : nat) :
  List.length stack' + n = List.length (indentStack st) ->
  1 <= List.length stack' ->
  balanced st ->
  balanced (push (setStack st stack') (repeat (punct DEDENT ln cl) n)).
Proof.
  intros Hlen Hne (Hw & Hc & Hl). unfold balanced, push, setStack; simpl.
  repeat split.
  - apply wellNested_app; [exact Hw|]. intros k.
    rewrite firstn_repeat, countType_repeat_same.
    rewrite countType_repeat_other by discriminate. lia.
  - rewrite !countType_app, countType_repeat_same.
    rewrite countType_repeat_other by discriminate. lia.
  - exact Hne.
Qed.

Lemma balanced_push_indent (st : LexState) (indent ln cl : nat) :
  balanced st ->
  balanced (push (setStack st (indent :: indentStack st)) [punct INDENT ln cl]).
Proof.
  intros (Hw & Hc & Hl). unfold balanced, push, setStack; simpl.
  repeat split.
  - apply wellNested_app; [exact Hw|]. intros n.
    pose proof (countType_firstn_le DEDENT n [punct INDENT ln cl]) as Hd.
    change (countType DEDENT [punct INDENT ln cl]) with 0 in Hd.
    pose proof (Hw (List.length (tokens st))) as Hall.
    rewrite firstn_all in Hall. lia.
  - rewrite !countType_app.
    change (countType INDENT [punct INDENT ln cl]) with 1.
    change (countType DEDENT [punct INDENT ln cl]) with 0. lia.
  - lia.
Qed.

Section Loop.

Variable strict : bool.
Variable readLexeme : Cursor -> option (Token * Cursor).

(** The literal readers never make a structural token. *)
Hypothesis readLexeme_plain :
  forall c t c', readLexeme c = Some (t, c') -> type t <> INDENT /\ type t <> DEDENT.

Lemma openLine_balanced (indent : nat) (st st' : LexState) :
  balanced st ->
  (openLine strict indent st = Continue st' \/ openLine strict indent st = Break st') ->
  balanced st'.
Proof.
  intros Hb. unfold openLine.
  destruct (top (indentStack st) <? indent)%nat.
  - intros [[= <-]|[=]]. apply balanced_setLineStart. now apply balanced_push_indent.
  - destruct (indent <? top (indentStack st))%nat.
    + pose proof (popIndents_length indent (indentStack st)) as Hp.
      destruct (popIndents indent (indentStack st)) as [n stack'].
      destruct Hp as [Hlen Hne].
      destruct (strict && negb (top stack' =? indent)%nat && (0 <? List.length stack')%nat);
        intros [[= <-]|[=]].
      apply balanced_setLineStart. apply balanced_push_dedents; auto.
      apply Hne. apply Hb.
    + intros [[= <-]|[=]]. now apply balanced_setLineStart.
Qed.

Lemma scan_balanced (st : LexState) :
  balanced st -> balanced (scan readLexeme st).
Proof.
  intros Hb. unfold scan.
  destruct (rest (cur st)) as [|ch r]; [exact Hb|].
  repeat match goal with
         | |- balanced (if ?c then _ else _) => destruct c
         end;
    try (apply balanced_setCur; exact Hb);
    try (apply balanced_setLineStart);
    try (apply balanced_setCur; apply balanced_push_plain;
         [discriminate | discriminate | exact Hb]).
  destruct (readLexeme (cur st)) as [[t c']|] eqn:E.
  - destruct (readLexeme_plain _ _ _ E).
    apply balanced_setCur. now apply balanced_push_plain.
  - now apply balanced_setCur.
Qed.

Lemma iteration_balanced (st st' : LexState) :
  balanced st ->
  (iteration strict readLexeme st = Continue st' \/
   iteration strict readLexeme st = Break st') ->
  balanced st'.
Proof.
  intros Hb. unfold iteration.
  destruct (atLineStart st).
  - destruct (measureIndent (cur st)) as [indent c1].
    destruct (peekIs c1 nl || peekIs c1 hash).
    + intros [[= <-]|[=]]. now apply balanced_setCur.
    + destruct (rest c1) as [|ch r].
      * intros [[=]|[= <-]]. now apply balanced_setCur.
      * destruct (openLine strict indent (setCur st c1)) as [st1|st1|ln] eqn:E.
        -- intros [[= <-]|[=]]. apply scan_balanced.
           eapply openLine_balanced; [|left; exact E]. now apply balanced_setCur.
        -- intros [[=]|[= <-]].
           eapply openLine_balanced; [|right; exact E]. now apply balanced_setCur.
        -- intros [[=]|[=]].
  - intros [[= <-]|[=]]. now apply scan_balanced.
Qed.

Lemma loop_balanced (fuel : nat) :
  forall st st',
    balanced st ->
    (loop strict readLexeme fuel st = Continue st' \/
     loop strict readLexeme fuel st = Break st') ->
    balanced st'.
Proof.
  induction fuel as [|f IH]; intros st st' Hb; simpl.
  - intros [[=]|[= <-]]. exact Hb.
  - destruct (rest (cur st)) as [|ch r]; [intros [[=]|[= <-]]; exact Hb|].
    destruct (iteration strict readLexeme st) as [st1|st1|ln] eqn:E.
    + apply IH. eapply iteration_balanced; [exact Hb | left; exact E].
    + intros [[=]|[= <-]]. eapply iteration_balanced; [exact Hb | right; exact E].
    + intros [[=]|[=]].
Qed.

Lemma initial_balanced (source : list ascii) : balanced (initial source).
Proof.
  unfold balanced, initial; simpl. repeat split; try lia.
  intros n. now rewrite firstn_nil.
Qed.

Lemma flush_structured (st : LexState) : balanced st -> structured (flush st).
Proof.
  intros (Hw & Hc & Hl). unfold flush.
  set (ds := repeat _ _). set (eof := punct EOF _ _).
  assert (Cd : countType DEDENT ds = List.length (indentStack st) - 1)
    by apply countType_repeat_same.
  assert (Ci : countType INDENT ds = 0)
    by (apply countType_repeat_other; discriminate).
  repeat split.
  - destruct (tokens st); [destruct ds|]; discriminate.
  - unfold lastType. rewrite app_assoc, map_app. simpl. now rewrite last_last.
  - rewrite !countType_app, Ci, Cd.
    change (countType INDENT [eof]) with 0. change (countType DEDENT [eof]) with 0.
    lia.
  - apply wellNested_app; [exact Hw|]. intros n.
    rewrite firstn_app, !countType_app.
    pose proof (countType_firstn_le INDENT n ds).
    pose proof (countType_firstn_le DEDENT n ds).
    pose proof (countType_firstn_le DEDENT (n - List.length ds) [eof]) as He.
    change (countType DEDENT [eof]) with 0 in He. lia.
Qed.

Lemma tokenizeWith_structured (source : list ascii) (toks : list Token) :
  tokenizeWith strict readLexeme source = inl toks -> structured toks.
Proof.
  unfold tokenizeWith.
  destruct (loop strict readLexeme (S (List.length source)) (initial source))
    as [st|st|ln] eqn:E; intros [= <-];
    apply flush_structured;
    eapply loop_balanced; eauto using initial_balanced.
Qed.

End Loop.

Lemma keywords_plain (s : string) :
  Lexer.keywords s <> INDENT /\ Lexer.keywords s <> DEDENT.
Proof.
  unfold Lexer.keywords.
  repeat match goal with |- context [if ?c then _ else _] => destruct c end;
    split; discriminate.
Qed.

Lemma mini_keywords_plain (s : string) :
  MiniLexer.keywords s <> INDENT /\ MiniLexer.keywords s <> DEDENT.
Proof.
  unfold MiniLexer.keywords.
  repeat match goal with |- context [if ?c then _ else _] => destruct c end;
    split; discriminate.
Qed.

Lemma Lexer_readLexeme_plain (c : Cursor) (t : Token) (c' : Cursor) :
  Lexer.readLexeme c = Some (t, c') -> type t <> INDENT /\ type t <> DEDENT.
Proof.
  unfold Lexer.readLexeme. destruct (rest c) as [|ch r]; [discriminate|].
  destruct (ch_eq ch dquote || ch_eq ch squote).
  - unfold Lexer.readString.
    destruct (Lexer.readStringBody _ _ _ _ _) as [v c1].
    intros [= <- _]. split; discriminate.
  - destruct (isDigit ch || (ch_eq ch minus && Lexer.nextIsDigit c)).
    + unfold Lexer.readNumber.
      destruct (if peekIs c minus then _ else _) as [sign c1].
      destruct (takeWhile isDigit c1) as [ip c2].
      destruct (if peekIs c2 dot && Lexer.nextIsDigit c2 then _ else _) as [fp c3].
      intros [= <- _]. split; discriminate.
    + destruct (isAlpha ch || ch_eq ch underscore); [|discriminate].
      unfold Lexer.readIdentifier.
      destruct (takeWhile isAlphaNumeric c) as [v c1].
      intros [= <- _]. apply keywords_plain.
Qed.

Lemma MiniLexer_readLexeme_plain (c : Cursor) (t : Token) (c' : Cursor) :
  MiniLexer.readLexeme c = Some (t, c') -> type t <> INDENT /\ type t <> DEDENT.
Proof.
  unfold MiniLexer.readLexeme. destruct (rest c) as [|ch r]; [discriminate|].
  destruct (isDigit ch || (ch_eq ch minus && Lexer.nextIsDigit c)).
  - unfold MiniLexer.readNumber.
    destruct (if peekIs c minus then _ else _) as [sign c1].
    destruct (takeWhile isDigit c1) as [ds c2].
    intros [= <- _]. split; discriminate.
  - destruct (isAlpha ch || ch_eq ch underscore); [|discriminate].
    unfold MiniLexer.readIdentifier.
    destruct (takeWhile isAlphaNumeric c) as [v c1].
    intros [= <- _]. apply mini_keywords_plain.
Qed.

(** C9. Whenever [Lexer.tokenize] or [MiniLexer.tokenize] returns a token
    list, the list is not empty, ends in EOF, has as many INDENT as DEDENT
    tokens, and none of its prefixes has more DEDENT than INDENT tokens. *)
Theorem C9_tokens_are_well_nested_and_end_in_EOF (source : string) (toks : list Token) :
  Lexer.tokenize source = inl toks \/ MiniLexer.tokenize source = inl toks ->
  toks <> [] /\
  lastType toks = Some EOF /\
  countType INDENT toks = countType DEDENT toks /\
  wellNested toks.
Proof.
  intros [E|E].
  - exact (tokenizeWith_structured false Lexer.readLexeme Lexer_readLexeme_plain
             (text source) toks E).
  - exact (tokenizeWith_structured true MiniLexer.readLexeme MiniLexer_readLexeme_plain
             (text source) toks E).
Qed.

Lemma C9_witness :
  indentedTokens <> [] /\
  lastType indentedTokens = Some EOF /\
  countType INDENT indentedTokens = countType DEDENT indentedTokens /\
  wellNested indentedTokens.
Proof.
  apply (C9_tokens_are_well_nested_and_end_in_EOF indentedScript indentedTokens).
  left. reflexivity.
Defined.

End NestingFacts.

(** ** The lexer model returns what the source returns

    Two facts about the model of [tokenize] itself: [Lexer] never throws,
    and the turn budget of [loop] is never what ends it - every turn
    consumes a character, so a larger budget gives the same result. *)

Module LoopFacts.

Lemma advanceWhile_shorter (p : ascii -> bool) (s : list ascii) :
  forall ln cl,
    List.length (rest (snd (advanceWhile p s ln cl))) <= List.length s /\
    (match s with
     | ch :: _ => p ch = true
     | [] => False
     end -> List.length (rest (snd (advanceWhile p s ln cl))) < List.length s).
Proof.
  induction s as [|ch r IH]; intros ln cl; simpl; [split; [lia|tauto]|].
  destruct (p ch) eqn:E.
  - destruct (IH (lineAfter ch ln) (colAfter ch cl)) as [Hle _].
    destruct (advanceWhile p r (lineAfter ch ln) (colAfter ch cl)) as [taken c'].
    simpl in *. split; intros; lia.
  - simpl. split; [lia | congruence].
Qed.

Lemma takeWhile_le (p : ascii -> bool) (c : Cursor) :
  List.length (rest (snd (takeWhile p c))) <= List.length (rest c).
Proof. apply advanceWhile_shorter. Qed.

Lemma takeWhile_lt (p : ascii -> bool) (c : Cursor) (ch : ascii) (r : list ascii) :
  rest c = ch :: r -> p ch = true ->
  List.length (rest (snd (takeWhile p c))) < List.length (rest c).
Proof.
  intros E Hp. unfold takeWhile.
  apply advanceWhile_shorter. now rewrite E.
Qed.

Lemma advance_lt (c : Cursor) (ch : ascii) (r : list ascii) :
  rest c = ch :: r -> List.length (rest (advance c)) < List.length (rest c).
Proof. intros E. unfold advance. rewrite E. simpl. lia. Qed.

Lemma advance_le (c : Cursor) : List.length (rest (advance c)) <= List.length (rest c).
Proof. unfold advance. destruct (rest c); simpl; lia. Qed.

Lemma peekIs_head (c : Cursor) (x : ascii) :
  peekIs c x = true -> exists r, rest c = x :: r.
Proof.
  unfold peekIs, peek. destruct (rest c) as [|ch r]; simpl; [discriminate|].
  intros E. apply Ascii.eqb_eq in E. subst. eauto.
Qed.

Section Loop.

Variable strict : bool.
Variable readLexeme : Cursor -> option (Token * Cursor).

Hypothesis readLexeme_consumes :
  forall c t c', readLexeme c = Some (t, c') ->
                 List.length (rest c') < List.length (rest c).

Lemma openLine_cur (indent : nat) (st st' : LexState) :
  openLine strict indent st = Continue st' -> cur st' = cur st.
Proof.
  unfold openLine.
  destruct (top (indentStack st) <? indent)%nat; [now intros [= <-]|].
  destruct (indent <? top (indentStack st))%nat; [|now intros [= <-]].
  destruct (popIndents indent (indentStack st)) as [n stack'].
  destruct (strict && negb (top stack' =? indent)%nat && (0 <? List.length stack')%nat);
    [discriminate | now intros [= <-]].
Qed.

Lemma scan_consumes (st : LexState) (ch : ascii) (r : list ascii) :
  rest (cur st) = ch :: r ->
  List.length (rest (cur (scan readLexeme st))) < List.length (rest (cur st)).
Proof.
  intros E.
  remember (List.length (rest (cur st))) as n eqn:Hlen.
  unfold scan. rewrite E.
  destruct (isBlank ch) eqn:Hb.
  { simpl. rewrite Hlen. eapply takeWhile_lt; eauto. }
  destruct (ch_eq ch nl) eqn:Hn.
  { simpl. rewrite Hlen. eapply advance_lt; eauto. }
  destruct (ch_eq ch hash) eqn:Hh.
  { simpl. rewrite Hlen. eapply takeWhile_lt; eauto. now rewrite Hn. }
  repeat match goal with
         | |- context [if ?c then _ else _] =>
             destruct c; [simpl; rewrite Hlen; eapply advance_lt; eauto|]
         end.
  destruct (readLexeme (cur st)) as [[t c']|] eqn:L; simpl; rewrite Hlen.
  - eapply readLexeme_consumes; eauto.
  - eapply advance_lt; eauto.
Qed.

Lemma iteration_consumes (st st' : LexState) (ch : ascii) (r : list ascii) :
  rest (cur st) = ch :: r ->
  iteration strict readLexeme st = Continue st' ->
  List.length (rest (cur st')) < List.length (rest (cur st)).
Proof.
  intros E. unfold iteration.
  destruct (atLineStart st).
  - pose proof (takeWhile_le isBlank (cur st)) as Hm.
    unfold measureIndent.
    destruct (takeWhile isBlank (cur st)) as [blanks c1]. simpl in Hm.
    destruct (peekIs c1 nl || peekIs c1 hash) eqn:Hp.
    + intros [= <-]. simpl.
      destruct (peekIs c1 hash) eqn:Hh.
      * destruct (peekIs_head _ _ Hh) as [r1 E1].
        pose proof (takeWhile_lt (fun ch => negb (ch_eq ch nl)) c1 hash r1 E1 eq_refl).
        fold (skipComment c1) in H.
        destruct (peekIs (skipComment c1) nl);
          [pose proof (advance_le (skipComment c1))|]; lia.
      * rewrite orb_false_r in Hp. rewrite Hp.
        destruct (peekIs_head _ _ Hp) as [r1 E1].
        pose proof (advance_lt c1 nl r1 E1). lia.
    + destruct (rest c1) as [|ch1 r1] eqn:E1; [discriminate|].
      destruct (openLine strict (list_sum (map indentUnits blanks)) (setCur st c1))
        as [st1|st1|ln] eqn:O; try discriminate.
      intros [= <-].
      pose proof (openLine_cur _ _ _ O) as Hc. simpl in Hc.
      assert (E1' : rest (cur st1) = ch1 :: r1) by (now rewrite Hc).
      pose proof (scan_consumes st1 ch1 r1 E1').
      rewrite Hc, E1 in H. simpl in *. lia.
  - intros [= <-]. eapply scan_consumes; eauto.
Qed.

(** The budget does not matter once it exceeds the characters left. *)
Lemma loop_fuel_irrelevant (n : nat) :
  forall m st,
    List.length (rest (cur st)) < n ->
    List.length (rest (cur st)) < m ->
    loop strict readLexeme n st = loop strict readLexeme m st.
Proof.
  induction n as [|n IH]; intros m st Hn Hm; [lia|].
  destruct m as [|m]; [lia|]. simpl.
  destruct (rest (cur st)) as [|ch r] eqn:E; [reflexivity|].
  destruct (iteration strict readLexeme st) as [st1|st1|ln] eqn:I; try reflexivity.
  pose proof (iteration_consumes st st1 ch r E I) as Hlt.
  rewrite E in Hlt. simpl in Hn, Hm, Hlt.
  apply IH; lia.
Qed.

Lemma tokenizeWith_budget (source : list ascii) (extra : nat) :
  loop strict readLexeme (S (List.length source) + extra) (initial source)
  = loop strict readLexeme (S (List.length source)) (initial source).
Proof. apply loop_fuel_irrelevant; simpl; lia. Qed.

End Loop.

Lemma readStringBody_le (quote : ascii) (s : list ascii) :
  forall ln cl acc,
    List.length (rest (snd (Lexer.readStringBody quote s ln cl acc))) <= List.length s.
Proof.
  induction s as [s IH] using (well_founded_induction
                                 (well_founded_ltof _ (@List.length ascii))).
  intros ln cl acc. destruct s as [|ch r]; simpl; [lia|].
  destruct (ch_eq ch quote || ch_eq ch nl); [simpl; lia|].
  destruct (ch_eq ch backslash).
  - destruct r as [|e r']; [simpl; lia|].
    specialize (IH r' ltac:(unfold ltof; simpl; lia)
                  (lineAfter e ln) (colAfter e (S cl)) (acc ++ [Lexer.escape quote e])).
    simpl. lia.
  - specialize (IH r ltac:(unfold ltof; simpl; lia)
                  (lineAfter ch ln) (colAfter ch cl) (acc ++ [ch])).
    lia.
Qed.

Lemma Lexer_readNumber_consumes (c : Cursor) (ch : ascii) (r : list ascii) :
  rest c = ch :: r ->
  isDigit ch || (ch_eq ch minus && Lexer.nextIsDigit c) = true ->
  List.length (rest (snd (Lexer.readNumber c))) < List.length (rest c).
Proof.
  intros E Hd. unfold Lexer.readNumber.
  assert (H1 : exists sign c1,
             (if peekIs c minus then ([minus], advance c) else ([], c)) = (sign, c1) /\
             List.length (rest (snd (takeWhile isDigit c1))) < List.length (rest c)).
  { destruct (peekIs c minus) eqn:Hm.
    - do 2 eexists. split; [reflexivity|].
      pose proof (takeWhile_le isDigit (advance c)).
      pose proof (advance_lt c ch r E). lia.
    - do 2 eexists. split; [reflexivity|].
      eapply takeWhile_lt; [exact E|].
      unfold peekIs, peek in Hm. rewrite E in Hm. simpl in Hm.
      rewrite Hm in Hd. simpl in Hd. now rewrite orb_false_r in Hd. }
  destruct H1 as (sign & c1 & -> & Hlt).
  destruct (takeWhile isDigit c1) as [ip c2]. simpl in Hlt.
  destruct (peekIs c2 dot && Lexer.nextIsDigit c2).
  - pose proof (takeWhile_le isDigit (advance c2)).
    pose proof (advance_le c2).
    destruct (takeWhile isDigit (advance c2)) as [ds c']. simpl in *. lia.
  - simpl. lia.
Qed.

Lemma readIdentifier_consumes (c : Cursor) (ch : ascii) (r : list ascii) :
  rest c = ch :: r ->
  isAlpha ch || ch_eq ch underscore = true ->
  List.length (rest (snd (takeWhile isAlphaNumeric c))) < List.length (rest c).
Proof.
  intros E Ha. eapply takeWhile_lt; [exact E|].
  unfold isAlphaNumeric.
  destruct (isAlpha ch); [reflexivity|]. simpl in Ha. rewrite Ha.
  now rewrite orb_true_r.
Qed.

Lemma Lexer_readLexeme_consumes (c : Cursor) (t : Token) (c' : Cursor) :
  Lexer.readLexeme c = Some (t, c') -> List.length (rest c') < List.length (rest c).
Proof.
  unfold Lexer.readLexeme. destruct (rest c) as [|ch r] eqn:E; [discriminate|].
  destruct (ch_eq ch dquote || ch_eq ch squote).
  - unfold Lexer.readString.
    pose proof (readStringBody_le ch (rest (advance c)) (cline (advance c))
                  (ccol (advance c)) []) as Hb.
    destruct (Lexer.readStringBody _ _ _ _ _) as [v c1]. simpl in Hb.
    intros [= _ <-].
    pose proof (advance_lt c ch r E). pose proof (advance_le c1).
    rewrite E in *. destruct (peekIs c1 ch); simpl in *; lia.
  - destruct (isDigit ch || (ch_eq ch minus && Lexer.nextIsDigit c)) eqn:Hd.
    + pose proof (Lexer_readNumber_consumes c ch r E Hd) as Hn.
      destruct (Lexer.readNumber c) as [t0 c0]. intros [= _ <-].
      simpl in Hn. now rewrite E in Hn.
    + destruct (isAlpha ch || ch_eq ch underscore) eqn:Ha; [|discriminate].
      pose proof (readIdentifier_consumes c ch r E Ha) as Hi.
      unfold Lexer.readIdentifier.
      destruct (takeWhile isAlphaNumeric c) as [v c1]. intros [= _ <-].
      simpl in Hi. now rewrite E in Hi.
Qed.

Lemma MiniLexer_readLexeme_consumes (c : Cursor) (t : Token) (c' : Cursor) :
  MiniLexer.readLexeme c = Some (t, c') -> List.length (rest c') < List.length (rest c).
Proof.
  unfold MiniLexer.readLexeme. destruct (rest c) as [|ch r] eqn:E; [discriminate|].
  destruct (isDigit ch || (ch_eq ch minus && Lexer.nextIsDigit c)) eqn:Hd.
  - unfold MiniLexer.readNumber.
    destruct (peekIs c minus) eqn:Hm.
    + pose proof (takeWhile_le isDigit (advance c)) as Hle.
      pose proof (advance_lt c ch r E).
      destruct (takeWhile isDigit (advance c)) as [ds c2]. intros [= _ <-].
      simpl in *. rewrite E in *. simpl in *. lia.
    + assert (Hdig : isDigit ch = true).
      { unfold peekIs, peek in Hm. rewrite E in Hm. simpl in Hm.
        rewrite Hm in Hd. simpl in Hd. now rewrite orb_false_r in Hd. }
      pose proof (takeWhile_lt isDigit c ch r E Hdig) as Hlt.
      destruct (takeWhile isDigit c) as [ds c2]. intros [= _ <-].
      simpl in Hlt. now rewrite E in Hlt.
  - destruct (isAlpha ch || ch_eq ch underscore) eqn:Ha; [|discriminate].
    pose proof (readIdentifier_consumes c ch r E Ha) as Hi.
    unfold MiniLexer.readIdentifier.
    destruct (takeWhile isAlphaNumeric c) as [v c1]. intros [= _ <-].
    simpl in Hi. now rewrite E in Hi.
Qed.

(** More turns than [S (length source)] change nothing, in either lexer. *)
Lemma tokenize_budget_is_enough (source : list ascii) (extra : nat) :
  loop false Lexer.readLexeme (S (List.length source) + extra) (initial source)
    = loop false Lexer.readLexeme (S (List.length source)) (initial source) /\
  loop true MiniLexer.readLexeme (S (List.length source) + extra) (initial source)
    = loop true MiniLexer.readLexeme (S (List.length source)) (initial source).
Proof.
  split; apply tokenizeWith_budget;
    [exact Lexer_readLexeme_consumes | exact MiniLexer_readLexeme_consumes].
Qed.

(** Without the strict check no turn throws. *)
Lemma lenient_loop_never_throws (readLexeme : Cursor -> option (Token * Cursor))
    (fuel : nat) :
  forall st ln, loop false readLexeme fuel st <> IndentationError ln.
Proof.
  induction fuel as [|f IH]; intros st ln; simpl; [discriminate|].
  destruct (rest (cur st)); [discriminate|].
  destruct (iteration false readLexeme st) as [st1|st1|ln1] eqn:I;
    [apply IH | discriminate |].
  exfalso. revert I. unfold iteration.
  destruct (atLineStart st); [|discriminate].
  destruct (measureIndent (cur st)) as [indent c1].
  destruct (peekIs c1 nl || peekIs c1 hash); [discriminate|].
  destruct (rest c1); [discriminate|].
  unfold openLine. simpl.
  destruct (top (indentStack st) <? indent)%nat; [discriminate|].
  destruct (indent <? top (indentStack st))%nat; [|discriminate].
  destruct (popIndents indent (indentStack st)); discriminate.
Qed.

(** [Lexer.tokenize] returns a token list on every source. *)
Lemma Lexer_tokenize_returns (source : string) :
  exists toks, Lexer.tokenize source = inl toks.
Proof.
  unfold Lexer.tokenize, tokenizeWith.
  destruct (loop false Lexer.readLexeme (S (List.length (text source)))
              (initial (text source))) as [st|st|ln] eqn:E; eauto.
  exfalso. exact (lenient_loop_never_throws _ _ _ _ E).
Qed.

End LoopFacts.

(** ** The model of [while] returns what the source returns

    The structural budget of [whileIterations] is never what ends the loop:
    any budget of at least [maxIterations - iterations] gives the same
    result. *)

Module BudgetFacts.
Import MiniExecutor.

Lemma whileIterations_budget_irrelevant
    (H : Type) (maxIterations : Z)
    (evalCondition : Exec (World H) Value) (runBody : Exec (World H) unit)
    (b : nat) :
  forall b' i w,
    (maxIterations - Z.of_nat i <= Z.of_nat b)%Z ->
    (maxIterations - Z.of_nat i <= Z.of_nat b')%Z ->
    whileIterations H maxIterations evalCondition runBody b i w
    = whileIterations H maxIterations evalCondition runBody b' i w.
Proof.
  induction b as [|b IH]; intros b' i w Hb Hb';
    rewrite (WhileFacts.whileIterations_unfold H maxIterations evalCondition runBody _ i w);
    rewrite (WhileFacts.whileIterations_unfold H maxIterations evalCondition runBody b' i w);
    destruct (evalCondition w) as [[c|e] w1]; try reflexivity;
    destruct (Z.of_nat i <? maxIterations)%Z eqn:E;
    try (rewrite andb_false_r; reflexivity);
    apply Z.ltb_lt in E;
    destruct (truthy c); simpl; try reflexivity;
    destruct (stopped w1); try reflexivity.
  - lia.
  - destruct b' as [|b']; [lia|].
    destruct (runBody w1) as [[u|e] w2]; [|reflexivity].
    apply IH; lia.
Qed.

End BudgetFacts.

(** ** The model of [parseCallOrSequence] pushes what the source pushes

    After a comma the source pushes the result of [parseStatement] as it
    is; on the three token kinds that guard the push the result is a node,
    never [null]. *)

Module SequenceFacts.

Lemma parseStatement_returns_a_node (tokens : list Token) (fuel pos : nat)
    (stmt : option Parser.Node) (p : nat) :
  Parser.startsStatement (peekType tokens pos) = true ->
  Parser.parseStatement tokens fuel pos = Ok (stmt, p) ->
  stmt <> None.
Proof.
  destruct fuel as [|f]; [discriminate|]. cbn [Parser.parseStatement].
  destruct (peekType tokens pos); try discriminate; intros _ Hr.
  - destruct (Parser.parseCallOrSequence tokens f pos) as [[n q]| |];
      [injection Hr as <- _ | |]; discriminate.
  - destruct (Parser.parseRepeat tokens f pos) as [[n q]| |];
      [injection Hr as <- _ | |]; discriminate.
  - destruct (Parser.parseIf tokens f pos) as [[n q]| |];
      [injection Hr as <- _ | |]; discriminate.
Qed.

End SequenceFacts.

(** ** More on SnakePuzzle *)

Module SnakeMoreFacts.
Import SnakePuzzle.
Local Open Scope Z_scope.

(** X1. The wrappers [move_up], [move_down], [move_left], [move_right] of
    [runLoopMiniGame] test the result of the puzzle's move and throw "Cannot
    move ...!" when it is falsy; the puzzle's moves return [true] or throw
    their own "already at the ... edge" error, so each wrapper either returns
    [true] or rethrows the puzzle's error, and its own error is never
    thrown. *)
Theorem X1_wrapper_errors_are_never_thrown (args : list Value) (p : t) :
  (fst (moveCommand moveUp "Cannot move up!" args p) = Returned (VBool true) \/
   fst (moveCommand moveUp "Cannot move up!" args p)
     = Raised (HostError "Cannot move up: already at the top edge!")) /\
  (fst (moveCommand moveDown "Cannot move down!" args p) = Returned (VBool true) \/
   fst (moveCommand moveDown "Cannot move down!" args p)
     = Raised (HostError "Cannot move down: already at the bottom edge!")) /\
  (fst (moveCommand moveLeft "Cannot move left!" args p) = Returned (VBool true) \/
   fst (moveCommand moveLeft "Cannot move left!" args p)
     = Raised (HostError "Cannot move left: already at the left edge!")) /\
  (fst (moveCommand moveRight "Cannot move right!" args p) = Returned (VBool true) \/
   fst (moveCommand moveRight "Cannot move right!" args p)
     = Raised (HostError "Cannot move right: already at the right edge!")).
Proof.
  unfold moveCommand, moveUp, moveDown, moveLeft, moveRight.
  destruct (canMoveUp p), (canMoveDown p), (canMoveLeft p), (canMoveRight p);
    simpl; auto.
Qed.

Lemma setX_setX (p : t) (x x' : Z) :
  setX (setX p x) x' = mk (gridSize p) x' (snakeY p) (goalX p) (goalY p)
                          (moves p + 2) (maxMoves p).
Proof. unfold setX; simpl. f_equal. lia. Qed.

Lemma setY_setY (p : t) (y y' : Z) :
  setY (setY p y) y' = mk (gridSize p) (snakeX p) y' (goalX p) (goalY p)
                          (moves p + 2) (maxMoves p).
Proof. unfold setY; simpl. f_equal. lia. Qed.

(** X2. Inside the grid, a move that succeeds is undone by the opposite
    move: the opposite move succeeds too, the snake is back where it was,
    and two moves were counted. *)
Theorem X2_opposite_moves_cancel (p : t) :
  inBounds p ->
  (canMoveRight p = true ->
   moveLeft (snd (moveRight p)) = (Returned true, twoMovesLater p)) /\
  (canMoveLeft p = true ->
   moveRight (snd (moveLeft p)) = (Returned true, twoMovesLater p)) /\
  (canMoveDown p = true ->
   moveUp (snd (moveDown p)) = (Returned true, twoMovesLater p)) /\
  (canMoveUp p = true ->
   moveDown (snd (moveUp p)) = (Returned true, twoMovesLater p)).
Proof.
  intros [[Hx0 Hx1] [Hy0 Hy1]].
  repeat split; intros Hc.
  - unfold moveRight. rewrite Hc. simpl snd. unfold moveLeft, canMoveLeft.
    simpl snakeX.
    replace (0 <? snakeX p + 1) with true by (symmetry; apply Z.ltb_lt; lia).
    rewrite setX_setX. unfold twoMovesLater. do 2 f_equal. lia.
  - unfold moveLeft. rewrite Hc. simpl snd. unfold moveRight, canMoveRight.
    simpl snakeX. simpl gridSize.
    replace (snakeX p - 1 <? gridSize p - 1) with true
      by (symmetry; apply Z.ltb_lt; lia).
    rewrite setX_setX. unfold twoMovesLater. do 2 f_equal. lia.
  - unfold moveDown. rewrite Hc. simpl snd. unfold moveUp, canMoveUp.
    simpl snakeY.
    replace (0 <? snakeY p + 1) with true by (symmetry; apply Z.ltb_lt; lia).
    rewrite setY_setY. unfold twoMovesLater. do 2 f_equal. lia.
  - unfold moveUp. rewrite Hc. simpl snd. unfold moveDown, canMoveDown.
    simpl snakeY. simpl gridSize.
    replace (snakeY p - 1 <? gridSize p - 1) with true
      by (symmetry; apply Z.ltb_lt; lia).
    rewrite setY_setY. unfold twoMovesLater. do 2 f_equal. lia.
Qed.

Lemma X2_witness :
  inBounds (new 5) /\
  moveLeft (snd (moveRight (new 5))) = (Returned true, twoMovesLater (new 5)) /\
  moveUp (snd (moveDown (new 5))) = (Returned true, twoMovesLater (new 5)).
Proof.
  assert (Hb : inBounds (new 5)) by (unfold inBounds; simpl; lia).
  destruct (X2_opposite_moves_cancel (new 5) Hb) as (R & _ & D & _).
  split; [exact Hb|]. split; [apply R | apply D]; reflexivity.
Defined.

End SnakeMoreFacts.

Module SnakePathFacts.
Import SnakePuzzle.
Local Open Scope Z_scope.

Lemma new_reachable (n : Z) : 1 <= n -> reachable n (new n).
Proof. intros Hn. unfold reachable, inBounds, new; simpl. lia. Qed.

Lemma move_reachable (n : Z) (d : Direction) (p : t) :
  reachable n p -> reachable n (snd (move d p)).
Proof.
  intros (Hg & Hgx & Hgy & Hm & [[Hx0 Hx1] [Hy0 Hy1]] & Hd).
  destruct d; unfold move, moveUp, moveDown, moveLeft, moveRight;
    match goal with
    | |- reachable _ (snd (if ?c then _ else _)) => destruct c eqn:E
    end;
    simpl snd;
    try (unfold reachable, inBounds; repeat split; assumption);
    unfold canMoveUp, canMoveDown, canMoveLeft, canMoveRight in E;
    apply Z.ltb_lt in E;
    unfold reachable, inBounds, setX, setY; simpl; repeat split; lia.
Qed.

Lemma afterMoves_reachable (n : Z) (ds : list Direction) :
  forall p, reachable n p -> reachable n (afterMoves ds p).
Proof.
  induction ds as [|d r IH]; intros p Hp; simpl; [exact Hp|].
  apply IH. now apply move_reachable.
Qed.

(** X3. Whatever moves are attempted on a new puzzle of size [n >= 1], the
    snake stays inside the grid, the goal stays in the last cell, and the
    snake is never further from the start than the moves counted: when it is
    at the goal at least [2 * (n - 1)] moves were counted, the number
    [runLoopMiniGame] takes as optimal. *)
Theorem X3_goal_needs_at_least_the_optimal_moves (n : Z) (ds : list Direction) :
  1 <= n ->
  inBounds (afterMoves ds (new n)) /\
  goalX (afterMoves ds (new n)) = n - 1 /\
  goalY (afterMoves ds (new n)) = n - 1 /\
  snakeX (afterMoves ds (new n)) + snakeY (afterMoves ds (new n))
    <= moves (afterMoves ds (new n)) /\
  (isAtGoal (afterMoves ds (new n)) = true ->
   (n - 1) * 2 <= moves (afterMoves ds (new n))).
Proof.
  intros Hn.
  destruct (afterMoves_reachable n ds (new n) (new_reachable n Hn))
    as (Hg & Hgx & Hgy & Hm & Hb & Hd).
  repeat split; try assumption; try apply Hb.
  unfold isAtGoal. intros Hgoal.
  apply andb_true_iff in Hgoal as [Ex Ey].
  apply Z.eqb_eq in Ex, Ey. lia.
Qed.

Lemma X3_witness :
  inBounds (afterMoves [Right; Up; Down] (new 2)) /\
  goalX (afterMoves [Right; Up; Down] (new 2)) = 2 - 1 /\
  goalY (afterMoves [Right; Up; Down] (new 2)) = 2 - 1 /\
  snakeX (afterMoves [Right; Up; Down] (new 2))
    + snakeY (afterMoves [Right; Up; Down] (new 2))
    <= moves (afterMoves [Right; Up; Down] (new 2)) /\
  (isAtGoal (afterMoves [Right; Up; Down] (new 2)) = true ->
   (2 - 1) * 2 <= moves (afterMoves [Right; Up; Down] (new 2))).
Proof. apply (X3_goal_needs_at_least_the_optimal_moves 2 [Right; Up; Down]). lia. Defined.

Lemma afterMoves_frame (ds : list Direction) :
  forall p,
    gridSize (afterMoves ds p) = gridSize p /\
    goalX (afterMoves ds p) = goalX p /\
    goalY (afterMoves ds p) = goalY p /\
    maxMoves (afterMoves ds p) = maxMoves p.
Proof.
  induction ds as [|d r IH]; intros p; simpl; [auto|].
  destruct (IH (snd (move d p))) as (-> & -> & -> & ->).
  destruct d; unfold move, moveUp, moveDown, moveLeft, moveRight;
    match goal with
    | |- context [if ?c then _ else _] => destruct c
    end; simpl; auto.
Qed.

(** X4. [reset()] undoes every sequence of moves: after it the puzzle is the
    one [new SnakePuzzle(n)] made. *)
Theorem X4_reset_restores_the_new_puzzle (n : Z) (ds : list Direction) :
  reset (afterMoves ds (new n)) = new n.
Proof.
  destruct (afterMoves_frame ds (new n)) as (Hg & Hgx & Hgy & Hm).
  unfold reset. rewrite Hg, Hgx, Hgy, Hm. reflexivity.
Qed.

End SnakePathFacts.

(** ** The example solution of the mini-game *)

Module SolutionFacts.
Import MiniParser MiniExecutor.
Local Open Scope Z_scope.

Local Abbreviation exec max := (executeStatement SnakePuzzle.t SnakePuzzle.commands max).

Lemma rights (max : Z) (k : nat) :
  forall g x y gx gy m mm tr,
    x + Z.of_nat k <= g - 1 ->
    exists tr',
      timesUnlessStopped SnakePuzzle.t k
        (each SnakePuzzle.t (exec max) [Call "move_right" [] 2])
        (mkWorld (SnakePuzzle.mk g x y gx gy m mm) tr false)
      = (Returned tt,
         mkWorld (SnakePuzzle.mk g (x + Z.of_nat k) y gx gy (m + Z.of_nat k) mm) tr' false).
Proof.
  induction k as [|k IH]; intros g x y gx gy m mm tr Hk.
  - exists tr. simpl. unfold ret. do 3 f_equal; lia.
  - destruct (IH g (x + 1) y gx gy (m + 1) mm (tr ++ [Invoked "move_right" []])
                ltac:(lia)) as [tr' E].
    exists tr'.
    cbn [timesUnlessStopped]. unfold unlessStopped at 1. cbn [stopped].
    unfold andThen at 1.
    assert (Hstep :
      each SnakePuzzle.t (exec max) [Call "move_right" [] 2]
        (mkWorld (SnakePuzzle.mk g x y gx gy m mm) tr false)
      = (Returned tt,
         mkWorld (SnakePuzzle.mk g (x + 1) y gx gy (m + 1) mm)
           (tr ++ [Invoked "move_right" []]) false)).
    { cbv [each unlessStopped andThen executeStatement executeCall callWith mapM ret
           invoke stopped host trace].
      change (SnakePuzzle.commands "move_right")
        with (Some (SnakePuzzle.moveCommand SnakePuzzle.moveRight "Cannot move right!")).
      cbv [SnakePuzzle.moveCommand SnakePuzzle.moveRight SnakePuzzle.canMoveRight
           SnakePuzzle.snakeX SnakePuzzle.gridSize].
      replace (x <? g - 1) with true by (symmetry; apply Z.ltb_lt; lia).
      reflexivity. }
    rewrite Hstep. rewrite E. do 3 f_equal; lia.
Qed.

Lemma downs (max : Z) (k : nat) :
  forall g x y gx gy m mm tr,
    y + Z.of_nat k <= g - 1 ->
    exists tr',
      timesUnlessStopped SnakePuzzle.t k
        (each SnakePuzzle.t (exec max) [Call "move_down" [] 4])
        (mkWorld (SnakePuzzle.mk g x y gx gy m mm) tr false)
      = (Returned tt,
         mkWorld (SnakePuzzle.mk g x (y + Z.of_nat k) gx gy (m + Z.of_nat k) mm) tr' false).
Proof.
  induction k as [|k IH]; intros g x y gx gy m mm tr Hk.
  - exists tr. simpl. unfold ret. do 3 f_equal; lia.
  - destruct (IH g x (y + 1) gx gy (m + 1) mm (tr ++ [Invoked "move_down" []])
                ltac:(lia)) as [tr' E].
    exists tr'.
    cbn [timesUnlessStopped]. unfold unlessStopped at 1. cbn [stopped].
    unfold andThen at 1.
    assert (Hstep :
      each SnakePuzzle.t (exec max) [Call "move_down" [] 4]
        (mkWorld (SnakePuzzle.mk g x y gx gy m mm) tr false)
      = (Returned tt,
         mkWorld (SnakePuzzle.mk g x (y + 1) gx gy (m + 1) mm)
           (tr ++ [Invoked "move_down" []]) false)).
    { cbv [each unlessStopped andThen executeStatement executeCall callWith mapM ret
           invoke stopped host trace].
      change (SnakePuzzle.commands "move_down")
        with (Some (SnakePuzzle.moveCommand SnakePuzzle.moveDown "Cannot move down!")).
      cbv [SnakePuzzle.moveCommand SnakePuzzle.moveDown SnakePuzzle.canMoveDown
           SnakePuzzle.snakeY SnakePuzzle.gridSize].
      replace (y <? g - 1) with true by (symmetry; apply Z.ltb_lt; lia).
      reflexivity. }
    rewrite Hstep. rewrite E. do 3 f_equal; lia.
Qed.

Lemma parse_solutionScript5 (fuel : nat) :
  (8 <= fuel)%nat -> parseSource fuel solutionScript5 = Parsed_ (Ok (solution 5)).
Proof. intros Hf. with_fuel fuel 8. Qed.

Lemma shownSolution5_tokens :
  MiniLexer.tokenize shownSolution5 = inl shownSolutionTokens.
Proof. vm_compute. reflexivity. Qed.

(** With the margin the script opens a block at top level; the DEDENT that
    closes it stops the loop of [parse] for good. *)
Lemma shownSolution5_never_parses (fuel : nat) :
  parseSource fuel shownSolution5 = Parsed_ OutOfFuel.
Proof.
  unfold parseSource. rewrite shownSolution5_tokens. f_equal.
  do 10 (destruct fuel as [|fuel]; [vm_compute; reflexivity|]).
  change (bind (parseLoop shownSolutionTokens (S (S (S (S (S (S (S fuel)))))))
                  [ForLoop "i" (inject_Z 4) [Call "move_right" [] 2] 1;
                   ForLoop "i" (inject_Z 4) [Call "move_down" [] 4] 3] 30)
               (fun statements => Ok (Program statements)) = OutOfFuel).
  now rewrite ProgressFacts.MiniParser_stuck_at_dedent.
Qed.

(** X5. The program of the example solution works on every grid: for
    [n >= 1], running "[n-1] times move_right, then [n-1] times move_down"
    on a new puzzle of size [n] completes without an error, whatever the
    iteration cap, with the snake at the goal after exactly [2 * (n - 1)]
    moves.  For [n = 5] that program is the parse of the example's four
    lines once the two-space margin of the prompt is taken off; the lines as
    the prompt displays them, margin included, never parse: the loop of
    [parse] does not return on them, whatever the recursion budget. *)
Theorem X5_example_program_reaches_the_goal (n max : Z) (tr : list Event) (st : bool) :
  1 <= n ->
  (exists w',
     execute SnakePuzzle.t SnakePuzzle.commands max (solution n)
       (mkWorld (SnakePuzzle.new n) tr st) = (Returned tt, w') /\
     SnakePuzzle.isAtGoal (host w') = true /\
     SnakePuzzle.moves (host w') = (n - 1) * 2) /\
  (n = 5 -> forall fuel, (8 <= fuel)%nat ->
     parseSource fuel solutionScript5 = Parsed_ (Ok (solution n))) /\
  (forall fuel, parseSource fuel shownSolution5 = Parsed_ OutOfFuel).
Proof.
  intros Hn.
  destruct (rights max (Z.to_nat (n - 1)) n 0 0 (n - 1) (n - 1) 0 50 tr ltac:(lia))
    as [tr1 E1].
  destruct (downs max (Z.to_nat (n - 1)) n (0 + Z.of_nat (Z.to_nat (n - 1))) 0
              (n - 1) (n - 1) (0 + Z.of_nat (Z.to_nat (n - 1))) 50 tr1 ltac:(lia))
    as [tr2 E2].
  split; [|split].
  - eexists. split; [|split].
    + unfold execute, solution, SnakePuzzle.new, reset. cbn [host trace].
      cbn [each]. unfold unlessStopped at 1. cbn [stopped].
      unfold andThen at 1.
      cbn [executeStatement]. unfold unlessStopped at 1. cbn [stopped].
      unfold executeForLoopWith. unfold andThen at 1.
      rewrite Qceiling_Z. rewrite E1. unfold ret at 1.
      unfold unlessStopped at 1. cbn [stopped].
      unfold andThen at 1.
      unfold unlessStopped at 1. cbn [stopped].
      unfold andThen at 1.
      rewrite E2. unfold ret. reflexivity.
    + cbn [host]. unfold SnakePuzzle.isAtGoal. simpl.
      apply andb_true_iff. split; apply Z.eqb_eq; lia.
    + cbn [host]. simpl. lia.
  - intros -> fuel Hf. now apply parse_solutionScript5.
  - apply shownSolution5_never_parses.
Qed.

Lemma X5_witness :
  (exists w',
     execute SnakePuzzle.t SnakePuzzle.commands 100 (solution 5)
       (mkWorld (SnakePuzzle.new 5) [] false) = (Returned tt, w') /\
     SnakePuzzle.isAtGoal (host w') = true /\
     SnakePuzzle.moves (host w') = (5 - 1) * 2) /\
  (5 = 5 -> forall fuel, (8 <= fuel)%nat ->
     parseSource fuel solutionScript5 = Parsed_ (Ok (solution 5))) /\
  (forall fuel, parseSource fuel shownSolution5 = Parsed_ OutOfFuel).
Proof. apply (X5_example_program_reaches_the_goal 5 100 [] false). lia. Defined.

End SolutionFacts.

(** ** More on MiniExecutor *)

Module MiniRunFacts.
Import MiniParser MiniExecutor.

Section Run.

Variable H : Type.
Variable commands : string -> option (Command H).
Variable maxIterations : Z.

Local Abbreviation exec := (executeStatement H commands maxIterations).

Lemma each_stopped (l : list Node) (w : World H) :
  stopped w = true -> each H exec l w = (Returned tt, w).
Proof.
  intros Hs. destruct l as [|s r]; [reflexivity|].
  cbn [each]. unfold unlessStopped. now rewrite Hs.
Qed.

Lemma each_app (pre post : list Node) :
  forall w,
    each H exec (pre ++ post) w =
    match each H exec pre w with
    | (Returned _, w0) => each H exec post w0
    | (Raised e, w0) => (Raised e, w0)
    end.
Proof.
  induction pre as [|s r IH]; intros w; [reflexivity|].
  cbn [app each]. unfold unlessStopped.
  destruct (stopped w) eqn:Hs.
  - symmetry. now apply each_stopped.
  - unfold andThen. destruct (exec s w) as [[v|e] w1]; [apply IH | reflexivity].
Qed.

Lemma failing_call (name : string) (args : list Node) (ln : nat)
    (f : Command H) (vs : list Value) (e : Exception) (h' : H) (w0 w1 : World H) :
  stopped w0 = false ->
  commands name = Some f ->
  mapM (evaluateArgument H commands) args w0 = (Returned vs, w1) ->
  f vs (host w1) = (Raised e, h') ->
  exec (Call name args ln) w0
    = (Raised e, mkWorld h' (trace w1 ++ [Invoked name vs]) (stopped w1)).
Proof.
  intros Hs Hc Ha Hf. cbn [executeStatement]. unfold unlessStopped. rewrite Hs.
  unfold executeCall, callWith. rewrite Hc. unfold andThen. rewrite Ha.
  unfold invoke. now rewrite Hf.
Qed.

End Run.

(** X6. In [MiniExecutor] an error thrown by a command at statement position
    is not caught: [execute] raises it to its caller at once, and the
    statements after the call never run - the log ends with the invocation
    that threw. *)
Theorem X6_mini_command_error_aborts_the_run
    (H : Type) (commands : string -> option (Command H)) (maxIterations : Z)
    (pre post : list Node) (name : string) (args : list Node) (ln : nat)
    (f : Command H) (vs : list Value) (e : Exception) (h' : H) (w w0 w1 : World H) :
  each H (executeStatement H commands maxIterations) pre (reset w) = (Returned tt, w0) ->
  stopped w0 = false ->
  commands name = Some f ->
  mapM (evaluateArgument H commands) args w0 = (Returned vs, w1) ->
  f vs (host w1) = (Raised e, h') ->
  execute H commands maxIterations (Program (pre ++ Call name args ln :: post)) w
    = (Raised e, mkWorld h' (trace w1 ++ [Invoked name vs]) (stopped w1)).
Proof.
  intros Hpre Hs Hc Ha Hf. unfold execute.
  rewrite each_app, Hpre. cbn [each]. unfold unlessStopped. rewrite Hs.
  unfold andThen.
  now rewrite (failing_call H commands maxIterations name args ln f vs e h' w0 w1
                 Hs Hc Ha Hf).
Qed.

Lemma X6_witness :
  execute SnakePuzzle.t SnakePuzzle.commands 100
    (Program ([Call "move_down" [] 1] ++ Call "move_left" [] 2 :: [Call "move_down" [] 3]))
    miniStart
  = (Raised (HostError "Cannot move left: already at the left edge!"),
     mkWorld (snd (SnakePuzzle.moveDown (SnakePuzzle.new 5)))
       ([Invoked "move_down" []] ++ [Invoked "move_left" []]) false).
Proof.
  apply (X6_mini_command_error_aborts_the_run SnakePuzzle.t SnakePuzzle.commands 100
           [Call "move_down" [] 1] [Call "move_down" [] 3] "move_left" [] 2
           (SnakePuzzle.moveCommand SnakePuzzle.moveLeft "Cannot move left!") []
           (HostError "Cannot move left: already at the left edge!")
           (snd (SnakePuzzle.moveDown (SnakePuzzle.new 5)))
           miniStart
           (mkWorld (snd (SnakePuzzle.moveDown (SnakePuzzle.new 5)))
              [Invoked "move_down" []] false)
           (mkWorld (snd (SnakePuzzle.moveDown (SnakePuzzle.new 5)))
              [Invoked "move_down" []] false));
    reflexivity.
Defined.

(** X7. With a cap of zero (or less) every [while] statement fails: the
    condition is evaluated once, the body never runs, and "Loop exceeded
    maximum iterations" is raised - also when the condition was false. *)
Theorem X7_while_with_cap_zero_always_fails
    (H : Type) (commands : string -> option (Command H)) (maxIterations : Z)
    (condition : Node) (body : list Node) (ln : nat)
    (v : Value) (w w1 : World H) :
  (maxIterations <= 0)%Z ->
  stopped w = false ->
  evaluateCondition H commands condition w = (Returned v, w1) ->
  executeStatement H commands maxIterations (WhileLoop condition body ln) w
    = (Raised (LoopExceeded maxIterations), w1).
Proof.
  intros Hmax Hs Hc. cbn [executeStatement]. unfold unlessStopped. rewrite Hs.
  unfold executeWhileLoopWith. unfold andThen.
  rewrite WhileFacts.whileIterations_unfold, Hc.
  replace (Z.of_nat 0 <? maxIterations)%Z with false
    by (symmetry; apply Z.ltb_ge; simpl; lia).
  rewrite andb_false_r.
  replace (maxIterations <=? Z.of_nat 0)%Z with true
    by (symmetry; apply Z.leb_le; simpl; lia).
  reflexivity.
Qed.

Lemma X7_witness :
  executeStatement unit neverAtGoal 0
    (WhileLoop (Call "at_goal" [] 1) [Call "win" [] 2] 1) (mkWorld tt [] false)
  = (Raised (LoopExceeded 0), mkWorld tt [Invoked "at_goal" []] false).
Proof.
  apply (X7_while_with_cap_zero_always_fails unit neverAtGoal 0
           (Call "at_goal" [] 1) [Call "win" [] 2] 1 (VBool false)
           (mkWorld tt [] false) (mkWorld tt [Invoked "at_goal" []] false)).
  - lia.
  - reflexivity.
  - reflexivity.
Defined.

(** X8. The counter of a [while] loop never passes the cap: started at or
    below [maxIterations], the loop ends with [iterations] between its start
    value and [maxIterations], so the body is entered at most
    [maxIterations] times. *)
Theorem X8_while_counter_stays_within_the_cap
    (H : Type) (maxIterations : Z)
    (evalCondition : Exec (World H) Value) (runBody : Exec (World H) unit)
    (budget : nat) :
  forall (start final : nat) (w w' : World H),
    (Z.of_nat start <= maxIterations)%Z ->
    whileIterations H maxIterations evalCondition runBody budget start w
      = (Returned final, w') ->
    start <= final /\ (Z.of_nat final <= maxIterations)%Z.
Proof.
  induction budget as [|b IH]; intros start final w w' Hstart Hr;
    rewrite WhileFacts.whileIterations_unfold in Hr;
    destruct (evalCondition w) as [[c|e] w1]; try discriminate Hr;
    destruct (truthy c && (Z.of_nat start <? maxIterations)%Z) eqn:E;
    try (injection Hr as <- _; lia);
    destruct (stopped w1); try (injection Hr as <- _; lia).
  destruct (runBody w1) as [[u|e] w2]; [|discriminate Hr].
  apply andb_true_iff in E as [_ E]. apply Z.ltb_lt in E.
  apply IH in Hr; lia.
Qed.

Lemma X8_witness :
  exists w',
    whileIterations SnakePuzzle.t 100
      (evaluateCondition SnakePuzzle.t SnakePuzzle.commands (Call "can_move_right" [] 1))
      (each SnakePuzzle.t (executeStatement SnakePuzzle.t SnakePuzzle.commands 100)
         [Call "move_right" [] 2])
      100 0 miniStart = (Returned 4, w') /\
    0 <= 4 /\ (Z.of_nat 4 <= 100)%Z.
Proof.
  eexists. split; [vm_compute; reflexivity|].
  eapply (X8_while_counter_stays_within_the_cap SnakePuzzle.t 100
            (evaluateCondition SnakePuzzle.t SnakePuzzle.commands
               (Call "can_move_right" [] 1))
            (each SnakePuzzle.t
               (executeStatement SnakePuzzle.t SnakePuzzle.commands 100)
               [Call "move_right" [] 2])
            100 0 4 miniStart).
  - simpl. lia.
  - vm_compute. reflexivity.
Defined.

Section CountedLoop.

Variable H : Type.
Variable commands : string -> option (Command H).
Variable maxIterations : Z.
Variable name : string.
Variable f : Command H.
Variable ln : nat.

Hypothesis name_defined : commands name = Some f.
Hypothesis f_returns : forall args h, exists v h', f args h = (Returned v, h').

(** One turn of the body runs the command once on the host. *)
Lemma call_once (w : World H) :
  stopped w = false ->
  each H (executeStatement H commands maxIterations) [Call name [] ln] w
  = (Returned tt,
     mkWorld (hostAfter f [] (host w)) (trace w ++ [Invoked name []]) false).
Proof.
  intros Hs. destruct w as [h tr st]. simpl in Hs. subst st.
  cbv [each unlessStopped andThen executeStatement executeCall callWith mapM ret
       invoke stopped host trace hostAfter].
  rewrite name_defined.
  destruct (f_returns [] h) as (v & h' & E). now rewrite E.
Qed.

Lemma calls_run (k : nat) :
  forall w,
    stopped w = false ->
    timesUnlessStopped H k
      (each H (executeStatement H commands maxIterations) [Call name [] ln]) w
    = (Returned tt,
       mkWorld (Nat.iter k (hostAfter f []) (host w))
         (trace w ++ repeat (Invoked name []) k) false).
Proof.
  induction k as [|k IH]; intros w Hs.
  - destruct w as [h tr st]. simpl in Hs. subst st.
    cbn. unfold ret. now rewrite app_nil_r.
  - cbn [timesUnlessStopped]. unfold unlessStopped. rewrite Hs.
    unfold andThen. rewrite (call_once w Hs), IH by reflexivity.
    cbn [host trace repeat]. rewrite Nat.iter_succ_r, <- app_assoc. reflexivity.
Qed.

End CountedLoop.

(** X9. A FOR statement runs its body once for each integer from 0 below
    its count: with a body that calls one command (which returns), the
    command is run exactly [ceil(count)] times - not at all when the count
    is zero or negative - each time on the host the run before left, the
    log grows by as many invocations, and the statement completes. *)
Theorem X9_for_runs_its_body_count_times
    (H : Type) (commands : string -> option (Command H)) (maxIterations : Z)
    (variable name : string) (f : Command H) (count : Q) (ln ln' : nat) (w : World H) :
  commands name = Some f ->
  (forall args h, exists v h', f args h = (Returned v, h')) ->
  stopped w = false ->
  executeStatement H commands maxIterations
    (ForLoop variable count [Call name [] ln'] ln) w
  = (Returned VUndefined,
     mkWorld (Nat.iter (Z.to_nat (Qceiling count)) (hostAfter f []) (host w))
       (trace w ++ repeat (Invoked name []) (Z.to_nat (Qceiling count))) false).
Proof.
  intros Hc Hf Hs.
  cbn [executeStatement]. unfold unlessStopped. rewrite Hs.
  unfold executeForLoopWith, andThen.
  now rewrite (calls_run H commands maxIterations name f ln' Hc Hf _ w Hs).
Qed.

Lemma X9_witness :
  executeStatement nat unbounded 100
    (ForLoop "i" (5 # 2) [Call "move_right" [] 2] 1) (mkWorld 0 [] false)
  = (Returned VUndefined,
     mkWorld 3
       [Invoked "move_right" []; Invoked "move_right" []; Invoked "move_right" []]
       false).
Proof.
  apply (X9_for_runs_its_body_count_times nat unbounded 100 "i" "move_right"
           (fun _ n => (Returned VUndefined, S n)) (5 # 2) 1 2 (mkWorld 0 [] false)).
  - reflexivity.
  - intros args h. exists VUndefined, (S h). reflexivity.
  - reflexivity.
Defined.

End MiniRunFacts.

(** ** More on Executor *)

Module ContainmentFacts.
Import Parser Executor.

(** Induction over a node and the nodes nested in its lists. *)
Lemma Node_nested_ind (P : Node -> Prop) :
  (forall body, Forall P body -> P (Program body)) ->
  (forall statements, Forall P statements -> P (Sequence statements)) ->
  (forall name args ln, Forall P args -> P (Call name args ln)) ->
  (forall count body ln, Forall P body -> P (Repeat count body ln)) ->
  (forall condition body ln, P condition -> Forall P body -> P (If condition body ln)) ->
  (forall v, P (Number v)) ->
  (forall v, P (Str v)) ->
  (forall name, P (Identifier name)) ->
  forall n, P n.
Proof.
  intros HP HS HC HR HI HN HSt HId.
  fix IH 1. intros n.
  destruct n as [body|statements|name args ln|count body ln|condition body ln|v|v|name].
  - apply HP. induction body as [|a l IHl]; constructor; [apply IH | exact IHl].
  - apply HS. induction statements as [|a l IHl]; constructor; [apply IH | exact IHl].
  - apply HC. induction args as [|a l IHl]; constructor; [apply IH | exact IHl].
  - apply HR. induction body as [|a l IHl]; constructor; [apply IH | exact IHl].
  - apply HI; [apply IH|].
    induction body as [|a l IHl]; constructor; [apply IH | exact IHl].
  - apply HN.
  - apply HSt.
  - apply HId.
Qed.

Section Quiet.

Variable H : Type.
Variable commands : string -> option (Command H).
Variable quiet : string -> bool.

Hypothesis quiet_returns :
  forall name f, quiet name = true -> commands name = Some f ->
                 forall args h, exists v h', f args h = (Returned v, h').

Lemma mapM_returns (args : list Node) :
  Forall (fun a => syncOk quiet a = true -> returns (evaluateArgument H commands a)) args ->
  forallb (syncOk quiet) args = true ->
  returns (mapM (evaluateArgument H commands) args).
Proof.
  induction 1 as [|a r Ha _ IH]; intros Hok w; simpl in *.
  - eexists _, _. reflexivity.
  - apply andb_true_iff in Hok as [Hoka Hokr].
    destruct (Ha Hoka w) as (v & w1 & E1).
    destruct (IH Hokr w1) as (vs & w2 & E2).
    unfold andThen. rewrite E1, E2. eexists _, _. reflexivity.
Qed.

Lemma evaluateArgument_returns (n : Node) :
  syncOk quiet n = true -> returns (evaluateArgument H commands n).
Proof.
  induction n as [body IHb|statements IHs|name args ln IHa|count body ln IHb|condition body ln IHc IHb|v|v|name]
    using Node_nested_ind; intros Hok w;
    try (eexists _, _; reflexivity).
  cbn [syncOk] in Hok. apply andb_true_iff in Hok as [Hq Hargs].
  cbn [evaluateArgument]. unfold callSyncWith.
  destruct (commands name) as [f|] eqn:Hc; [|eexists _, _; reflexivity].
  destruct (mapM_returns args IHa Hargs w) as (vs & w1 & E1).
  destruct (quiet_returns name f Hq Hc vs (host w1)) as (v & h' & E2).
  unfold andThen. rewrite E1. unfold invoke. rewrite E2.
  eexists _, _. reflexivity.
Qed.

Lemma eachDelayed_returns (l : list Node) :
  Forall (fun s => contained quiet s = true -> returns (executeStatement H commands s)) l ->
  forallb (contained quiet) l = true ->
  returns (eachDelayed H (executeStatement H commands) l).
Proof.
  induction 1 as [|s r Hs _ IH]; intros Hok w; simpl in *.
  - eexists _, _. reflexivity.
  - apply andb_true_iff in Hok as [Hoks Hokr].
    destruct (Hs Hoks w) as (v & w1 & E1).
    destruct (IH Hokr (mkWorld (host w1) (trace w1 ++ [Delayed executionDelay])))
      as (u & w2 & E2).
    unfold andThen. rewrite E1. unfold delay, emit. rewrite E2.
    eexists _, _. reflexivity.
Qed.

Lemma times_returns (n : nat) (body : Exec (World H) unit) :
  returns body -> returns (times n body).
Proof.
  intros Hb. induction n as [|n IH]; intros w; simpl.
  - eexists _, _. reflexivity.
  - destruct (Hb w) as (u & w1 & E1). destruct (IH w1) as (u' & w2 & E2).
    unfold andThen. rewrite E1, E2. eexists _, _. reflexivity.
Qed.

Lemma executeStatement_returns (n : Node) :
  contained quiet n = true -> returns (executeStatement H commands n).
Proof.
  induction n as [body IHb|statements IHs|name args ln IHa|count body ln IHb|condition body ln IHc IHb|v|v|name]
    using Node_nested_ind; intros Hok w; try discriminate Hok.
  - (* Sequence *)
    cbn [contained] in Hok.
    destruct (eachDelayed_returns statements IHs Hok w) as (u & w1 & E).
    cbn [executeStatement]. unfold andThen. rewrite E. eexists _, _. reflexivity.
  - (* Call *)
    cbn [contained] in Hok. cbn [executeStatement]. unfold executeCall.
    destruct (commands name) as [f|] eqn:Hc; [|eexists _, _; reflexivity].
    assert (Hargs : returns (mapM (evaluateArgument H commands) args)).
    { apply mapM_returns; [|exact Hok].
      apply Forall_forall. intros a _. apply evaluateArgument_returns. }
    destruct (Hargs w) as (vs & w1 & E1).
    unfold andThen. rewrite E1. unfold tryCatch, invoke.
    destruct (f vs (host w1)) as [[v|e] h']; eexists _, _; reflexivity.
  - (* Repeat *)
    cbn [contained] in Hok. cbn [executeStatement]. unfold executeRepeatWith.
    pose proof (times_returns (Z.to_nat count) _ (eachDelayed_returns body IHb Hok))
      as Ht.
    unfold andThen, print, emit.
    destruct (Ht (mkWorld (host w) (trace w ++ [Printed (RepeatingMessage count) info])))
      as (u & w1 & E).
    rewrite E. eexists _, _. reflexivity.
  - (* If *)
    cbn [contained] in Hok. apply andb_true_iff in Hok as [Hc Hb].
    cbn [executeStatement]. unfold executeIfWith.
    assert (Hcond : returns (conditionResult H commands condition)).
    { destruct condition as [| |cname cargs cln| | | | |];
        try (intros w0; eexists _, _; reflexivity).
      exact (evaluateArgument_returns (Call cname cargs cln) Hc). }
    destruct (Hcond w) as (v & w1 & E1).
    unfold andThen at 1. rewrite E1.
    destruct (truthy v).
    + destruct (eachDelayed_returns body IHb Hb
                  (mkWorld (host w1) (trace w1 ++ [Printed ConditionTrueMessage info])))
        as (u & w2 & E2).
      unfold andThen, print, emit. rewrite E2. eexists _, _. reflexivity.
    + eexists _, _. reflexivity.
Qed.

Lemma executeBody_returns (body : list Node) :
  forallb (contained quiet) body = true -> returns (executeBody H commands body).
Proof.
  induction body as [|s r IH]; intros Hok w; simpl in *.
  - eexists _, _. reflexivity.
  - apply andb_true_iff in Hok as [Hs Hr].
    destruct (executeStatement_returns s Hs w) as (v & w1 & E1).
    destruct (IH Hr w1) as (u & w2 & E2).
    unfold andThen. rewrite E1, E2. eexists _, _. reflexivity.
Qed.

End Quiet.

(** X10. [Executor] contains every failure of a statement-position command:
    if the commands a program calls in argument and condition position
    (the [quiet] ones) do not throw, then [execute] returns normally on it -
    whatever the commands called as statements do, defined or not, throwing
    or not. *)
Theorem X10_executor_never_raises_on_contained_programs
    (H : Type) (commands : string -> option (Command H)) (quiet : string -> bool)
    (body : list Node) (w : World H) :
  (forall name f, quiet name = true -> commands name = Some f ->
                  forall args h, exists v h', f args h = (Returned v, h')) ->
  forallb (contained quiet) body = true ->
  exists w', execute H commands (Program body) w = (Returned tt, w').
Proof.
  intros Hq Hok.
  destruct (executeBody_returns H commands quiet Hq body Hok w) as ([] & w' & E).
  exists w'. exact E.
Qed.

Lemma X10_witness :
  exists w',
    execute unit clumsy (Program clumsyBody) (mkWorld tt []) = (Returned tt, w').
Proof.
  apply (X10_executor_never_raises_on_contained_programs unit clumsy
           (String.eqb "ready") clumsyBody (mkWorld tt [])).
  - intros name f Hq Hc args h. apply String.eqb_eq in Hq. subst name.
    injection Hc as <-. exists (VBool true), h. reflexivity.
  - reflexivity.
Defined.

End ContainmentFacts.

Module ConditionFacts.
Import Parser Executor.

(** X11. In [Executor] a command in the condition of an [if] is called
    without a guard.  When the name is not defined the condition counts as
    false: nothing is reported, "Condition is false" is printed and the body
    is skipped.  When the command throws, the error is not caught: the [if]
    raises it, and so does [execute] of a program that starts with it. *)
Theorem X11_condition_commands_are_unguarded
    (H : Type) (commands : string -> option (Command H))
    (name : string) (args body rest : list Node) (ln ln' : nat) (w : World H) :
  (commands name = None ->
   executeStatement H commands (If (Call name args ln') body ln) w
     = (Returned VUndefined,
        mkWorld (host w) (trace w ++ [Printed ConditionFalseMessage info]))) /\
  (forall f vs e h' w1,
     commands name = Some f ->
     mapM (evaluateArgument H commands) args w = (Returned vs, w1) ->
     f vs (host w1) = (Raised e, h') ->
     executeStatement H commands (If (Call name args ln') body ln) w
       = (Raised e, mkWorld h' (trace w1 ++ [Invoked name vs])) /\
     execute H commands (Program (If (Call name args ln') body ln :: rest)) w
       = (Raised e, mkWorld h' (trace w1 ++ [Invoked name vs]))).
Proof.
  split.
  - intros Hn. cbn [executeStatement]. unfold executeIfWith, conditionResult,
      executeCallSync, callSyncWith. rewrite Hn. reflexivity.
  - intros f vs e h' w1 Hc Ha Hf.
    assert (E : executeStatement H commands (If (Call name args ln') body ln) w
                = (Raised e, mkWorld h' (trace w1 ++ [Invoked name vs]))).
    { cbn [executeStatement]. unfold executeIfWith, conditionResult,
        executeCallSync, callSyncWith. rewrite Hc.
      unfold andThen. rewrite Ha. unfold invoke. now rewrite Hf. }
    split; [exact E|].
    unfold execute. cbn [executeBody]. unfold andThen. now rewrite E.
Qed.

Lemma X11_witness :
  (executeStatement unit clumsy (If (Call "fly" [] 1) [Call "trip" [] 2] 1) (mkWorld tt [])
     = (Returned VUndefined, mkWorld tt ([] ++ [Printed ConditionFalseMessage info]))) /\
  (executeStatement unit clumsy (If (Call "trip" [] 1) [Call "fly" [] 2] 1) (mkWorld tt [])
     = (Raised (HostError "tripped"), mkWorld tt ([] ++ [Invoked "trip" []]))).
Proof.
  split.
  - apply (proj1 (X11_condition_commands_are_unguarded unit clumsy "fly" []
                    [Call "trip" [] 2] [] 1 1 (mkWorld tt []))).
    reflexivity.
  - apply (proj2 (X11_condition_commands_are_unguarded unit clumsy "trip" []
                    [Call "fly" [] 2] [] 1 1 (mkWorld tt []))
             (fun _ h => (Raised (HostError "tripped"), h)) [] (HostError "tripped") tt
             (mkWorld tt []));
      reflexivity.
Defined.

Section Counted.

Variable H : Type.
Variable commands : string -> option (Command H).
Variable name : string.
Variable f : Command H.
Variable ln : nat.

Hypothesis name_defined : commands name = Some f.

Lemma turn (w : World H) :
  eachDelayed H (executeStatement H commands) [Call name [] ln] w
  = (Returned tt, afterTurn name f w).
Proof.
  destruct w as [h tr].
  cbv [eachDelayed executeStatement executeCall andThen tryCatch invoke mapM ret
       delay print emit host trace afterTurn hostAfter callLog].
  rewrite name_defined.
  destruct (f [] h) as [[v|e] h']; cbn [fst snd];
    repeat (rewrite <- app_assoc; cbn [app]); reflexivity.
Qed.

Lemma turns (k : nat) :
  forall w,
    times k (eachDelayed H (executeStatement H commands) [Call name [] ln]) w
    = (Returned tt, Nat.iter k (afterTurn name f) w).
Proof.
  induction k as [|k IH]; intros w; [reflexivity|].
  cbn [times]. unfold andThen. rewrite turn, IH. now rewrite Nat.iter_succ_r.
Qed.

Lemma host_after_turns (k : nat) (w : World H) :
  host (Nat.iter k (afterTurn name f) w) = Nat.iter k (hostAfter f []) (host w).
Proof.
  induction k as [|k IH]; [reflexivity|].
  change (Nat.iter (S k) (afterTurn name f) w)
    with (afterTurn name f (Nat.iter k (afterTurn name f) w)).
  unfold afterTurn at 1. cbn [host]. now rewrite IH.
Qed.

Lemma withoutPrints_callLog (h : H) :
  withoutPrints (callLog name f [] h) = [Invoked name []].
Proof. unfold callLog. now destruct (fst (f [] h)). Qed.

Lemma rounds_snoc (r : list Event) (k : nat) :
  List.concat (repeat r k) ++ r = r ++ List.concat (repeat r k).
Proof.
  induction k as [|k IH]; cbn [repeat List.concat].
  - now rewrite app_nil_r.
  - now rewrite <- app_assoc, IH.
Qed.

Lemma log_after_turns (k : nat) (w : World H) :
  withoutPrints (trace (Nat.iter k (afterTurn name f) w))
  = withoutPrints (trace w)
      ++ List.concat (repeat [Invoked name []; Delayed executionDelay] k).
Proof.
  induction k as [|k IH]; [cbn; now rewrite app_nil_r|].
  change (Nat.iter (S k) (afterTurn name f) w)
    with (afterTurn name f (Nat.iter k (afterTurn name f) w)).
  unfold afterTurn at 1. cbn [trace].
  rewrite !withoutPrints_app, withoutPrints_callLog, IH.
  change (withoutPrints [Delayed executionDelay]) with [Delayed executionDelay].
  cbn [repeat List.concat]. rewrite <- !app_assoc. f_equal.
  change ([Invoked name []] ++ [Delayed executionDelay])
    with [Invoked name []; Delayed executionDelay].
  apply rounds_snoc.
Qed.

End Counted.

(** X12. [repeat(count)] with a body of one call prints "Repeating", then
    makes [count] turns and completes - also when the command throws, and
    with no turn when [count] is zero or negative.  Each turn runs the
    command on the host the turn before left, logs the invocation (and the
    error line when the command threw) and then awaits the pacing delay: the
    host is the one [count] runs of the command leave, and the log without
    the printed lines grows by [count] times "invocation, delay". *)
Theorem X12_repeat_runs_its_body_count_times
    (H : Type) (commands : string -> option (Command H))
    (name : string) (f : Command H) (count : Z) (ln ln' : nat) (w : World H) :
  commands name = Some f ->
  let w' :=
    Nat.iter (Z.to_nat count) (afterTurn name f)
      (mkWorld (host w) (trace w ++ [Printed (RepeatingMessage count) info])) in
  executeStatement H commands (Repeat count [Call name [] ln'] ln) w
    = (Returned VUndefined, w') /\
  host w' = Nat.iter (Z.to_nat count) (hostAfter f []) (host w) /\
  withoutPrints (trace w')
    = withoutPrints (trace w)
        ++ List.concat (repeat [Invoked name []; Delayed executionDelay]
                          (Z.to_nat count)).
Proof.
  intros Hc w'. subst w'. split; [|split].
  - cbn [executeStatement]. unfold executeRepeatWith, andThen, print, emit.
    now rewrite (turns H commands name f ln' Hc).
  - now rewrite host_after_turns.
  - rewrite log_after_turns. cbn [trace]. rewrite withoutPrints_app.
    change (withoutPrints [Printed (RepeatingMessage count) info]) with (@nil Event).
    now rewrite app_nil_r.
Qed.

Lemma X12_witness :
  executeStatement nat counting (Repeat 2 [Call "move_right" [] 2] 1) (mkWorld 0 [])
    = (Returned VUndefined,
       mkWorld 2
         [Printed (RepeatingMessage 2) info;
          Invoked "move_right" []; Delayed 200;
          Invoked "move_right" []; Delayed 200]) /\
  2 = Nat.iter (Z.to_nat 2) (hostAfter (fun _ n => (Returned VUndefined, S n)) []) 0 /\
  withoutPrints
    [Printed (RepeatingMessage 2) info;
     Invoked "move_right" []; Delayed 200;
     Invoked "move_right" []; Delayed 200]
  = withoutPrints []
      ++ List.concat (repeat [Invoked "move_right" []; Delayed executionDelay]
                        (Z.to_nat 2)).
Proof.
  apply (X12_repeat_runs_its_body_count_times nat counting "move_right"
           (fun _ n => (Returned VUndefined, S n)) 2 1 2 (mkWorld 0 [])).
  reflexivity.
Defined.

End ConditionFacts.

(** ** More on the parsers *)

Module LenientParseFacts.

Lemma skipNewlinesFrom_ge (tokens : list Token) (k : nat) :
  forall pos, pos <= skipNewlinesFrom tokens k pos.
Proof.
  induction k as [|k IH]; intros pos; simpl; [lia|].
  destruct (peekIsType tokens pos NEWLINE); [|lia].
  specialize (IH (S pos)). lia.
Qed.

Lemma skipNewlines_ge (tokens : list Token) (pos : nat) :
  pos <= skipNewlines tokens pos.
Proof. apply skipNewlinesFrom_ge. Qed.

Lemma skipNewlines_past_newline (tokens : list Token) (pos : nat) :
  peekType tokens pos = NEWLINE -> pos < skipNewlines tokens pos.
Proof.
  intros E. unfold skipNewlines.
  assert (Hlt : pos < List.length tokens).
  { apply nth_error_Some. unfold peekType, at_ in E.
    destruct (nth_error tokens pos); congruence. }
  destruct (List.length tokens - pos) as [|k] eqn:Hk; [lia|].
  simpl. rewrite (peekIsType_true _ _ _ E).
  pose proof (skipNewlinesFrom_ge tokens k (S pos)). lia.
Qed.

Lemma peekType_inert (tokens : list Token) (pos : nat) :
  forallb (fun t => inert (type t)) tokens = true ->
  inert (peekType tokens pos) = true.
Proof.
  intros Hall. unfold peekType, at_.
  destruct (nth_error tokens pos) as [t|] eqn:E; [|reflexivity].
  rewrite forallb_forall in Hall. apply Hall. eapply nth_error_In; eauto.
Qed.

Lemma peek_EOF_or_not (tokens : list Token) (pos : nat) :
  peekIsType tokens pos EOF = true \/ peekType tokens pos <> EOF.
Proof.
  destruct (peekIsType tokens pos EOF) eqn:E; [now left|right].
  now apply TokenType_eqb_neq.
Qed.

Section Inert.

Variable tokens : list Token.
Hypothesis all_inert : forallb (fun t => inert (type t)) tokens = true.

Lemma within (pos : nat) : peekType tokens pos <> EOF -> pos < List.length tokens.
Proof.
  intros N. apply nth_error_Some. unfold peekType, at_ in N.
  destruct (nth_error tokens pos); congruence.
Qed.

Lemma Parser_loop_skips_all (k : nat) :
  forall fuel pos statements,
    List.length tokens - pos <= k -> k + 1 <= fuel ->
    Parser.parseLoop tokens fuel statements pos = Ok statements.
Proof.
  induction k as [|k IH]; intros fuel pos statements Hk Hf;
    (destruct fuel as [|f]; [lia|]); cbn [Parser.parseLoop];
    destruct (peek_EOF_or_not tokens pos) as [E|N]; try (now rewrite E);
    pose proof (within pos N) as Hin; [lia|].
  rewrite peekIsType_false by exact N.
  destruct f as [|f']; [lia|]. cbn [Parser.parseStatement].
  pose proof (peekType_inert tokens pos all_inert) as Hi.
  destruct (peekType tokens pos) eqn:E; try discriminate Hi; try congruence;
    cbn [bind Parser.skippable Parser.pushStmt]; apply IH; try lia;
    try (pose proof (skipNewlines_ge tokens (S pos)); lia).
  pose proof (skipNewlines_past_newline tokens pos E). lia.
Qed.

Lemma MiniParser_loop_skips_all (k : nat) :
  forall fuel pos statements,
    List.length tokens - pos <= k -> k + 1 <= fuel ->
    MiniParser.parseLoop tokens fuel statements pos = Ok statements.
Proof.
  induction k as [|k IH]; intros fuel pos statements Hk Hf;
    (destruct fuel as [|f]; [lia|]); cbn [MiniParser.parseLoop];
    destruct (peek_EOF_or_not tokens pos) as [E|N]; try (now rewrite E);
    pose proof (within pos N) as Hin; [lia|].
  rewrite peekIsType_false by exact N.
  destruct f as [|f']; [lia|]. cbn [MiniParser.parseStatement].
  pose proof (peekType_inert tokens pos all_inert) as Hi.
  destruct (peekType tokens pos) eqn:E; try discriminate Hi; try congruence;
    cbn [bind MiniParser.skippable MiniParser.pushStmt]; apply IH; try lia;
    try (pose proof (skipNewlines_ge tokens (S pos)); lia).
  pose proof (skipNewlines_past_newline tokens pos E). lia.
Qed.

End Inert.

(** X13. A token list with no identifier, no statement keyword and no
    DEDENT - numbers, strings, punctuation, newlines, stray INDENTs - is not
    a syntax error: both parsers skip every token and return the empty
    Program (given a recursion budget of one more than the number of
    tokens). *)
Theorem X13_parse_skips_tokens_that_start_no_statement
    (tokens : list Token) (fuel : nat) :
  forallb (fun t => inert (type t)) tokens = true ->
  List.length tokens + 1 <= fuel ->
  Parser.parse tokens fuel = Ok (Parser.Program []) /\
  MiniParser.parse tokens fuel = Ok (MiniParser.Program []).
Proof.
  intros Hall Hf. unfold Parser.parse, MiniParser.parse.
  rewrite (Parser_loop_skips_all tokens Hall (List.length tokens)) by lia.
  rewrite (MiniParser_loop_skips_all tokens Hall (List.length tokens)) by lia.
  split; reflexivity.
Qed.

Lemma X13_witness :
  map type inertTokens
    = [NUMBER; LPAREN; NUMBER; COMMA; STRING; RPAREN; COLON; NUMBER; EOF] /\
  Parser.parse inertTokens 10 = Ok (Parser.Program []) /\
  MiniParser.parse inertTokens 10 = Ok (MiniParser.Program []).
Proof.
  split; [reflexivity|].
  apply (X13_parse_skips_tokens_that_start_no_statement inertTokens 10).
  - reflexivity.
  - simpl. lia.
Defined.

End LenientParseFacts.

Module SequenceShapeFacts.
Import Parser.

Lemma parseCall_is_call (tokens : list Token) (fuel pos : nat) (n : Node) (p : nat) :
  parseCall tokens fuel pos = Ok (n, p) ->
  exists name args ln, n = Call name args ln.
Proof.
  destruct fuel as [|f]; [discriminate|]. cbn [parseCall]. intros Hr.
  CountFacts.open_bind Hr. CountFacts.open_bind Hr.
  CountFacts.open_bind Hr. CountFacts.open_bind Hr.
  injection Hr as <- _. eauto.
Qed.

Lemma parseMoreCalls_extends (tokens : list Token) (fuel : nat) :
  forall calls pos calls' p,
    parseMoreCalls tokens fuel calls pos = Ok (calls', p) ->
    exists more, calls' = calls ++ more.
Proof.
  induction fuel as [|f IH]; intros calls pos calls' p; [discriminate|].
  cbn [parseMoreCalls].
  destruct (peekIsType tokens pos COMMA).
  - destruct (startsStatement (peekType tokens (skipNewlines tokens (S pos)))).
    + intros Hr. CountFacts.open_bind Hr.
      apply IH in Hr as [more ->].
      destruct o as [s|]; simpl.
      * exists (s :: more). now rewrite <- app_assoc.
      * now exists more.
    + apply IH.
  - intros [= <- _]. exists []. now rewrite app_nil_r.
Qed.

(** X14. What [parseCallOrSequence] returns is either the CALL node of the
    first call, unwrapped, or a SEQUENCE node of at least two statements
    that starts with it: a sequence of one is never built. *)
Theorem X14_sequence_has_at_least_two_statements
    (tokens : list Token) (fuel pos : nat) (node : Node) (p : nat) :
  parseCallOrSequence tokens fuel pos = Ok (node, p) ->
  (exists name args ln, node = Call name args ln) \/
  (exists name args ln more,
     node = Sequence (Call name args ln :: more) /\ 1 <= List.length more).
Proof.
  destruct fuel as [|f]; [discriminate|]. cbn [parseCallOrSequence]. intros Hr.
  CountFacts.open_bind Hr. CountFacts.open_bind Hr.
  destruct (parseCall_is_call _ _ _ _ _ E) as (name & args & ln & ->).
  destruct (parseMoreCalls_extends _ _ _ _ _ _ E0) as [more ->].
  destruct more as [|m more]; simpl in Hr.
  - injection Hr as <- _. left. eauto.
  - destruct more; injection Hr as <- _; right;
      eexists _, _, _, _; (split; [reflexivity | simpl; lia]).
Qed.

Lemma X14_witness :
  parseCallOrSequence sequenceTokens 8 0
    = Ok (Sequence [Call "a" [] 1;
                    Sequence [Call "b" [Number 1] 1; Call "c" [] 1]], 12) /\
  ((exists name args ln,
      Sequence [Call "a" [] 1; Sequence [Call "b" [Number 1] 1; Call "c" [] 1]]
        = Call name args ln) \/
   (exists name args ln more,
      Sequence [Call "a" [] 1; Sequence [Call "b" [Number 1] 1; Call "c" [] 1]]
        = Sequence (Call name args ln :: more) /\ 1 <= List.length more)).
Proof.
  split; [reflexivity|].
  apply (X14_sequence_has_at_least_two_statements sequenceTokens 8 0 _ 12).
  reflexivity.
Defined.

End SequenceShapeFacts.

Module OtherOpenersFacts.

(** X15. What holds of [if] holds of the other block openers: when the
    header of a [repeat], [for] or [while] parses and the first token after
    its colon and any newlines is not INDENT, the parser throws "Expected
    indented block after repeat / for loop / while loop at line L", with L
    the line of the opening keyword. *)
Theorem X15_opener_without_indented_block_is_a_syntax_error
    (tokens : list Token) (pos fuel : nat) (opener : Token) :
  at_ tokens pos = Some opener ->
  (peekType tokens (1 + pos) = LPAREN ->
   peekType tokens (2 + pos) = NUMBER ->
   peekType tokens (3 + pos) = RPAREN ->
   peekType tokens (4 + pos) = COLON ->
   peekType tokens (skipNewlines tokens (5 + pos)) <> INDENT ->
   Parser.parseRepeat tokens (S fuel) pos
     = Throw (ExpectedIndentedBlock "repeat" (Some (line opener)))) /\
  (peekType tokens (1 + pos) = IDENTIFIER ->
   peekType tokens (2 + pos) = IN ->
   peekType tokens (3 + pos) = RANGE ->
   peekType tokens (4 + pos) = LPAREN ->
   peekType tokens (5 + pos) = NUMBER ->
   peekType tokens (6 + pos) = RPAREN ->
   peekType tokens (7 + pos) = COLON ->
   peekType tokens (skipNewlines tokens (8 + pos)) <> INDENT ->
   MiniParser.parseForLoop tokens (S fuel) pos
     = Throw (ExpectedIndentedBlock "for loop" (Some (line opener)))) /\
  (forall condition p1,
     MiniParser.parseCondition tokens fuel (S pos) = Ok (condition, p1) ->
     peekType tokens p1 = COLON ->
     peekType tokens (skipNewlines tokens (S p1)) <> INDENT ->
     MiniParser.parseWhileLoop tokens (S fuel) pos
       = Throw (ExpectedIndentedBlock "while loop" (Some (line opener)))).
Proof.
  intros Hat. split; [|split].
  - intros H1 H2 H3 H4 Hno. cbn [Parser.parseRepeat].
    destruct (expect_present tokens LPAREN "Expected ( after repeat" _ H1
                ltac:(discriminate)) as (t1 & _ & _ & E1).
    destruct (expect_present tokens NUMBER "Expected number in repeat" _ H2
                ltac:(discriminate)) as (t2 & _ & _ & E2).
    destruct (expect_present tokens RPAREN "Expected )" _ H3
                ltac:(discriminate)) as (t3 & _ & _ & E3).
    destruct (expect_present tokens COLON "Expected : after repeat(n)" _ H4
                ltac:(discriminate)) as (t4 & _ & _ & E4).
    cbn [Nat.add] in *.
    rewrite E1. cbn [bind]. rewrite E2. cbn [bind]. rewrite E3. cbn [bind].
    rewrite E4. cbn [bind]. unfold Parser.openBlock.
    rewrite peekIsType_false by exact Hno. now rewrite Hat.
  - intros H1 H2 H3 H4 H5 H6 H7 Hno. cbn [MiniParser.parseForLoop].
    destruct (expect_present tokens IDENTIFIER "Expected variable name after for"
                _ H1 ltac:(discriminate)) as (t1 & _ & _ & E1).
    destruct (expect_present tokens IN "Expected in after loop variable"
                _ H2 ltac:(discriminate)) as (t2 & _ & _ & E2).
    destruct (expect_present tokens RANGE "Expected range after in"
                _ H3 ltac:(discriminate)) as (t3 & _ & _ & E3).
    destruct (expect_present tokens LPAREN "Expected ( after range"
                _ H4 ltac:(discriminate)) as (t4 & _ & _ & E4).
    destruct (expect_present tokens NUMBER "Expected number in range()"
                _ H5 ltac:(discriminate)) as (t5 & _ & _ & E5).
    destruct (expect_present tokens RPAREN "Expected ) after range argument"
                _ H6 ltac:(discriminate)) as (t6 & _ & _ & E6).
    destruct (expect_present tokens COLON "Expected : after for statement"
                _ H7 ltac:(discriminate)) as (t7 & _ & _ & E7).
    cbn [Nat.add] in *.
    rewrite E1. cbn [bind]. rewrite E2. cbn [bind]. rewrite E3. cbn [bind].
    rewrite E4. cbn [bind]. rewrite E5. cbn [bind]. rewrite E6. cbn [bind].
    rewrite E7. cbn [bind]. unfold MiniParser.openBlock.
    rewrite peekIsType_false by exact Hno. now rewrite Hat.
  - intros condition p1 Hc Hcolon Hno. cbn [MiniParser.parseWhileLoop].
    rewrite Hc. cbn [bind].
    destruct (expect_present tokens COLON "Expected : after while condition" p1
                Hcolon ltac:(discriminate)) as (t & _ & _ & E).
    rewrite E. cbn [bind]. unfold MiniParser.openBlock.
    rewrite peekIsType_false by exact Hno. now rewrite Hat.
Qed.

Lemma X15_witness :
  Parser.parseRepeat repeatNoBlockTokens 1 0
    = Throw (ExpectedIndentedBlock "repeat" (Some 1)) /\
  MiniParser.parseForLoop forNoBlockTokens 1 0
    = Throw (ExpectedIndentedBlock "for loop" (Some 1)) /\
  MiniParser.parseWhileLoop whileNoBlockTokens 2 0
    = Throw (ExpectedIndentedBlock "while loop" (Some 1)).
Proof.
  split; [|split].
  - apply (proj1 (X15_opener_without_indented_block_is_a_syntax_error
                    repeatNoBlockTokens 0 0 (mkToken REPEAT (TextValue "repeat") 1 1)
                    eq_refl));
      try reflexivity. vm_compute. discriminate.
  - apply (proj1 (proj2 (X15_opener_without_indented_block_is_a_syntax_error
                           forNoBlockTokens 0 0 (mkToken FOR (TextValue "for") 1 1)
                           eq_refl)));
      try reflexivity. vm_compute. discriminate.
  - apply (proj2 (proj2 (X15_opener_without_indented_block_is_a_syntax_error
                           whileNoBlockTokens 0 1 (mkToken WHILE (TextValue "while") 1 1)
                           eq_refl))
             (MiniParser.Call "c" [] 1) 4);
      try reflexivity. vm_compute. discriminate.
Defined.

End OtherOpenersFacts.

(** ** More on the lexers *)

Module TokenKindFacts.

Lemma Lexer_keywords_literal (s : string) : literalKind (Lexer.keywords s) = true.
Proof.
  unfold Lexer.keywords.
  repeat match goal with |- context [if ?c then _ else _] => destruct c end;
    reflexivity.
Qed.

Lemma MiniLexer_keywords_literal (s : string) : literalKind (MiniLexer.keywords s) = true.
Proof.
  unfold MiniLexer.keywords.
  repeat match goal with |- context [if ?c then _ else _] => destruct c end;
    reflexivity.
Qed.

Lemma Lexer_readLexeme_literal (c : Cursor) (t : Token) (c' : Cursor) :
  Lexer.readLexeme c = Some (t, c') -> literalKind (type t) = true.
Proof.
  unfold Lexer.readLexeme. destruct (rest c) as [|ch r]; [discriminate|].
  destruct (ch_eq ch dquote || ch_eq ch squote).
  - unfold Lexer.readString.
    destruct (Lexer.readStringBody _ _ _ _ _) as [v c1].
    now intros [= <- _].
  - destruct (isDigit ch || (ch_eq ch minus && Lexer.nextIsDigit c)).
    + unfold Lexer.readNumber.
      destruct (if peekIs c minus then _ else _) as [sign c1].
      destruct (takeWhile isDigit c1) as [ip c2].
      destruct (if peekIs c2 dot && Lexer.nextIsDigit c2 then _ else _) as [fp c3].
      now intros [= <- _].
    + destruct (isAlpha ch || ch_eq ch underscore); [|discriminate].
      unfold Lexer.readIdentifier.
      destruct (takeWhile isAlphaNumeric c) as [v c1].
      intros [= <- _]. apply Lexer_keywords_literal.
Qed.

Lemma MiniLexer_readLexeme_literal (c : Cursor) (t : Token) (c' : Cursor) :
  MiniLexer.readLexeme c = Some (t, c') -> literalKind (type t) = true.
Proof.
  unfold MiniLexer.readLexeme. destruct (rest c) as [|ch r]; [discriminate|].
  destruct (isDigit ch || (ch_eq ch minus && Lexer.nextIsDigit c)).
  - unfold MiniLexer.readNumber.
    destruct (if peekIs c minus then _ else _) as [sign c1].
    destruct (takeWhile isDigit c1) as [ds c2].
    now intros [= <- _].
  - destruct (isAlpha ch || ch_eq ch underscore); [|discriminate].
    unfold MiniLexer.readIdentifier.
    destruct (takeWhile isAlphaNumeric c) as [v c1].
    intros [= <- _]. apply MiniLexer_keywords_literal.
Qed.

Section Loop.

Variable strict : bool.
Variable readLexeme : Cursor -> option (Token * Cursor).

Hypothesis readLexeme_literal :
  forall c t c', readLexeme c = Some (t, c') -> literalKind (type t) = true.

Local Abbreviation noEOF := (Forall (fun t : Token => type t <> EOF)).

Lemma noEOF_push (st : LexState) (ts : list Token) :
  noEOF (tokens st) -> noEOF ts -> noEOF (tokens (push st ts)).
Proof. intros H1 H2. simpl. apply Forall_app. now split. Qed.

Lemma noEOF_repeat (ty : TokenType) (ln cl n : nat) :
  ty <> EOF -> noEOF (repeat (punct ty ln cl) n).
Proof. intros N. induction n; simpl; constructor; auto. Qed.

Lemma openLine_noEOF (indent : nat) (st st' : LexState) :
  noEOF (tokens st) ->
  (openLine strict indent st = Continue st' \/ openLine strict indent st = Break st') ->
  noEOF (tokens st').
Proof.
  intros Hn. unfold openLine.
  destruct (top (indentStack st) <? indent)%nat.
  - intros [[= <-]|[=]]. simpl. apply Forall_app. split; [exact Hn|].
    constructor; [discriminate | constructor].
  - destruct (indent <? top (indentStack st))%nat.
    + destruct (popIndents indent (indentStack st)) as [n stack'].
      destruct (strict && negb (top stack' =? indent)%nat && (0 <? List.length stack')%nat);
        intros [[= <-]|[=]].
      simpl. apply Forall_app. split; [exact Hn|].
      apply noEOF_repeat. discriminate.
    + now intros [[= <-]|[=]].
Qed.

Lemma scan_noEOF (st : LexState) :
  noEOF (tokens st) -> noEOF (tokens (scan readLexeme st)).
Proof.
  intros Hn. unfold scan.
  destruct (rest (cur st)) as [|ch r]; [exact Hn|].
  repeat match goal with
         | |- noEOF (tokens (if ?c then _ else _)) => destruct c
         end;
    try exact Hn;
    try (simpl; apply Forall_app; split; [exact Hn|];
         constructor; [discriminate | constructor]).
  destruct (readLexeme (cur st)) as [[t c']|] eqn:E; [|exact Hn].
  simpl. apply Forall_app. split; [exact Hn|].
  constructor; [|constructor].
  apply readLexeme_literal in E. intros Ht. now rewrite Ht in E.
Qed.

Lemma iteration_noEOF (st st' : LexState) :
  noEOF (tokens st) ->
  (iteration strict readLexeme st = Continue st' \/
   iteration strict readLexeme st = Break st') ->
  noEOF (tokens st').
Proof.
  intros Hn. unfold iteration.
  destruct (atLineStart st).
  - destruct (measureIndent (cur st)) as [indent c1].
    destruct (peekIs c1 nl || peekIs c1 hash).
    + now intros [[= <-]|[=]].
    + destruct (rest c1) as [|ch r].
      * now intros [[=]|[= <-]].
      * destruct (openLine strict indent (setCur st c1)) as [st1|st1|ln] eqn:E.
        -- intros [[= <-]|[=]]. apply scan_noEOF.
           eapply openLine_noEOF; [|left; exact E]. exact Hn.
        -- intros [[=]|[= <-]].
           eapply openLine_noEOF; [|right; exact E]. exact Hn.
        -- intros [[=]|[=]].
  - intros [[= <-]|[=]]. now apply scan_noEOF.
Qed.

Lemma loop_noEOF (fuel : nat) :
  forall st st',
    noEOF (tokens st) ->
    (loop strict readLexeme fuel st = Continue st' \/
     loop strict readLexeme fuel st = Break st') ->
    noEOF (tokens st').
Proof.
  induction fuel as [|f IH]; intros st st' Hn; simpl.
  - now intros [[=]|[= <-]].
  - destruct (rest (cur st)) as [|ch r]; [now intros [[=]|[= <-]]|].
    destruct (iteration strict readLexeme st) as [st1|st1|ln] eqn:E.
    + apply IH. eapply iteration_noEOF; [exact Hn | left; exact E].
    + intros [[=]|[= <-]]. eapply iteration_noEOF; [exact Hn | right; exact E].
    + intros [[=]|[=]].
Qed.

Lemma tokenizeWith_one_EOF (source : list ascii) (toks : list Token) :
  tokenizeWith strict readLexeme source = inl toks ->
  exists body eof,
    toks = body ++ [eof] /\ type eof = EOF /\ noEOF body.
Proof.
  unfold tokenizeWith.
  destruct (loop strict readLexeme (S (List.length source)) (initial source))
    as [st|st|ln] eqn:E; intros [= <-]; unfold flush; rewrite app_assoc;
    eexists _, _; (split; [reflexivity|]); (split; [reflexivity|]);
    (apply Forall_app; split; [|apply noEOF_repeat; discriminate]);
    (eapply loop_noEOF; [|eauto]); constructor.
Qed.

End Loop.

(** X16. The token list either lexer returns holds exactly one EOF token,
    its last: no token before the last is EOF, so the parsers, which stop at
    the first EOF, stop at the end of the input. *)
Theorem X16_EOF_occurs_once_at_the_end (source : string) (toks : list Token) :
  Lexer.tokenize source = inl toks \/ MiniLexer.tokenize source = inl toks ->
  exists body eof,
    toks = body ++ [eof] /\ type eof = EOF /\
    Forall (fun t => type t <> EOF) body.
Proof.
  intros [E|E].
  - exact (tokenizeWith_one_EOF false Lexer.readLexeme Lexer_readLexeme_literal
             (text source) toks E).
  - exact (tokenizeWith_one_EOF true MiniLexer.readLexeme MiniLexer_readLexeme_literal
             (text source) toks E).
Qed.

Lemma X16_witness :
  exists body eof,
    sequenceTokens = body ++ [eof] /\ type eof = EOF /\
    Forall (fun t => type t <> EOF) body.
Proof.
  apply (X16_EOF_occurs_once_at_the_end sequenceScript sequenceTokens).
  left. reflexivity.
Defined.

End TokenKindFacts.

Module IndentPlacementFacts.

Lemma lastType_snoc (l : list Token) (t : Token) : lastType (l ++ [t]) = Some (type t).
Proof. unfold lastType. rewrite map_app. simpl. now rewrite last_last. Qed.

Lemma snoc_split (l pre post : list Token) (t t' : Token) :
  l ++ [t] = pre ++ t' :: post ->
  (post = [] /\ pre = l /\ t' = t) \/
  (exists post', post = post' ++ [t] /\ l = pre ++ t' :: post').
Proof.
  intros E. destruct (exists_last (l := t' :: post) ltac:(discriminate))
    as (init & x & Hx).
  rewrite Hx, app_assoc in E. apply app_inj_tail in E as [-> <-].
  destruct post as [|p post].
  - left. destruct init as [|i init]; [|destruct init; discriminate Hx].
    injection Hx as ->. now rewrite app_nil_r.
  - right. destruct init as [|i init]; [discriminate Hx|].
    injection Hx as <- Hp. exists init. split; [exact Hp | reflexivity].
Qed.

Lemma indentsStartLines_snoc_plain (l : list Token) (t : Token) :
  indentsStartLines l -> type t <> INDENT -> indentsStartLines (l ++ [t]).
Proof.
  intros Hl Ht pre t' post E Hty.
  apply snoc_split in E as [(-> & -> & ->)|(post' & -> & ->)]; [contradiction|].
  eapply Hl; eauto.
Qed.

Lemma indentsStartLines_snoc_indent (l : list Token) (t : Token) :
  indentsStartLines l -> endsLine l -> indentsStartLines (l ++ [t]).
Proof.
  intros Hl He pre t' post E Hty.
  apply snoc_split in E as [(-> & -> & ->)|(post' & -> & ->)]; [exact He|].
  eapply Hl; eauto.
Qed.

Lemma indentsStartLines_app_repeat (l : list Token) (d : Token) (n : nat) :
  indentsStartLines l -> type d <> INDENT -> indentsStartLines (l ++ repeat d n).
Proof.
  intros Hl Hd. induction n as [|n IH]; [now rewrite app_nil_r|].
  replace (repeat d (S n)) with (repeat d n ++ [d])
    by (symmetry; apply (repeat_cons n d)).
  rewrite app_assoc. now apply indentsStartLines_snoc_plain.
Qed.

Section Loop.

Variable strict : bool.
Variable readLexeme : Cursor -> option (Token * Cursor).

Hypothesis readLexeme_plain :
  forall c t c', readLexeme c = Some (t, c') -> type t <> INDENT /\ type t <> DEDENT.

Lemma openLine_lineAware (indent : nat) (st st' : LexState) :
  lineAware st -> atLineStart st = true ->
  (openLine strict indent st = Continue st' \/ openLine strict indent st = Break st') ->
  lineAware st' /\ atLineStart st' = false.
Proof.
  intros [Hi He] Hs. specialize (He Hs). unfold openLine.
  destruct (top (indentStack st) <? indent)%nat.
  - intros [[= <-]|[=]]. split; [|reflexivity]. split; [|discriminate].
    simpl. now apply indentsStartLines_snoc_indent.
  - destruct (indent <? top (indentStack st))%nat.
    + destruct (popIndents indent (indentStack st)) as [n stack'].
      destruct (strict && negb (top stack' =? indent)%nat && (0 <? List.length stack')%nat);
        intros [[= <-]|[=]].
      split; [|reflexivity]. split; [|discriminate].
      simpl. apply indentsStartLines_app_repeat; [exact Hi | discriminate].
    + intros [[= <-]|[=]]. split; [|reflexivity]. split; [exact Hi | discriminate].
Qed.

Lemma scan_lineAware (st : LexState) :
  lineAware st -> atLineStart st = false -> lineAware (scan readLexeme st).
Proof.
  intros [Hi He] Hs. unfold scan.
  destruct (rest (cur st)) as [|ch r]; [now split|].
  assert (Hplain : forall t c, type t <> INDENT ->
                     lineAware (setCur (push st [t]) c)).
  { intros t c Ht. split; simpl.
    - now apply indentsStartLines_snoc_plain.
    - rewrite Hs. discriminate. }
  assert (Hsame : forall c, lineAware (setCur st c)).
  { intros c. split; simpl; [exact Hi | rewrite Hs; discriminate]. }
  repeat match goal with
         | |- lineAware (if ?c then _ else _) => destruct c
         end;
    try apply Hsame; try (apply Hplain; discriminate).
  - split; simpl.
    + apply indentsStartLines_snoc_plain; [exact Hi | discriminate].
    + intros _. right. apply lastType_snoc.
  - destruct (readLexeme (cur st)) as [[t c']|] eqn:E; [|apply Hsame].
    apply Hplain. now destruct (readLexeme_plain _ _ _ E).
Qed.

Lemma iteration_lineAware (st st' : LexState) :
  lineAware st ->
  (iteration strict readLexeme st = Continue st' \/
   iteration strict readLexeme st = Break st') ->
  lineAware st'.
Proof.
  intros Hl. unfold iteration.
  destruct (atLineStart st) eqn:Hs.
  - destruct (measureIndent (cur st)) as [indent c1].
    destruct (peekIs c1 nl || peekIs c1 hash).
    + now intros [[= <-]|[=]].
    + destruct (rest c1) as [|ch r].
      * now intros [[=]|[= <-]].
      * destruct (openLine strict indent (setCur st c1)) as [st1|st1|ln] eqn:E.
        -- intros [[= <-]|[=]].
           destruct (openLine_lineAware indent (setCur st c1) st1 Hl Hs
                       (or_introl E)) as [Hl1 Hs1].
           now apply scan_lineAware.
        -- intros [[=]|[= <-]].
           now destruct (openLine_lineAware indent (setCur st c1) st1 Hl Hs
                           (or_intror E)).
        -- intros [[=]|[=]].
  - intros [[= <-]|[=]]. now apply scan_lineAware.
Qed.

Lemma loop_lineAware (fuel : nat) :
  forall st st',
    lineAware st ->
    (loop strict readLexeme fuel st = Continue st' \/
     loop strict readLexeme fuel st = Break st') ->
    lineAware st'.
Proof.
  induction fuel as [|f IH]; intros st st' Hl; simpl.
  - now intros [[=]|[= <-]].
  - destruct (rest (cur st)) as [|ch r]; [now intros [[=]|[= <-]]|].
    destruct (iteration strict readLexeme st) as [st1|st1|ln] eqn:E.
    + apply IH. eapply iteration_lineAware; [exact Hl | left; exact E].
    + intros [[=]|[= <-]]. eapply iteration_lineAware; [exact Hl | right; exact E].
    + intros [[=]|[=]].
Qed.

Lemma tokenizeWith_indentsStartLines (source : list ascii) (toks : list Token) :
  tokenizeWith strict readLexeme source = inl toks -> indentsStartLines toks.
Proof.
  unfold tokenizeWith.
  assert (Hinit : lineAware (initial source)).
  { split; simpl; [|now left].
    intros pre t post E. destruct pre; discriminate E. }
  destruct (loop strict readLexeme (S (List.length source)) (initial source))
    as [st|st|ln] eqn:E; intros [= <-]; unfold flush; rewrite app_assoc;
    (apply indentsStartLines_snoc_plain; [|discriminate]);
    (apply indentsStartLines_app_repeat; [|discriminate]);
    (eapply loop_lineAware; [exact Hinit | eauto]).
Qed.

End Loop.

(** X17. In the token list either lexer returns, an INDENT token is the
    first token or directly follows a NEWLINE token: blocks only open at the
    start of a line, which is where the parsers look for them after a
    colon. *)
Theorem X17_indent_only_at_the_start_of_a_line
    (source : string) (toks pre post : list Token) (t : Token) :
  Lexer.tokenize source = inl toks \/ MiniLexer.tokenize source = inl toks ->
  toks = pre ++ t :: post ->
  type t = INDENT ->
  pre = [] \/ lastType pre = Some NEWLINE.
Proof.
  intros [E|E] Hsplit Hty.
  - exact (tokenizeWith_indentsStartLines false Lexer.readLexeme
             NestingFacts.Lexer_readLexeme_plain (text source) toks E
             pre t post Hsplit Hty).
  - exact (tokenizeWith_indentsStartLines true MiniLexer.readLexeme
             NestingFacts.MiniLexer_readLexeme_plain (text source) toks E
             pre t post Hsplit Hty).
Qed.

Lemma X17_witness :
  nth_error ifElseTokens 6 = Some (mkToken INDENT NoValue 2 1) /\
  (firstn 6 ifElseTokens = [] \/ lastType (firstn 6 ifElseTokens) = Some NEWLINE).
Proof.
  split; [reflexivity|].
  apply (X17_indent_only_at_the_start_of_a_line ifElseScript ifElseTokens
           (firstn 6 ifElseTokens) (skipn 7 ifElseTokens)
           (mkToken INDENT NoValue 2 1)).
  - right. reflexivity.
  - reflexivity.
  - reflexivity.
Defined.

End IndentPlacementFacts.

Module BlankSourceFacts.

Lemma blanks_skipped (s : list ascii) :
  forall ln cl,
    onlyComments false s = true ->
    let r := rest (snd (advanceWhile isBlank s ln cl)) in
    onlyComments false r = true /\
    List.length r <= List.length s /\
    match r with
    | [] => True
    | ch :: _ => ch_eq ch nl = true \/ ch_eq ch hash = true
    end.
Proof.
  induction s as [|ch r IH]; intros ln cl Hok; simpl; [auto|].
  destruct (isBlank ch) eqn:Hb.
  - simpl in Hok. rewrite Hb in Hok. simpl in Hok.
    specialize (IH (lineAfter ch ln) (colAfter ch cl) Hok).
    destruct (advanceWhile isBlank r (lineAfter ch ln) (colAfter ch cl)) as [taken c'].
    simpl in *. destruct IH as (H1 & H2 & H3). repeat split; auto.
  - simpl. split; [exact Hok|]. split; [lia|].
    simpl in Hok. rewrite Hb in Hok. simpl in Hok.
    destruct (ch_eq ch nl); [now left|].
    destruct (ch_eq ch hash); [now right | discriminate].
Qed.

Lemma comment_skipped (s : list ascii) :
  forall ln cl,
    onlyComments true s = true ->
    let r := rest (snd (advanceWhile (fun ch => negb (ch_eq ch nl)) s ln cl)) in
    List.length r <= List.length s /\
    match r with
    | [] => True
    | ch :: r' => ch_eq ch nl = true /\ onlyComments false r' = true
    end.
Proof.
  induction s as [|ch r IH]; intros ln cl Hok; simpl; [auto|].
  simpl in Hok.
  destruct (ch_eq ch nl) eqn:Hn; simpl in *.
  - split; [lia|]. now split.
  - specialize (IH (lineAfter ch ln) (colAfter ch cl) Hok).
    destruct (advanceWhile (fun ch0 => negb (ch_eq ch0 nl)) r
                (lineAfter ch ln) (colAfter ch cl)) as [taken c'].
    simpl in *. destruct IH as [H1 H2]. split; [lia | exact H2].
Qed.

Section Loop.

Variable strict : bool.
Variable readLexeme : Cursor -> option (Token * Cursor).

(** A turn at the start of a line of such a source only moves the cursor. *)
Lemma quiet_turn (st : LexState) (ch : ascii) (r : list ascii) :
  atLineStart st = true ->
  rest (cur st) = ch :: r ->
  onlyComments false (rest (cur st)) = true ->
  exists c',
    onlyComments false (rest c') = true /\
    ((iteration strict readLexeme st = Continue (setCur st c') /\
      List.length (rest c') < List.length (rest (cur st))) \/
     iteration strict readLexeme st = Break (setCur st c')).
Proof.
  intros Hs Hrest Hok. unfold iteration. rewrite Hs.
  unfold measureIndent, takeWhile.
  pose proof (blanks_skipped (rest (cur st)) (cline (cur st)) (ccol (cur st)) Hok)
    as Hb.
  destruct (advanceWhile isBlank (rest (cur st)) (cline (cur st)) (ccol (cur st)))
    as [blanks c1]. simpl in Hb. destruct Hb as (Hok1 & Hle1 & Hhead).
  unfold peekIs, peek.
  destruct (rest c1) as [|ch1 r1] eqn:E1.
  - simpl. exists c1. rewrite E1. split; [reflexivity | now right].
  - simpl hd_error. cbv iota.
    destruct Hhead as [Hn|Hh].
    + (* a blank line *)
      rewrite Hn. simpl orb. cbv iota.
      assert (Hnh : ch_eq ch1 hash = false).
      { apply Ascii.eqb_eq in Hn. subst ch1. reflexivity. }
      rewrite Hnh. rewrite E1. simpl hd_error. cbv iota. rewrite Hn.
      exists (advance c1). unfold advance. rewrite E1. simpl rest.
      simpl in Hok1. rewrite Hn in Hok1. rewrite orb_true_r in Hok1.
      split; [exact Hok1|]. left. split; [reflexivity|]. simpl in Hle1. lia.
    + (* a comment line *)
      assert (Hnn : ch_eq ch1 nl = false).
      { apply Ascii.eqb_eq in Hh. subst ch1. reflexivity. }
      assert (Hnb : isBlank ch1 = false).
      { apply Ascii.eqb_eq in Hh. subst ch1. reflexivity. }
      rewrite Hnn, Hh. simpl orb. cbv iota.
      simpl in Hok1. rewrite Hnb, Hnn, Hh in Hok1. simpl in Hok1.
      unfold skipComment, takeWhile. rewrite E1.
      cbn [advanceWhile]. rewrite Hnn. cbn [negb].
      pose proof (comment_skipped r1 (lineAfter ch1 (cline c1))
                    (colAfter ch1 (ccol c1)) Hok1) as Hc.
      destruct (advanceWhile (fun ch0 => negb (ch_eq ch0 nl)) r1
                  (lineAfter ch1 (cline c1)) (colAfter ch1 (ccol c1)))
        as [taken c2]. simpl in Hc. destruct Hc as [Hle2 Hhead2].
      cbn [snd].
      destruct (rest c2) as [|ch2 r2] eqn:E2.
      * simpl hd_error. cbv iota. exists c2. rewrite E2.
        split; [reflexivity|]. left. split; [reflexivity|].
        simpl in *. lia.
      * destruct Hhead2 as [Hn2 Hok2]. simpl hd_error. cbv iota. rewrite Hn2.
        exists (advance c2). unfold advance. rewrite E2. simpl rest.
        split; [exact Hok2|]. left. split; [reflexivity|]. simpl in *. lia.
Qed.

Lemma quiet_loop (n : nat) :
  forall st,
    atLineStart st = true ->
    onlyComments false (rest (cur st)) = true ->
    List.length (rest (cur st)) < n ->
    exists st',
      (loop strict readLexeme n st = Continue st' \/
       loop strict readLexeme n st = Break st') /\
      tokens st' = tokens st /\ indentStack st' = indentStack st.
Proof.
  induction n as [|n IH]; intros st Hs Hok Hlen; [lia|].
  cbn [loop].
  destruct (rest (cur st)) as [|ch r] eqn:E.
  - exists st. auto.
  - assert (Hok' : onlyComments false (rest (cur st)) = true) by now rewrite E.
    destruct (quiet_turn st ch r Hs E Hok') as (c' & Hokc & [[It Hlt]|It]);
      rewrite It.
    + rewrite E in Hlt.
      destruct (IH (setCur st c') Hs Hokc ltac:(simpl in *; lia))
        as (st' & Hl & Ht & Hi).
      exists st'. auto.
    + exists (setCur st c'). auto.
Qed.

Lemma tokenizeWith_only_EOF (source : list ascii) :
  onlyComments false source = true ->
  exists ln cl, tokenizeWith strict readLexeme source = inl [punct EOF ln cl].
Proof.
  intros Hok. unfold tokenizeWith.
  destruct (quiet_loop (S (List.length source)) (initial source) eq_refl Hok
              ltac:(simpl; lia)) as (st' & [E|E] & Ht & Hi);
    rewrite E; unfold flush; rewrite Ht, Hi; simpl; eauto.
Qed.

End Loop.

(** X18. A source of blank lines and comments only - spaces, tabs, line
    feeds and [#] comments, the empty source included - lexes to the single
    token EOF in both lexers, whatever the indentation of the comment lines,
    and parses to the empty Program. *)
Theorem X18_blank_and_comment_lines_give_the_empty_program
    (source : string) (fuel : nat) :
  onlyComments false (text source) = true ->
  1 <= fuel ->
  (exists ln cl, Lexer.tokenize source = inl [punct EOF ln cl]) /\
  (exists ln cl, MiniLexer.tokenize source = inl [punct EOF ln cl]) /\
  Parser.parseScript fuel source = Ok (Parser.Program []) /\
  MiniParser.parseSource fuel source = MiniParser.Parsed_ (Ok (MiniParser.Program [])).
Proof.
  intros Hok Hf.
  destruct (tokenizeWith_only_EOF false Lexer.readLexeme (text source) Hok)
    as (ln & cl & E1).
  destruct (tokenizeWith_only_EOF true MiniLexer.readLexeme (text source) Hok)
    as (ln' & cl' & E2).
  repeat split; eauto.
  - unfold Parser.parseScript, Lexer.tokenize. rewrite E1.
    destruct fuel as [|f]; [lia | reflexivity].
  - unfold MiniParser.parseSource, MiniLexer.tokenize. rewrite E2.
    destruct fuel as [|f]; [lia | reflexivity].
Qed.

Lemma X18_witness :
  (exists ln cl, Lexer.tokenize commentedScript = inl [punct EOF ln cl]) /\
  (exists ln cl, MiniLexer.tokenize commentedScript = inl [punct EOF ln cl]) /\
  Parser.parseScript 1 commentedScript = Ok (Parser.Program []) /\
  MiniParser.parseSource 1 commentedScript
    = MiniParser.Parsed_ (Ok (MiniParser.Program [])).
Proof.
  apply (X18_blank_and_comment_lines_give_the_empty_program commentedScript 1).
  - reflexivity.
  - lia.
Defined.

End BlankSourceFacts.

Module TabFacts.

Lemma expandTabs_cons (ch : ascii) (r : list ascii) :
  expandTabs (ch :: r)
  = (if ch_eq ch tab then [space; space; space; space] else [ch]) ++ expandTabs r.
Proof. reflexivity. Qed.

Lemma expandTabs_tab (r : list ascii) :
  expandTabs (tab :: r) = space :: space :: space :: space :: expandTabs r.
Proof. reflexivity. Qed.

Lemma expandTabs_other (ch : ascii) (r : list ascii) :
  ch_eq ch tab = false -> expandTabs (ch :: r) = ch :: expandTabs r.
Proof. intros E. rewrite expandTabs_cons, E. reflexivity. Qed.

Lemma expandTabs_length (s : list ascii) :
  List.length s <= List.length (expandTabs s).
Proof.
  induction s as [|ch r IH]; [simpl; lia|].
  rewrite expandTabs_cons, length_app.
  destruct (ch_eq ch tab); simpl; lia.
Qed.

Lemma is_tab (ch : ascii) : ch_eq ch tab = true -> ch = tab.
Proof. apply Ascii.eqb_eq. Qed.

Lemma advanceWhile_go (p : ascii -> bool) (ch : ascii) (r : list ascii) (ln cl : nat) :
  p ch = true ->
  advanceWhile p (ch :: r) ln cl
  = (ch :: fst (advanceWhile p r (lineAfter ch ln) (colAfter ch cl)),
     snd (advanceWhile p r (lineAfter ch ln) (colAfter ch cl))).
Proof.
  intros E. cbn [advanceWhile]. rewrite E.
  now destruct (advanceWhile p r (lineAfter ch ln) (colAfter ch cl)).
Qed.

Lemma advanceWhile_stop (p : ascii -> bool) (ch : ascii) (r : list ascii) (ln cl : nat) :
  p ch = false ->
  advanceWhile p (ch :: r) ln cl = ([], mkCursor (ch :: r) ln cl).
Proof. intros E. cbn [advanceWhile]. now rewrite E. Qed.

(** A loop [while (p(peek())) advance()] whose test does not tell a tab from
    a space stops at the same place in both sources. *)
Lemma advanceWhile_expandTabs (p : ascii -> bool) (s : list ascii) :
  p tab = p space ->
  forall ln cl cl',
    fst (advanceWhile p (expandTabs s) ln cl') = expandTabs (fst (advanceWhile p s ln cl)) /\
    (p tab = false ->
     fst (advanceWhile p (expandTabs s) ln cl') = fst (advanceWhile p s ln cl)) /\
    sameCursor (snd (advanceWhile p s ln cl)) (snd (advanceWhile p (expandTabs s) ln cl')).
Proof.
  intros Hp. induction s as [|ch r IH]; intros ln cl cl'.
  - simpl. unfold sameCursor. simpl. auto.
  - destruct (ch_eq ch tab) eqn:Ht.
    + apply is_tab in Ht. subst ch. rewrite expandTabs_tab.
      destruct (p tab) eqn:Hpt; symmetry in Hp.
      * rewrite !advanceWhile_go by assumption.
        replace (lineAfter space (lineAfter space (lineAfter space (lineAfter space ln))))
          with ln by reflexivity.
        change (lineAfter tab ln) with ln. cbn [fst snd].
        destruct (IH ln (colAfter tab cl)
                    (colAfter space (colAfter space (colAfter space (colAfter space cl')))))
          as (H1 & H2 & H3).
        rewrite H1, expandTabs_tab.
        split; [reflexivity|]. split; [discriminate | exact H3].
      * rewrite !advanceWhile_stop by assumption.
        unfold sameCursor. simpl. auto.
    + rewrite (expandTabs_other ch r Ht).
      destruct (p ch) eqn:Hpc.
      * rewrite !advanceWhile_go by assumption. cbn [fst snd].
        destruct (IH (lineAfter ch ln) (colAfter ch cl) (colAfter ch cl'))
          as (H1 & H2 & H3).
        split; [now rewrite H1, (expandTabs_other ch _ Ht)|].
        split; [intros Hf; now rewrite (H2 Hf) | exact H3].
      * rewrite !advanceWhile_stop by assumption.
        unfold sameCursor. cbn [fst snd rest cline].
        rewrite (expandTabs_other ch r Ht). auto.
Qed.

Lemma takeWhile_same (p : ascii -> bool) (c1 c2 : Cursor) :
  p tab = p space ->
  sameCursor c1 c2 ->
  fst (takeWhile p c2) = expandTabs (fst (takeWhile p c1)) /\
  (p tab = false -> fst (takeWhile p c2) = fst (takeWhile p c1)) /\
  sameCursor (snd (takeWhile p c1)) (snd (takeWhile p c2)).
Proof.
  intros Hp [Hr Hl]. unfold takeWhile. rewrite Hr, Hl.
  apply advanceWhile_expandTabs. exact Hp.
Qed.

(** A tab counts as much as four spaces. *)
Lemma indent_expandTabs (blanks : list ascii) :
  list_sum (map indentUnits (expandTabs blanks)) = list_sum (map indentUnits blanks).
Proof.
  induction blanks as [|ch r IH]; [reflexivity|].
  destruct (ch_eq ch tab) eqn:Ht.
  - apply is_tab in Ht. subst ch. rewrite expandTabs_tab. simpl in *. lia.
  - rewrite (expandTabs_other ch r Ht). simpl. lia.
Qed.

Lemma measureIndent_same (c1 c2 : Cursor) :
  sameCursor c1 c2 ->
  fst (measureIndent c2) = fst (measureIndent c1) /\
  sameCursor (snd (measureIndent c1)) (snd (measureIndent c2)).
Proof.
  intros Hs. unfold measureIndent.
  destruct (takeWhile_same isBlank c1 c2 eq_refl Hs) as (H1 & _ & H3).
  destruct (takeWhile isBlank c1) as [b1 d1].
  destruct (takeWhile isBlank c2) as [b2 d2]. simpl in *.
  rewrite H1, indent_expandTabs. auto.
Qed.

Lemma head_same (c1 c2 : Cursor) (ch : ascii) (r : list ascii) :
  sameCursor c1 c2 -> rest c1 = ch :: r -> ch_eq ch tab = false ->
  rest c2 = ch :: expandTabs r.
Proof. intros [Hr _] E Ht. rewrite Hr, E. now apply expandTabs_other. Qed.

Lemma tab_same (c1 c2 : Cursor) (r : list ascii) :
  sameCursor c1 c2 -> rest c1 = tab :: r ->
  rest c2 = space :: space :: space :: space :: expandTabs r.
Proof. intros [Hr _] E. now rewrite Hr, E. Qed.

Lemma end_same (c1 c2 : Cursor) :
  sameCursor c1 c2 -> rest c1 = [] -> rest c2 = [].
Proof. intros [Hr _] E. now rewrite Hr, E. Qed.

Lemma advance_same (c1 c2 : Cursor) (ch : ascii) (r : list ascii) :
  sameCursor c1 c2 -> rest c1 = ch :: r -> ch_eq ch tab = false ->
  sameCursor (advance c1) (advance c2).
Proof.
  intros Hs E Ht. pose proof (head_same c1 c2 ch r Hs E Ht) as E2.
  destruct Hs as [_ Hl]. unfold advance. rewrite E, E2.
  unfold sameCursor. simpl. now rewrite Hl.
Qed.

Lemma peekIs_same (c1 c2 : Cursor) (x : ascii) :
  sameCursor c1 c2 -> ch_eq space x = false -> ch_eq tab x = false ->
  peekIs c2 x = peekIs c1 x.
Proof.
  intros [Hr _] Hsx Htx. unfold peekIs, peek. rewrite Hr.
  destruct (rest c1) as [|ch r]; [reflexivity|].
  destruct (ch_eq ch tab) eqn:Ht.
  - apply is_tab in Ht. subst ch. rewrite expandTabs_tab. cbn [hd_error].
    now rewrite Hsx, Htx.
  - now rewrite (expandTabs_other ch r Ht).
Qed.

Lemma skipComment_same (c1 c2 : Cursor) :
  sameCursor c1 c2 -> sameCursor (skipComment c1) (skipComment c2).
Proof.
  intros Hs. unfold skipComment.
  now destruct (takeWhile_same (fun ch => negb (ch_eq ch nl)) c1 c2 eq_refl Hs)
    as (_ & _ & H3).
Qed.

Lemma skipWhitespaceOnLine_same (c1 c2 : Cursor) :
  sameCursor c1 c2 -> sameCursor (skipWhitespaceOnLine c1) (skipWhitespaceOnLine c2).
Proof.
  intros Hs. unfold skipWhitespaceOnLine.
  now destruct (takeWhile_same isBlank c1 c2 eq_refl Hs) as (_ & _ & H3).
Qed.

Lemma setCur_same (st1 st2 : LexState) (c1 c2 : Cursor) :
  sameState st1 st2 -> sameCursor c1 c2 -> sameState (setCur st1 c1) (setCur st2 c2).
Proof. intros (_ & H2 & H3 & H4) Hc. unfold sameState. simpl. auto. Qed.

Lemma push_same (st1 st2 : LexState) (ts1 ts2 : list Token) :
  sameState st1 st2 -> map withoutColumn ts2 = map withoutColumn ts1 ->
  sameState (push st1 ts1) (push st2 ts2).
Proof.
  intros (H1 & H2 & H3 & H4) Ht. unfold sameState. simpl.
  rewrite !map_app, H3, Ht. auto.
Qed.

Lemma setLineStart_same (st1 st2 : LexState) (b : bool) :
  sameState st1 st2 -> sameState (setLineStart st1 b) (setLineStart st2 b).
Proof. intros (H1 & H2 & H3 & H4). unfold sameState. simpl. auto. Qed.

Lemma setStack_same (st1 st2 : LexState) (s : list nat) :
  sameState st1 st2 -> sameState (setStack st1 s) (setStack st2 s).
Proof. intros (H1 & H2 & H3 & H4). unfold sameState. simpl. auto. Qed.

Lemma punct_same (ty : TokenType) (ln cl cl' : nat) :
  map withoutColumn [punct ty ln cl'] = map withoutColumn [punct ty ln cl].
Proof. reflexivity. Qed.

Section Loop.

Variable strict : bool.
Variable readLexeme : Cursor -> option (Token * Cursor).

Hypothesis readLexeme_same :
  forall c1 c2, sameCursor c1 c2 -> sameLexeme (readLexeme c1) (readLexeme c2).

Lemma openLine_same (indent : nat) (st1 st2 : LexState) :
  sameState st1 st2 ->
  sameStep (openLine strict indent st1) (openLine strict indent st2).
Proof.
  intros Hs. pose proof Hs as ((_ & Hl) & Hi & _ & _).
  unfold openLine. rewrite Hi, Hl.
  destruct (top (indentStack st1) <? indent)%nat.
  { simpl. apply setLineStart_same, push_same; [|reflexivity].
    apply setStack_same, Hs. }
  destruct (indent <? top (indentStack st1))%nat.
  2:{ simpl. apply setLineStart_same, Hs. }
  destruct (popIndents indent (indentStack st1)) as [n stack'].
  destruct (strict && negb (top stack' =? indent)%nat && (0 <? List.length stack')%nat);
    [reflexivity|].
  simpl. apply setLineStart_same, push_same; [|reflexivity].
  apply setStack_same, Hs.
Qed.

Lemma scan_same (st1 st2 : LexState) :
  sameState st1 st2 -> sameState (scan readLexeme st1) (scan readLexeme st2).
Proof.
  intros Hs. pose proof Hs as (Hc & _). pose proof Hc as [Hr Hl].
  unfold scan.
  destruct (rest (cur st1)) as [|ch r] eqn:E.
  { rewrite (end_same _ _ Hc E). exact Hs. }
  destruct (ch_eq ch tab) eqn:Ht.
  { apply is_tab in Ht. subst ch. rewrite (tab_same _ _ r Hc E).
    change (isBlank space) with true. change (isBlank tab) with true. cbv iota.
    apply setCur_same, skipWhitespaceOnLine_same; assumption. }
  rewrite (head_same _ _ ch r Hc E Ht).
  pose proof (advance_same _ _ ch r Hc E Ht) as Ha.
  destruct (isBlank ch).
  { apply setCur_same, skipWhitespaceOnLine_same; assumption. }
  destruct (ch_eq ch nl).
  { apply setLineStart_same, setCur_same; [|exact Ha].
    apply push_same; [exact Hs | now rewrite Hl]. }
  destruct (ch_eq ch hash).
  { apply setCur_same, skipComment_same; assumption. }
  destruct (ch_eq ch "("%char).
  { apply setCur_same; [|exact Ha]. apply push_same; [exact Hs | now rewrite Hl]. }
  destruct (ch_eq ch ")"%char).
  { apply setCur_same; [|exact Ha]. apply push_same; [exact Hs | now rewrite Hl]. }
  destruct (ch_eq ch ":"%char).
  { apply setCur_same; [|exact Ha]. apply push_same; [exact Hs | now rewrite Hl]. }
  destruct (ch_eq ch ","%char).
  { apply setCur_same; [|exact Ha]. apply push_same; [exact Hs | now rewrite Hl]. }
  pose proof (readLexeme_same _ _ Hc) as HL. unfold sameLexeme in HL.
  destruct (readLexeme (cur st1)) as [[t1 d1]|], (readLexeme (cur st2)) as [[t2 d2]|];
    try contradiction.
  - destruct HL as [Ht' Hd]. apply setCur_same; [|exact Hd].
    apply push_same; [exact Hs|]. simpl. now rewrite Ht'.
  - apply setCur_same; assumption.
Qed.

Lemma iteration_same (st1 st2 : LexState) :
  sameState st1 st2 ->
  sameStep (iteration strict readLexeme st1) (iteration strict readLexeme st2).
Proof.
  intros Hs. pose proof Hs as (Hc & _ & _ & Hb).
  unfold iteration. rewrite Hb.
  destruct (atLineStart st1).
  2:{ simpl. apply scan_same, Hs. }
  destruct (measureIndent_same _ _ Hc) as [Hi Hm].
  destruct (measureIndent (cur st1)) as [i1 d1].
  destruct (measureIndent (cur st2)) as [i2 d2]. simpl in Hi, Hm. subst i2.
  rewrite (peekIs_same d1 d2 nl Hm eq_refl eq_refl).
  rewrite (peekIs_same d1 d2 hash Hm eq_refl eq_refl).
  destruct (peekIs d1 nl || peekIs d1 hash) eqn:Hp.
  - assert (H2 : sameCursor (if peekIs d1 hash then skipComment d1 else d1)
                            (if peekIs d1 hash then skipComment d2 else d2)).
    { destruct (peekIs d1 hash); [now apply skipComment_same | exact Hm]. }
    set (e1 := if peekIs d1 hash then skipComment d1 else d1) in *.
    set (e2 := if peekIs d1 hash then skipComment d2 else d2) in *.
    rewrite (peekIs_same e1 e2 nl H2 eq_refl eq_refl).
    simpl. apply setCur_same; [exact Hs|].
    destruct (peekIs e1 nl) eqn:Hn; [|exact H2].
    destruct (LoopFacts.peekIs_head _ _ Hn) as [r Er].
    exact (advance_same _ _ nl r H2 Er eq_refl).
  - destruct (rest d1) as [|ch r] eqn:E.
    + rewrite (end_same _ _ Hm E). simpl. now apply setCur_same.
    + assert (E2 : exists ch' r', rest d2 = ch' :: r').
      { destruct Hm as [Hr _]. rewrite Hr, E, expandTabs_cons.
        destruct (ch_eq ch tab); simpl; eauto. }
      destruct E2 as (ch' & r' & E2). rewrite E2.
      pose proof (openLine_same i1 (setCur st1 d1) (setCur st2 d2)
                    (setCur_same _ _ _ _ Hs Hm)) as Ho.
      destruct (openLine strict i1 (setCur st1 d1)) as [a|a|l1],
               (openLine strict i1 (setCur st2 d2)) as [b|b|l2];
        simpl in Ho; try contradiction; simpl; auto.
      now apply scan_same.
Qed.

Lemma loop_same (fuel : nat) :
  forall st1 st2,
    sameState st1 st2 ->
    sameStep (loop strict readLexeme fuel st1) (loop strict readLexeme fuel st2).
Proof.
  induction fuel as [|f IH]; intros st1 st2 Hs; [exact Hs|].
  pose proof Hs as (Hc & _). cbn [loop].
  destruct (rest (cur st1)) as [|ch r] eqn:E.
  - rewrite (end_same _ _ Hc E). exact Hs.
  - assert (E2 : exists ch' r', rest (cur st2) = ch' :: r').
    { destruct Hc as [Hr _]. rewrite Hr, E, expandTabs_cons.
      destruct (ch_eq ch tab); simpl; eauto. }
    destruct E2 as (ch' & r' & E2). rewrite E2.
    pose proof (iteration_same st1 st2 Hs) as Hi.
    destruct (iteration strict readLexeme st1) as [a|a|l1],
             (iteration strict readLexeme st2) as [b|b|l2];
      simpl in Hi; try contradiction; simpl; auto.
Qed.

Lemma flush_same (st1 st2 : LexState) :
  sameState st1 st2 ->
  map withoutColumn (flush st2) = map withoutColumn (flush st1).
Proof.
  intros ((_ & Hl) & Hi & Ht & _). unfold flush.
  rewrite !map_app, !map_repeat, Ht, Hi, Hl. reflexivity.
Qed.

Hypothesis readLexeme_consumes :
  forall c t c', readLexeme c = Some (t, c') ->
                 List.length (rest c') < List.length (rest c).

Lemma tokenizeWith_expandTabs (source : list ascii) :
  withoutColumns (tokenizeWith strict readLexeme (expandTabs source))
  = withoutColumns (tokenizeWith strict readLexeme source).
Proof.
  unfold tokenizeWith.
  rewrite (LoopFacts.loop_fuel_irrelevant strict readLexeme readLexeme_consumes
             (S (List.length source)) (S (List.length (expandTabs source)))
             (initial source)).
  2,3: pose proof (expandTabs_length source); simpl; lia.
  assert (H0 : sameState (initial source) (initial (expandTabs source))).
  { unfold sameState, sameCursor. simpl. auto. }
  pose proof (loop_same (S (List.length (expandTabs source))) _ _ H0) as Hl.
  destruct (loop strict readLexeme _ (initial source)) as [a|a|l1],
           (loop strict readLexeme _ (initial (expandTabs source))) as [b|b|l2];
    simpl in Hl; try contradiction; simpl.
  - now rewrite (flush_same _ _ Hl).
  - now rewrite (flush_same _ _ Hl).
  - now rewrite Hl.
Qed.

End Loop.

Lemma nextIsDigit_same (c1 c2 : Cursor) (ch : ascii) (r : list ascii) :
  sameCursor c1 c2 -> rest c1 = ch :: r -> ch_eq ch tab = false ->
  Lexer.nextIsDigit c2 = Lexer.nextIsDigit c1.
Proof.
  intros Hs E Ht. unfold Lexer.nextIsDigit, peek1.
  rewrite (head_same _ _ ch r Hs E Ht), E. simpl.
  destruct r as [|d r']; [reflexivity|].
  destruct (ch_eq d tab) eqn:Hd.
  - apply is_tab in Hd. subst d. reflexivity.
  - now rewrite (expandTabs_other d r' Hd).
Qed.

Lemma MiniLexer_readLexeme_same (c1 c2 : Cursor) :
  sameCursor c1 c2 ->
  sameLexeme (MiniLexer.readLexeme c1) (MiniLexer.readLexeme c2).
Proof.
  intros Hs. pose proof Hs as [Hr Hl]. unfold MiniLexer.readLexeme.
  destruct (rest c1) as [|ch r] eqn:E.
  { rewrite (end_same _ _ Hs E). exact I. }
  destruct (ch_eq ch tab) eqn:Ht.
  { apply is_tab in Ht. subst ch. rewrite (tab_same _ _ r Hs E). exact I. }
  rewrite (head_same _ _ ch r Hs E Ht), (nextIsDigit_same _ _ ch r Hs E Ht).
  destruct (isDigit ch || (ch_eq ch minus && Lexer.nextIsDigit c1)).
  - unfold MiniLexer.readNumber.
    rewrite (peekIs_same c1 c2 minus Hs eq_refl eq_refl).
    assert (Hsign : exists sign d1 d2,
               (if peekIs c1 minus then ([minus], advance c1) else ([], c1)) = (sign, d1) /\
               (if peekIs c1 minus then ([minus], advance c2) else ([], c2)) = (sign, d2) /\
               sameCursor d1 d2).
    { destruct (peekIs c1 minus); do 3 eexists; repeat split;
        try reflexivity; try exact Hs.
      all: try (eapply advance_same; eauto). all: apply Hs. }
    destruct Hsign as (sign & d1 & d2 & -> & -> & Hd).
    destruct (takeWhile_same isDigit d1 d2 eq_refl Hd) as (_ & H2 & H3).
    specialize (H2 eq_refl).
    destruct (takeWhile isDigit d1) as [ds1 e1].
    destruct (takeWhile isDigit d2) as [ds2 e2]. simpl in *. subst ds2.
    split; [|exact H3]. unfold withoutColumn. simpl. now rewrite Hl.
  - destruct (isAlpha ch || ch_eq ch underscore); [|exact I].
    unfold MiniLexer.readIdentifier.
    destruct (takeWhile_same isAlphaNumeric c1 c2 eq_refl Hs) as (_ & H2 & H3).
    specialize (H2 eq_refl).
    destruct (takeWhile isAlphaNumeric c1) as [v1 e1].
    destruct (takeWhile isAlphaNumeric c2) as [v2 e2]. simpl in *. subst v2.
    split; [|exact H3]. unfold withoutColumn. simpl. now rewrite Hl.
Qed.

(** X19. [MiniLexer] reads a tab as four spaces everywhere: replacing every
    tab of a source by four spaces gives the same result - the same tokens
    with the same types, values and lines, or the same indentation error at
    the same line - and only the columns of the tokens can differ. *)
Theorem X19_a_tab_is_four_spaces_to_MiniLexer (source : string) :
  withoutColumns (MiniLexer.tokenize (string_of_list_ascii (expandTabs (text source))))
  = withoutColumns (MiniLexer.tokenize source).
Proof.
  unfold MiniLexer.tokenize, text.
  rewrite list_ascii_of_string_of_list_ascii.
  apply tokenizeWith_expandTabs.
  - exact MiniLexer_readLexeme_same.
  - exact LoopFacts.MiniLexer_readLexeme_consumes.
Qed.

End TabFacts.

Module ColumnFacts.

Lemma bind_same {A A' B : Type} (g : A -> A')
    (X : Result A) (X' : Result A') (k : A -> Result B) (k' : A' -> Result B) :
  X' = mapResult g X ->
  (forall a, k' (g a) = resultWithoutColumn (k a)) ->
  bind X' k' = resultWithoutColumn (bind X k).
Proof. intros -> Hk. destruct X; simpl; auto. Qed.

Section Columns.

Variable tokens : list Token.

Local Abbreviation tokens' := (map withoutColumn tokens).

Lemma at_map (pos : nat) : at_ tokens' pos = option_map withoutColumn (at_ tokens pos).
Proof. unfold at_. apply nth_error_map. Qed.

Lemma peekType_map (pos : nat) : peekType tokens' pos = peekType tokens pos.
Proof. unfold peekType. rewrite at_map. now destruct (at_ tokens pos). Qed.

Lemma peekIsType_map (pos : nat) (ty : TokenType) :
  peekIsType tokens' pos ty = peekIsType tokens pos ty.
Proof. unfold peekIsType. now rewrite peekType_map. Qed.

Lemma peekLine_map (pos : nat) : peekLine tokens' pos = peekLine tokens pos.
Proof. unfold peekLine. rewrite at_map. now destruct (at_ tokens pos). Qed.

Lemma skipNewlinesFrom_map (remaining : nat) :
  forall pos, skipNewlinesFrom tokens' remaining pos = skipNewlinesFrom tokens remaining pos.
Proof.
  induction remaining as [|k IH]; intros pos; simpl; [reflexivity|].
  rewrite peekIsType_map, IH. reflexivity.
Qed.

Lemma skipNewlines_map (pos : nat) : skipNewlines tokens' pos = skipNewlines tokens pos.
Proof. unfold skipNewlines. now rewrite length_map, skipNewlinesFrom_map. Qed.

Lemma expect_map (ty : TokenType) (errorMsg : string) (pos : nat) :
  expect tokens' ty errorMsg pos = mapResult tokenWithPosition (expect tokens ty errorMsg pos).
Proof.
  unfold expect. rewrite peekIsType_map, peekType_map, peekLine_map.
  unfold peekCol. rewrite at_map.
  destruct (peekIsType tokens pos ty); now destruct (at_ tokens pos).
Qed.

Lemma lineOf_map (t : option Token) :
  lineOf (option_map withoutColumn t) = mapResult (fun a => a) (lineOf t).
Proof. now destruct t. Qed.

Ltac same_by L :=
  eapply bind_same; [apply L | intros ?; cbv beta].

Ltac peeks :=
  rewrite ?skipNewlines_map, ?peekIsType_map, ?peekType_map, ?peekLine_map, ?at_map.

Lemma parseArgument_map (pos : nat) :
  MiniParser.parseArgument tokens' pos
  = mapResult (fun a => a) (MiniParser.parseArgument tokens pos).
Proof.
  unfold MiniParser.parseArgument. rewrite at_map.
  destruct (at_ tokens pos) as [t|]; [|reflexivity]. simpl.
  now destruct (type t).
Qed.

Lemma parseMoreArguments_map (fuel : nat) :
  forall args pos,
    MiniParser.parseMoreArguments tokens' fuel args pos
    = mapResult (fun a => a) (MiniParser.parseMoreArguments tokens fuel args pos).
Proof.
  induction fuel as [|f IH]; intros args pos; [reflexivity|].
  cbn [MiniParser.parseMoreArguments]. peeks.
  destruct (peekIsType tokens pos COMMA); [|reflexivity].
  same_by parseArgument_map. destruct a as [a p]. apply IH.
Qed.

Lemma parseCallWithParens_map (fuel : nat) (name : string) (ln pos : nat) :
  MiniParser.parseCallWithParens tokens' fuel name ln pos
  = mapResult (fun a => a) (MiniParser.parseCallWithParens tokens fuel name ln pos).
Proof.
  unfold MiniParser.parseCallWithParens.
  same_by expect_map. destruct a as [t p1]. cbn [tokenWithPosition fst snd]. peeks.
  eapply (bind_same (fun a => a)).
  - destruct (peekIsType tokens p1 RPAREN); [reflexivity|].
    same_by parseArgument_map. destruct a as [a p]. apply parseMoreArguments_map.
  - intros [args p2]. same_by expect_map. destruct a as [t' p3]. reflexivity.
Qed.

Lemma parseCondition_map (fuel pos : nat) :
  MiniParser.parseCondition tokens' fuel pos
  = mapResult (fun a => a) (MiniParser.parseCondition tokens fuel pos).
Proof.
  unfold MiniParser.parseCondition. peeks.
  destruct (at_ tokens pos) as [t|]; [|reflexivity]. simpl.
  destruct (type t); try reflexivity.
  destruct (peekIsType tokens (S pos) LPAREN); [|reflexivity].
  apply parseCallWithParens_map.
Qed.

Lemma parseCall_map (fuel pos : nat) :
  MiniParser.parseCall tokens' fuel pos
  = mapResult (fun a => a) (MiniParser.parseCall tokens fuel pos).
Proof.
  unfold MiniParser.parseCall. peeks.
  destruct (at_ tokens pos) as [t|]; [|reflexivity]. simpl.
  destruct (peekIsType tokens (S pos) LPAREN); [|reflexivity].
  apply parseCallWithParens_map.
Qed.

Lemma openBlock_map (after : string) (opener : option Token) (pos : nat) :
  MiniParser.openBlock tokens' after (option_map withoutColumn opener) pos
  = mapResult (fun a => a) (MiniParser.openBlock tokens after opener pos).
Proof.
  unfold MiniParser.openBlock. peeks.
  destruct (peekIsType tokens (skipNewlines tokens pos) INDENT); [reflexivity|].
  now destruct opener.
Qed.

Lemma openClauseBlock_map (after : string) (pos : nat) :
  MiniParser.openClauseBlock tokens' after pos
  = mapResult (fun a => a) (MiniParser.openClauseBlock tokens after pos).
Proof.
  unfold MiniParser.openClauseBlock. peeks.
  now destruct (peekIsType tokens (skipNewlines tokens pos) INDENT).
Qed.

Lemma statements_map (fuel : nat) :
  (forall pos, MiniParser.parseStatement tokens' fuel pos
               = resultWithoutColumn (MiniParser.parseStatement tokens fuel pos)) /\
  (forall pos, MiniParser.parseForLoop tokens' fuel pos
               = resultWithoutColumn (MiniParser.parseForLoop tokens fuel pos)) /\
  (forall pos, MiniParser.parseWhileLoop tokens' fuel pos
               = resultWithoutColumn (MiniParser.parseWhileLoop tokens fuel pos)) /\
  (forall pos, MiniParser.parseIfStatement tokens' fuel pos
               = resultWithoutColumn (MiniParser.parseIfStatement tokens fuel pos)) /\
  (forall clauses pos,
     MiniParser.parseElifClauses tokens' fuel clauses pos
     = resultWithoutColumn (MiniParser.parseElifClauses tokens fuel clauses pos)) /\
  (forall pos, MiniParser.parseBlock tokens' fuel pos
               = resultWithoutColumn (MiniParser.parseBlock tokens fuel pos)) /\
  (forall statements pos,
     MiniParser.parseBlockLoop tokens' fuel statements pos
     = resultWithoutColumn (MiniParser.parseBlockLoop tokens fuel statements pos)).
Proof.
  induction fuel as [|f (IHs & IHf & IHw & IHi & IHe & IHb & IHl)];
    [repeat split; reflexivity|].
  repeat match goal with |- _ /\ _ => split end.
  - intros pos. cbn [MiniParser.parseStatement]. peeks.
    destruct (peekType tokens pos); try reflexivity;
      (first [same_by parseCall_map | same_by IHf | same_by IHw | same_by IHi];
       now destruct a).
  - intros pos. cbn [MiniParser.parseForLoop]. peeks.
    same_by expect_map. destruct a as [varToken p1].
    same_by expect_map. destruct a as [t2 p2].
    same_by expect_map. destruct a as [t3 p3].
    same_by expect_map. destruct a as [t4 p4].
    same_by expect_map. destruct a as [countToken p5].
    same_by expect_map. destruct a as [t6 p6].
    same_by expect_map. destruct a as [t7 p7].
    same_by openBlock_map.
    same_by IHb. destruct a0 as [body p9].
    same_by lineOf_map. reflexivity.
  - intros pos. cbn [MiniParser.parseWhileLoop]. peeks.
    same_by parseCondition_map. destruct a as [condition p1].
    same_by expect_map. destruct a as [t2 p2].
    same_by openBlock_map.
    same_by IHb. destruct a0 as [body p4].
    same_by lineOf_map. reflexivity.
  - intros pos. cbn [MiniParser.parseIfStatement]. peeks.
    same_by parseCondition_map. destruct a as [condition p1].
    same_by expect_map. destruct a as [t2 p2].
    same_by openBlock_map.
    same_by IHb. destruct a0 as [body p4]. peeks.
    same_by IHe. destruct a0 as [elifClauses p5]. peeks.
    eapply (bind_same (fun a => a)).
    + destruct (peekIsType tokens p5 ELSE); [|reflexivity].
      same_by expect_map. destruct a0 as [t q1].
      same_by openClauseBlock_map.
      same_by IHb. now destruct a1.
    + intros [elseBody p6]. same_by lineOf_map. reflexivity.
  - intros clauses pos. cbn [MiniParser.parseElifClauses]. peeks.
    destruct (peekIsType tokens pos ELIF); [|reflexivity].
    same_by parseCondition_map. destruct a as [elifCondition p1].
    same_by expect_map. destruct a as [t2 p2].
    same_by openClauseBlock_map.
    same_by IHb. destruct a0 as [elifBody p4]. peeks. apply IHe.
  - intros pos. cbn [MiniParser.parseBlock].
    same_by IHl. destruct a as [statements p]. peeks. reflexivity.
  - intros statements pos. cbn [MiniParser.parseBlockLoop]. peeks.
    destruct (peekIsType tokens pos DEDENT || peekIsType tokens pos EOF); [reflexivity|].
    same_by IHs. destruct a as [stmt p]. peeks. apply IHl.
Qed.

Lemma parseLoop_map (fuel : nat) :
  forall statements pos,
    MiniParser.parseLoop tokens' fuel statements pos
    = resultWithoutColumn (MiniParser.parseLoop tokens fuel statements pos).
Proof.
  induction fuel as [|f IH]; intros statements pos; [reflexivity|].
  cbn [MiniParser.parseLoop]. peeks.
  destruct (peekIsType tokens pos EOF); [reflexivity|].
  same_by (proj1 (statements_map f)). destruct a as [stmt p]. peeks. apply IH.
Qed.

(** The parser never reads the column of a token, except to print it. *)
Lemma parse_map (fuel : nat) :
  MiniParser.parse tokens' fuel = resultWithoutColumn (MiniParser.parse tokens fuel).
Proof.
  unfold MiniParser.parse. peeks. same_by parseLoop_map. reflexivity.
Qed.

End Columns.

(** X20. Tabs and runs of four spaces are interchangeable in a loop
    mini-game script: replacing every tab by four spaces gives the same
    outcome of lexing and parsing, for every recursion budget - the same
    Program, the same indentation error at the same line, or the same syntax
    error at the same line - except for the column printed in the messages
    of [expect]. *)
Theorem X20_tabs_or_four_spaces_parse_to_the_same_program (fuel : nat) (source : string) :
  parsedWithoutColumn
    (MiniParser.parseSource fuel (string_of_list_ascii (expandTabs (text source))))
  = parsedWithoutColumn (MiniParser.parseSource fuel source).
Proof.
  unfold MiniParser.parseSource, MiniLexer.tokenize, text.
  rewrite list_ascii_of_string_of_list_ascii.
  pose proof (TabFacts.tokenizeWith_expandTabs true MiniLexer.readLexeme
                TabFacts.MiniLexer_readLexeme_same
                LoopFacts.MiniLexer_readLexeme_consumes
                (list_ascii_of_string source)) as H.
  destruct (tokenizeWith true MiniLexer.readLexeme (expandTabs _)) as [ts2|l2],
           (tokenizeWith true MiniLexer.readLexeme (list_ascii_of_string source))
    as [ts1|l1]; simpl in H; try discriminate.
  - injection H as H. simpl. now rewrite <- !parse_map, H.
  - injection H as ->. reflexivity.
Qed.

End ColumnFacts.
